(** * solar-portfolio: the <solar-portfolio> custom element

    A shallow embedding of [solar-portfolio.ts]: the Three.js constellation
    scene ([ConstellationScene]) and the custom element that hosts it
    ([SolarPortfolio]), followed by the properties of both.

    Conventions of the embedding.
    - JavaScript objects that are created with [new] and later compared or
      released by identity (function objects used as listeners, geometries,
      materials, textures, the renderer) are natural numbers handed out by
      an allocation counter.
    - Arrays are lists; [Array.prototype.forEach((x, i) => ...)] is
      [forEach], a left-to-right fold that passes the running index.
    - Event handlers are functions from the state before the event to the
      state after it; an event the page cannot deliver in the current state
      (a click on an element that is not in the document) leaves the state
      as it is.
    - The floating point of the animation (the per-frame easing of a mesh
      towards its orbit) is a parameter of [animate]; nothing below depends
      on its value. Coordinates of the layout table are the rationals the
      source writes as decimal literals.
    - Left out: the style sheet and the icons, the camera, the lights and
      the orbit controls, the coordinates of the stars, and the style the
      animation writes to the labels. No property below reads them. *)

From Stdlib Require Import QArith.
From stdpp Require Import base numbers list strings gmap.

#[local] Set Warnings "-clear-no-such-hyp".

Close Scope Q_scope.

(** ** Types *)

(** [interface PortfolioItem]. *)
Record PortfolioItem := mkItem {
  item_id : string;
  item_title : string;
  item_description : string;
  item_image : string;
  item_tags : list string;
  item_url : string;
}.

(** [interface PortfolioData]; the field is optional at run time, which is
    what [data.items || []] in [load] provides for. *)
Record PortfolioData := mkData {
  data_items : option (list PortfolioItem);
}.

(** [Array.prototype.forEach] with the element index, threading the state
    the callback mutates. *)
Fixpoint forEach_from {A St : Type} (f : A → nat → St → St)
    (l : list A) (i : nat) (s : St) : St :=
  match l with
  | [] => s
  | a :: l' => forEach_from f l' (S i) (f a i s)
  end.

Definition forEach {A St : Type} (f : A → nat → St → St) (l : list A) (s : St) : St :=
  forEach_from f l 0 s.

(** [EventTarget.addEventListener] and [removeEventListener] on the listener
    list of one event type: a function object is listed at most once, and
    removal is by identity. *)
Definition addEventListener (fn : nat) (ls : list nat) : list nat :=
  if decide (fn ∈ ls) then ls else ls ++ [fn].

Definition removeEventListener (fn : nat) (ls : list nat) : list nat :=
  filter (λ g, g ≠ fn) ls.

(** ** The constellation scene *)

Module Scene.

Record Vector3 := mkVector3 { vec_x : Q; vec_y : Q; vec_z : Q }.

(** A [loader.load(item.image, onLoad, undefined, onError)] that has not
    settled: the scene that issued it (named by its renderer), the URL, and
    the [mat] and [i] its two callbacks close over. *)
Record ImageLoad := mkImageLoad {
  il_owner : nat;
  il_src : string;
  il_mat : nat;
  il_index : nat;
}.

(** The browser and three.js state a scene acts on. *)
Record Platform := mkPlatform {
  nextObject : nat;          (* identity of the next object made with [new] *)
  undisposed : gset nat;     (* graphics objects created and not disposed *)
  nextFrame : nat;           (* next handle of [requestAnimationFrame] *)
  pendingFrames : gset nat;  (* frame requests neither run nor cancelled *)
  windowResize : list nat;   (* listeners of [window] for "resize" *)
  imageLoads : list ImageLoad;  (* texture loads in flight, oldest first *)
}.

Definition emptyPlatform : Platform := mkPlatform 0 ∅ 0 ∅ [] [].

(** [new] of a graphics object (geometry, material, texture, renderer). *)
Definition create (p : Platform) : nat * Platform :=
  (nextObject p,
   mkPlatform (S (nextObject p)) ({[nextObject p]} ∪ undisposed p)
              (nextFrame p) (pendingFrames p) (windowResize p) (imageLoads p)).

(** A function object (an arrow-function field of the instance). *)
Definition closure (p : Platform) : nat * Platform :=
  (nextObject p,
   mkPlatform (S (nextObject p)) (undisposed p)
              (nextFrame p) (pendingFrames p) (windowResize p) (imageLoads p)).

(** [x.dispose()]. *)
Definition dispose (h : nat) (p : Platform) : Platform :=
  mkPlatform (nextObject p) (undisposed p ∖ {[h]})
             (nextFrame p) (pendingFrames p) (windowResize p) (imageLoads p).

Definition requestAnimationFrame (p : Platform) : nat * Platform :=
  (nextFrame p,
   mkPlatform (nextObject p) (undisposed p)
              (S (nextFrame p)) ({[nextFrame p]} ∪ pendingFrames p) (windowResize p)
              (imageLoads p)).

Definition cancelAnimationFrame (id : nat) (p : Platform) : Platform :=
  mkPlatform (nextObject p) (undisposed p)
             (nextFrame p) (pendingFrames p ∖ {[id]}) (windowResize p) (imageLoads p).

Definition setWindowResize (ls : list nat) (p : Platform) : Platform :=
  mkPlatform (nextObject p) (undisposed p) (nextFrame p) (pendingFrames p) ls
             (imageLoads p).

Definition setImageLoads (ls : list ImageLoad) (p : Platform) : Platform :=
  mkPlatform (nextObject p) (undisposed p) (nextFrame p) (pendingFrames p)
             (windowResize p) ls.

(** [THREE.Color], as this code uses it: a colour given by its hex value,
    as in [color: 0xffffff], or what [color.set(style)] has made of a
    colour. Which colour a string stands for is for three.js to say. *)
Inductive Color :=
| Hex (h : Z)
| ColorSet (style : string) (c : Color).

(** The hex value of a colour, where [setStyle] is the reading three.js
    gives to a string ([Color.setStyle]): the hex value it stands for, or
    [None] for a string three.js cannot read, which it reports on the
    console and which leaves the colour as it was. *)
Fixpoint colorValue (setStyle : string → option Z) (c : Color) : Z :=
  match c with
  | Hex h => h
  | ColorSet style c => default (colorValue setStyle c) (setStyle style)
  end.

(** [THREE.MeshStandardMaterial]: its identity, its [map] and its
    [color]. *)
Record Material := mkMaterial {
  mat_id : nat;
  mat_map : option nat;
  mat_color : Color;
}.

(** [mesh.userData = { index: i }]; [None] stands for a value whose
    [typeof] is not "number". *)
Record UserData := mkUserData { index : option nat }.

Record Mesh := mkMesh {
  position : Vector3;
  userData : UserData;
  geometry : nat;
  material : Material;
}.

(** A label button: text, accessible name and the index its click listener
    closes over. *)
Record Label := mkLabel {
  textContent : string;
  ariaLabel : string;
  clickIndex : nat;
}.

Record Points := mkPoints { points_geometry : nat; points_material : nat }.

(** The fields of a [ConstellationScene] instance. [renderer] is the
    identity of the [WebGLRenderer]; [canvasClick] is the "click" listener
    list of [renderer.domElement]; [resize] and [handleCanvasClick] are the
    identities of the two arrow-function fields. *)
Record ConstellationScene := mkScene {
  renderer : nat;
  canvasClick : list nat;
  thumbnailMeshes : list Mesh;
  textures : list (option nat);
  items : list PortfolioItem;
  animId : nat;
  labelElements : list Label;
  accentColor : string;
  stars : option Points;
  basePositions : list Vector3;
  currentPositions : list Vector3;
  resize : nat;
  handleCanvasClick : nat;
}.

(** The layout table of [createThumbnails]. *)
Definition spread : list Vector3 := [
  mkVector3 (-18 # 10) (8 # 10) (-15 # 10);
  mkVector3 (-5 # 10) (10 # 10) (8 # 10);
  mkVector3 (8 # 10) (9 # 10) (-8 # 10);
  mkVector3 (19 # 10) (6 # 10) (12 # 10);
  mkVector3 (-16 # 10) (-2 # 10) (10 # 10);
  mkVector3 (-4 # 10) (1 # 10) (-12 # 10);
  mkVector3 (6 # 10) (-3 # 10) (15 # 10);
  mkVector3 (17 # 10) (-1 # 10) (-5 # 10);
  mkVector3 (-10 # 10) (-9 # 10) (-3 # 10);
  mkVector3 (11 # 10) (-8 # 10) (6 # 10)
]%Q.

(** Field updates used by the methods below. *)
Definition withStars (st : Points) (s : ConstellationScene) : ConstellationScene :=
  mkScene (renderer s) (canvasClick s) (thumbnailMeshes s) (textures s) (items s)
          (animId s) (labelElements s) (accentColor s) (Some st)
          (basePositions s) (currentPositions s) (resize s) (handleCanvasClick s).

Definition pushThumbnail (base : Vector3) (m : Mesh) (s : ConstellationScene)
    : ConstellationScene :=
  mkScene (renderer s) (canvasClick s) (thumbnailMeshes s ++ [m])
          (textures s ++ [None]) (items s)
          (animId s) (labelElements s) (accentColor s) (stars s)
          (basePositions s ++ [base]) (currentPositions s ++ [base])
          (resize s) (handleCanvasClick s).

Definition pushLabel (b : Label) (s : ConstellationScene) : ConstellationScene :=
  mkScene (renderer s) (canvasClick s) (thumbnailMeshes s) (textures s) (items s)
          (animId s) (labelElements s ++ [b]) (accentColor s) (stars s)
          (basePositions s) (currentPositions s) (resize s) (handleCanvasClick s).

Definition withCanvasClick (ls : list nat) (s : ConstellationScene) : ConstellationScene :=
  mkScene (renderer s) ls (thumbnailMeshes s) (textures s) (items s)
          (animId s) (labelElements s) (accentColor s) (stars s)
          (basePositions s) (currentPositions s) (resize s) (handleCanvasClick s).

Definition withAnimId (id : nat) (s : ConstellationScene) : ConstellationScene :=
  mkScene (renderer s) (canvasClick s) (thumbnailMeshes s) (textures s) (items s)
          id (labelElements s) (accentColor s) (stars s)
          (basePositions s) (currentPositions s) (resize s) (handleCanvasClick s).

Definition withMotion (ms : list Mesh) (cur : list Vector3) (s : ConstellationScene)
    : ConstellationScene :=
  mkScene (renderer s) (canvasClick s) ms (textures s) (items s)
          (animId s) (labelElements s) (accentColor s) (stars s)
          (basePositions s) cur (resize s) (handleCanvasClick s).

Definition withTextures (ms : list Mesh) (ts : list (option nat)) (s : ConstellationScene)
    : ConstellationScene :=
  mkScene (renderer s) (canvasClick s) ms ts (items s)
          (animId s) (labelElements s) (accentColor s) (stars s)
          (basePositions s) (currentPositions s) (resize s) (handleCanvasClick s).

(** [createStars]: one geometry and one material for the star field. The
    120 star coordinates are floating point and are not represented. *)
Definition createStars (st : Platform * ConstellationScene) : Platform * ConstellationScene :=
  let '(p, s) := st in
  let '(geom, p) := create p in
  let '(mat, p) := create p in
  (p, withStars (mkPoints geom mat) s).

(** The body of the [forEach] callback of [createThumbnails]. The table is
    not empty, so [spread[i % spread.length]] is always an entry; the [None]
    branch (a TypeError in the source) is dead, see [spread_lookup]. *)
Definition createThumbnail (item : PortfolioItem) (i : nat)
    (st : Platform * ConstellationScene) : Platform * ConstellationScene :=
  let '(p, s) := st in
  match spread !! (i `mod` length spread) with
  | None => st
  | Some basePos =>
      let '(geom, p) := create p in
      let '(mat, p) := create p in
      let mesh := mkMesh basePos (mkUserData (Some i)) geom (mkMaterial mat None (Hex 0xffffff)) in
      let p := setImageLoads
                 (imageLoads p ++ [mkImageLoad (renderer s) (item_image item) mat i]) p in
      (p, pushThumbnail basePos mesh s)
  end.

Definition createThumbnails (st : Platform * ConstellationScene)
    : Platform * ConstellationScene :=
  forEach createThumbnail (items st.2) st.

Definition createLabel (item : PortfolioItem) (i : nat) (s : ConstellationScene)
    : ConstellationScene :=
  pushLabel (mkLabel (item_title item) ("View " +:+ item_title item) i) s.

Definition createLabels (s : ConstellationScene) : ConstellationScene :=
  forEach createLabel (items s) s.

(** One pass of [animate]: request the next frame, then move every mesh.
    [ease i base cur] is the position the source computes for mesh [i] from
    its base and current position at the current time. *)
Definition moveMesh (ease : nat → Vector3 → Vector3 → Vector3)
    (bases curs : list Vector3) (mesh : Mesh) (i : nat)
    (acc : list Mesh * list Vector3) : list Mesh * list Vector3 :=
  match bases !! i, curs !! i with
  | Some base, Some cur =>
      let cur' := ease i base cur in
      (acc.1 ++ [mkMesh cur' (userData mesh) (geometry mesh) (material mesh)],
       acc.2 ++ [cur'])
  | _, _ => (acc.1 ++ [mesh], acc.2)
  end.

Definition animate (ease : nat → Vector3 → Vector3 → Vector3)
    (st : Platform * ConstellationScene) : Platform * ConstellationScene :=
  let '(p, s) := st in
  let '(id, p) := requestAnimationFrame p in
  let s := withAnimId id s in
  let '(ms, cur) :=
    forEach (moveMesh ease (basePositions s) (currentPositions s))
            (thumbnailMeshes s) ([], []) in
  (p, withMotion ms cur s).

(** The constructor. [ease] is the easing of the first [animate] pass. *)
Definition construct (ease : nat → Vector3 → Vector3 → Vector3)
    (its : list PortfolioItem) (accent : string) (p : Platform)
    : Platform * ConstellationScene :=
  let '(fresize, p) := closure p in
  let '(fclick, p) := closure p in
  let '(rend, p) := create p in
  let s := mkScene rend [] [] [] its 0 [] accent None [] [] fresize fclick in
  let st := createStars (p, s) in
  let '(p, s) := createThumbnails st in
  let s := createLabels s in
  let p := setWindowResize (addEventListener (resize s) (windowResize p)) p in
  let s := withCanvasClick (addEventListener (handleCanvasClick s) (canvasClick s)) s in
  animate ease (p, s).

(** The browser runs a requested frame: the request is consumed and
    [animate] is called. Nothing runs for a handle that is not pending. *)
Definition frame (ease : nat → Vector3 → Vector3 → Vector3)
    (st : Platform * ConstellationScene) : Platform * ConstellationScene :=
  let '(p, s) := st in
  if decide (animId s ∈ pendingFrames p)
  then animate ease (cancelAnimationFrame (animId s) p, s)
  else st.

(** The two callbacks of [loader.load]. [mat] and [i] are the variables
    of the [forEach] callback they close over; [this.textures[i] = tex]
    writes a slot that [createThumbnails] has pushed. *)
Definition setMaterial (f : Material → Material) (mat : nat) (ms : list Mesh) : list Mesh :=
  (λ m, if decide (mat_id (material m) = mat)
        then mkMesh (position m) (userData m) (geometry m) (f (material m))
        else m) <$> ms.

Definition onLoad (mat i : nat) (st : Platform * ConstellationScene)
    : Platform * ConstellationScene :=
  let '(p, s) := st in
  let '(tex, p) := create p in
  (p, withTextures
        (setMaterial (λ m, mkMaterial (mat_id m) (Some tex) (mat_color m)) mat
                     (thumbnailMeshes s))
        (<[i := Some tex]> (textures s)) s).

Definition onError (mat : nat) (st : Platform * ConstellationScene)
    : Platform * ConstellationScene :=
  let '(p, s) := st in
  (p, withTextures
        (setMaterial (λ m, mkMaterial (mat_id m) (mat_map m)
                                      (ColorSet (accentColor s) (mat_color m))) mat
                     (thumbnailMeshes s))
        (textures s) s).

(** The image of the [k]-th load in flight arrives, or fails to. The
    callbacks of a load that another scene issued act on that scene, which
    is not [s]. *)
Definition settle (ok : bool) (k : nat) (st : Platform * ConstellationScene)
    : Platform * ConstellationScene :=
  let '(p, s) := st in
  match imageLoads p !! k with
  | None => st
  | Some r =>
      let p := setImageLoads (delete k (imageLoads p)) p in
      if decide (il_owner r = renderer s)
      then if ok then onLoad (il_mat r) (il_index r) (p, s) else onError (il_mat r) (p, s)
      else (p, s)
  end.

(** [handleCanvasClick]: [hits] is the result of
    [raycaster.intersectObjects(this.thumbnailMeshes)], nearest first. The
    result is the index handed to [onItemClick], if any. *)
Definition canvasClicked (hits : list Mesh) : option nat :=
  match hits with
  | [] => None
  | hit :: _ => index (userData hit)
  end.

(** The click listener of the label at position [k] of the label layer. *)
Definition labelClicked (k : nat) (s : ConstellationScene) : option nat :=
  clickIndex <$> labelElements s !! k.

(** [destroy]. *)
Definition disposeMesh (m : Mesh) (i : nat) (p : Platform) : Platform :=
  dispose (mat_id (material m)) (dispose (geometry m) p).

Definition disposeTexture (t : option nat) (i : nat) (p : Platform) : Platform :=
  match t with
  | Some tex => dispose tex p
  | None => p
  end.

Definition destroy (st : Platform * ConstellationScene) : Platform * ConstellationScene :=
  let '(p, s) := st in
  let p := cancelAnimationFrame (animId s) p in
  let p := setWindowResize (removeEventListener (resize s) (windowResize p)) p in
  let s := withCanvasClick (removeEventListener (handleCanvasClick s) (canvasClick s)) s in
  let p := dispose (renderer s) p in
  let p := forEach disposeMesh (thumbnailMeshes s) p in
  let p := forEach disposeTexture (textures s) p in
  let p :=
    match stars s with
    | Some st => dispose (points_material st) (dispose (points_geometry st) p)
    | None => p
    end in
  (p, s).

(** What can happen to a scene between its construction and its teardown. *)
Inductive Event :=
| Frame (ease : nat → Vector3 → Vector3 → Vector3)
| TextureLoaded (k : nat)
| TextureFailed (k : nat).

Definition step (e : Event) (st : Platform * ConstellationScene)
    : Platform * ConstellationScene :=
  match e with
  | Frame ease => frame ease st
  | TextureLoaded k => settle true k st
  | TextureFailed k => settle false k st
  end.

Definition run (es : list Event) (st : Platform * ConstellationScene)
    : Platform * ConstellationScene :=
  foldl (λ st e, step e st) st es.

(** The graphics objects a scene holds a reference to. *)
Definition meshHandles (ms : list Mesh) : list nat :=
  ms ≫= λ m, [geometry m; mat_id (material m)].

Definition textureHandles (ts : list (option nat)) : list nat :=
  ts ≫= λ t, match t with Some tex => [tex] | None => [] end.

Definition starHandles (st : option Points) : list nat :=
  match st with
  | Some st => [points_geometry st; points_material st]
  | None => []
  end.

Definition owned (s : ConstellationScene) : list nat :=
  renderer s :: meshHandles (thumbnailMeshes s)
             ++ textureHandles (textures s) ++ starHandles (stars s).

(** A scene whose parallel arrays line up with the item list [its] it was
    built from: position [j] of every array belongs to item [j]. *)
Record consistent (its : list PortfolioItem) (s : ConstellationScene) : Prop := {
  cons_items : items s = its;
  cons_meshes : length (thumbnailMeshes s) = length its;
  cons_index : ∀ j m, thumbnailMeshes s !! j = Some m → index (userData m) = Some j;
  cons_labels : length (labelElements s) = length its;
  cons_label : ∀ j b, labelElements s !! j = Some b →
    clickIndex b = j ∧ ∃ item, its !! j = Some item ∧ textContent b = item_title item;
  cons_bases : length (basePositions s) = length its;
  cons_base : ∀ j, j < length its →
    basePositions s !! j = spread !! (j `mod` length spread);
}.

(** A platform whose counters are ahead of everything it holds: the objects
    not yet disposed, the frame requests pending, the scenes that have
    image loads in flight and the listeners of the window were all made
    before the next object and the next frame handle. *)
Record wfPlatform (p : Platform) : Prop := {
  wf_objects : ∀ h, h ∈ undisposed p → h < nextObject p;
  wf_frames : ∀ f, f ∈ pendingFrames p → f < nextFrame p;
  wf_loads : ∀ r, r ∈ imageLoads p → il_owner r < nextObject p;
  wf_resize : ∀ f, f ∈ windowResize p → f < nextObject p;
}.

(** The image loads in flight that the scene [s] has issued. *)
Definition ownLoads (p : Platform) (s : ConstellationScene) : list ImageLoad :=
  filter (λ r, il_owner r = renderer s) (imageLoads p).

(** The books of a scene [st.2] on the platform [st.1], built on the
    platform [p0]: the objects not disposed are those of [p0] and those the
    scene holds, which are newer; every mesh has a material of its own;
    slot [i] of [textures] is the [map] of the material of mesh [i]; and
    every image load of the scene still in flight is the only one for its
    index, names the material of the mesh at that index, finds the texture
    slot empty, and fetches the image of the item at that index. *)
Record wired (p0 : Platform) (st : Platform * ConstellationScene) : Prop := {
  wired_undisposed : undisposed st.1 = undisposed p0 ∪ list_to_set (owned st.2);
  wired_new : ∀ h, h ∈ owned st.2 → nextObject p0 ≤ h < nextObject st.1;
  wired_materials : ∀ j1 j2 m1 m2,
    thumbnailMeshes st.2 !! j1 = Some m1 → thumbnailMeshes st.2 !! j2 = Some m2 →
    mat_id (material m1) = mat_id (material m2) → j1 = j2;
  wired_maps : ∀ i m,
    thumbnailMeshes st.2 !! i = Some m → textures st.2 !! i = Some (mat_map (material m));
  wired_loads : ∀ r, r ∈ ownLoads st.1 st.2 →
    ∃ m, thumbnailMeshes st.2 !! il_index r = Some m ∧
         mat_id (material m) = il_mat r ∧ mat_map (material m) = None;
  wired_distinct : NoDup (il_index <$> ownLoads st.1 st.2);
  wired_sources : ∀ r, r ∈ ownLoads st.1 st.2 →
    ∃ item, items st.2 !! il_index r = Some item ∧ il_src r = item_image item;
}.

(** The schedule of a scene built on the platform [p0]: its only pending
    frame request is [animId], a handle newer than those of [p0]; its
    [resize], the first object made on [p0], is registered with the window
    and its [handleCanvasClick] with the canvas. *)
Record scheduled (p0 : Platform) (st : Platform * ConstellationScene) : Prop := {
  sched_frames : pendingFrames st.1 = pendingFrames p0 ∪ {[animId st.2]};
  sched_new : nextFrame p0 ≤ animId st.2 < nextFrame st.1;
  sched_resize : resize st.2 = nextObject p0;
  sched_window : windowResize st.1 = addEventListener (resize st.2) (windowResize p0);
  sched_click : canvasClick st.2 = [handleCanvasClick st.2];
}.

(** A scene in which the mesh of every image load still in flight has the
    colour its material was created with: nothing has set it yet. *)
Definition pristine (st : Platform * ConstellationScene) : Prop :=
  ∀ r m, r ∈ ownLoads st.1 st.2 → thumbnailMeshes st.2 !! il_index r = Some m →
         mat_color (material m) = Hex 0xffffff.

End Scene.

(** ** The custom element *)

Module Host.

(** The two capability checks, [prefersReducedMotion()] and
    [isWebGLAvailable()], as the page answers them while a handler runs,
    and the easing of the first animation pass of a scene built then. *)
Record Env := mkEnv {
  prefersReducedMotion : bool;
  isWebGLAvailable : bool;
  easing : nat → Scene.Vector3 → Scene.Vector3 → Scene.Vector3;
}.

(** The variables a [keyHandler] closure of [showCard] captures. *)
Record KeyHandler := mkKeyHandler {
  kh_index : Z;
  kh_hasPrev : bool;
  kh_hasNext : bool;
}.

(** What [showCard] writes into the overlay: the item shown, which of the
    two navigation buttons exist, and the [index] their listeners close
    over. The close button is always there. *)
Record CardView := mkCardView {
  cv_item : PortfolioItem;
  cv_prev : bool;
  cv_next : bool;
  cv_index : Z;
}.

(** The [#card-overlay] element: class [active], its children, the number
    of "click" listeners on the element itself, and the [_keyHandler]
    property (the identity of the stored function). *)
Record Overlay := mkOverlay {
  ov_active : bool;
  ov_content : option CardView;
  ov_clicks : nat;
  ov_keyHandler : option nat;
}.

Definition newOverlay : Overlay := mkOverlay false None 0 None.

(** A card of the grid: its [aria-label] attribute, the three values that
    the template of its [innerHTML] interpolates ([item.image], [item.title]
    and [item.tags]), and the index its two listeners close over. The
    values are put into markup as they are, see [card_innerHTML]: what the
    browser makes of that markup is what the card shows. *)
Record Card := mkCard {
  card_ariaLabel : string;
  card_img : string;
  card_title : string;
  card_tags : list string;
  card_index : nat;
}.

(** The double quote and the line break of the template literals. *)
Definition quote : string := String (Ascii.ascii_of_nat 34) EmptyString.
Definition newline : string := String (Ascii.ascii_of_nat 10) EmptyString.

(** The template literal assigned to [card.innerHTML] in [renderGrid],
    with its line breaks and indentation; the values are interpolated
    without escaping. *)
Definition tagSpan (t : string) : string :=
  "<span class=" +:+ quote +:+ "tag" +:+ quote +:+ ">" +:+ t +:+ "</span>".

Definition gridItemMarkup (image title : string) (tags : list string) : string :=
  newline +:+
  "        <img src=" +:+ quote +:+ image +:+ quote +:+
    " alt=" +:+ quote +:+ title +:+ quote +:+
    " loading=" +:+ quote +:+ "lazy" +:+ quote +:+ " />" +:+ newline +:+
  "        <div class=" +:+ quote +:+ "grid-item-body" +:+ quote +:+ ">" +:+ newline +:+
  "          <h3>" +:+ title +:+ "</h3>" +:+ newline +:+
  "          <div class=" +:+ quote +:+ "tags" +:+ quote +:+ ">" +:+ newline +:+
  "            " +:+ String.concat "" (tagSpan <$> tags) +:+ newline +:+
  "          </div>" +:+ newline +:+
  "        </div>" +:+ newline +:+
  "      ".

Definition card_innerHTML (c : Card) : string :=
  gridItemMarkup (card_img c) (card_title c) (card_tags c).

(** The markup of the card of [item]. *)
Definition cardMarkup (item : PortfolioItem) : string :=
  gridItemMarkup (item_image item) (item_title item) (item_tags item).

(** The children of [this.container]. *)
Inductive Child :=
| FallbackNotice (text : string)
| Poster (src : string)
| Loading
| GridWrap (notices : list string) (grid : list Card) (overlay : Overlay)
| ConstellationWrap (overlay : Overlay).

(** The fields of a [SolarPortfolio] element, its four observed attributes
    and the [--accent] property it sets on itself. *)
Record SolarPortfolio := mkElement {
  container : list Child;
  items : list PortfolioItem;
  scene : option Scene.ConstellationScene;
  activeIndex : option Z;
  attr_data_json : option string;
  attr_variant : option string;
  attr_poster : option string;
  attr_accent : option string;
  style_accent : option string;
  isConnected : bool;
}.

(** The page around the element: the "keydown" listeners of [document]
    (function identity and closure, in registration order), the platform
    state of the scene, and the [fetch] requests of [load] that have not
    settled. *)
Record Page := mkPage {
  element : SolarPortfolio;
  keydown : list (nat * KeyHandler);
  platform : Scene.Platform;
  fetches : list (nat * string);
  nextFetch : nat;
}.

Definition newElement (json variant poster accent : option string) : SolarPortfolio :=
  mkElement [] [] None None json variant poster accent None false.

Definition newPage (el : SolarPortfolio) : Page :=
  mkPage el [] Scene.emptyPlatform [] 0.

(** Field updates. *)
Definition setContainer (c : list Child) (el : SolarPortfolio) : SolarPortfolio :=
  mkElement c (items el) (scene el) (activeIndex el) (attr_data_json el)
            (attr_variant el) (attr_poster el) (attr_accent el) (style_accent el)
            (isConnected el).

Definition setItems (l : list PortfolioItem) (el : SolarPortfolio) : SolarPortfolio :=
  mkElement (container el) l (scene el) (activeIndex el) (attr_data_json el)
            (attr_variant el) (attr_poster el) (attr_accent el) (style_accent el)
            (isConnected el).

Definition setScene (s : option Scene.ConstellationScene) (el : SolarPortfolio)
    : SolarPortfolio :=
  mkElement (container el) (items el) s (activeIndex el) (attr_data_json el)
            (attr_variant el) (attr_poster el) (attr_accent el) (style_accent el)
            (isConnected el).

Definition setActiveIndex (a : option Z) (el : SolarPortfolio) : SolarPortfolio :=
  mkElement (container el) (items el) (scene el) a (attr_data_json el)
            (attr_variant el) (attr_poster el) (attr_accent el) (style_accent el)
            (isConnected el).

Definition setStyleAccent (a : string) (el : SolarPortfolio) : SolarPortfolio :=
  mkElement (container el) (items el) (scene el) (activeIndex el) (attr_data_json el)
            (attr_variant el) (attr_poster el) (attr_accent el) (Some a)
            (isConnected el).

Definition setConnected (b : bool) (el : SolarPortfolio) : SolarPortfolio :=
  mkElement (container el) (items el) (scene el) (activeIndex el) (attr_data_json el)
            (attr_variant el) (attr_poster el) (attr_accent el) (style_accent el) b.

Definition onElement (f : SolarPortfolio → SolarPortfolio) (pg : Page) : Page :=
  mkPage (f (element pg)) (keydown pg) (platform pg) (fetches pg) (nextFetch pg).

Definition setKeydown (ls : list (nat * KeyHandler)) (pg : Page) : Page :=
  mkPage (element pg) ls (platform pg) (fetches pg) (nextFetch pg).

Definition setPlatform (p : Scene.Platform) (pg : Page) : Page :=
  mkPage (element pg) (keydown pg) p (fetches pg) (nextFetch pg).

Definition setFetches (fs : list (nat * string)) (n : nat) (pg : Page) : Page :=
  mkPage (element pg) (keydown pg) (platform pg) fs n.

(** [a || b] on a string attribute: [null] and the empty string are falsy. *)
Definition truthy (a : option string) : option string :=
  match a with
  | Some s => if decide (s = ""%string) then None else Some s
  | None => None
  end.

(** The getters [accent] and [variant]. *)
Definition accent (el : SolarPortfolio) : string :=
  default "#8C52FF"%string (truthy (attr_accent el)).

Definition variant (el : SolarPortfolio) : string :=
  default "constellation"%string (truthy (attr_variant el)).

Definition posterUrl (el : SolarPortfolio) : option string := attr_poster el.

(** [this.items[index]] for a JavaScript number that is an integer. *)
Definition itemAt (l : list PortfolioItem) (i : Z) : option PortfolioItem :=
  if decide (0 ≤ i)%Z then l !! Z.to_nat i else None.

(** [this.shadow.getElementById("card-overlay")]: the first overlay in
    document order. *)
Fixpoint getOverlay (c : list Child) : option Overlay :=
  match c with
  | [] => None
  | GridWrap _ _ ov :: _ => Some ov
  | ConstellationWrap ov :: _ => Some ov
  | _ :: c' => getOverlay c'
  end.

(** Writing to the element [getOverlay] returned. *)
Fixpoint putOverlay (ov : Overlay) (c : list Child) : list Child :=
  match c with
  | [] => []
  | GridWrap ns g _ :: c' => GridWrap ns g ov :: c'
  | ConstellationWrap _ :: c' => ConstellationWrap ov :: c'
  | x :: c' => x :: putOverlay ov c'
  end.

(** [hideCard]. *)
Definition hideCard (pg : Page) : Page :=
  let pg := onElement (setActiveIndex None) pg in
  match getOverlay (container (element pg)) with
  | None => pg
  | Some ov =>
      let pg :=
        match ov_keyHandler ov with
        | Some f => setKeydown (filter (λ l, l.1 ≠ f) (keydown pg)) pg
        | None => pg
        end in
      onElement (λ el, setContainer
                         (putOverlay (mkOverlay false None (ov_clicks ov) None)
                                     (container el)) el) pg
  end.

(** [showCard]. The new [keyHandler] is a fresh function object; it is
    appended to the listeners of [document] and stored on the overlay. *)
Definition showCard (idx : Z) (pg : Page) : Page :=
  let pg := onElement (setActiveIndex (Some idx)) pg in
  match itemAt (items (element pg)) idx with
  | None => pg
  | Some item =>
      match getOverlay (container (element pg)) with
      | None => pg
      | Some ov =>
          let hasPrev := bool_decide (0 < idx)%Z in
          let hasNext := bool_decide (idx < Z.of_nat (length (items (element pg))) - 1)%Z in
          let '(fn, p) := Scene.closure (platform pg) in
          let pg := setPlatform p pg in
          let ov' := mkOverlay true (Some (mkCardView item hasPrev hasNext idx))
                               (S (ov_clicks ov)) (Some fn) in
          let pg := onElement (λ el, setContainer (putOverlay ov' (container el)) el) pg in
          setKeydown (keydown pg ++ [(fn, mkKeyHandler idx hasPrev hasNext)]) pg
      end
  end.

(** The body of a [keyHandler] closure. *)
Definition keyHandler (h : KeyHandler) (key : string) (pg : Page) : Page :=
  let pg := if bool_decide (key = "Escape"%string) then hideCard pg else pg in
  let pg := if bool_decide (key = "ArrowLeft"%string) && kh_hasPrev h
            then showCard (kh_index h - 1) pg else pg in
  let pg := if bool_decide (key = "ArrowRight"%string) && kh_hasNext h
            then showCard (kh_index h + 1) pg else pg in
  pg.

(** Dispatch of a "keydown" event at [document]: the listeners registered
    when the dispatch starts are called in order; one that an earlier
    listener removed is skipped, one added meanwhile is not called. *)
Fixpoint dispatchKeydown (snapshot : list (nat * KeyHandler)) (key : string)
    (pg : Page) : Page :=
  match snapshot with
  | [] => pg
  | (f, h) :: rest =>
      if decide (f ∈ (keydown pg).*1)
      then dispatchKeydown rest key (keyHandler h key pg)
      else dispatchKeydown rest key pg
  end.

Definition documentKeydown (key : string) (pg : Page) : Page :=
  dispatchKeydown (keydown pg) key pg.

(** [render], [renderGrid] and [renderConstellation]. *)
Definition webglNotice : string :=
  "WebGL is unavailable — showing static grid view.".

Definition reducedMotionNotice : string :=
  "Reduced-motion preference detected — showing static grid.".

Definition gridCard (item : PortfolioItem) (i : nat) (grid : list Card) : list Card :=
  grid ++ [mkCard (item_title item) (item_image item) (item_title item)
                  (item_tags item) i].

Definition renderGrid (env : Env) (showWebGLNotice : bool) (pg : Page) : Page :=
  let el := element pg in
  let notices :=
    (if showWebGLNotice then [webglNotice] else []) ++
    (if prefersReducedMotion env && negb (bool_decide (variant el = "grid"%string))
     then [reducedMotionNotice] else []) in
  let grid := forEach gridCard (items el) [] in
  onElement (setContainer (container el ++ [GridWrap notices grid newOverlay])) pg.

Definition renderConstellation (env : Env) (pg : Page) : Page :=
  let pg := onElement (λ el, setContainer (container el ++ [ConstellationWrap newOverlay]) el)
                      pg in
  let el := element pg in
  let '(p, s) := Scene.construct (easing env) (items el) (accent el) (platform pg) in
  onElement (setScene (Some s)) (setPlatform p pg).

Definition render (env : Env) (pg : Page) : Page :=
  let pg := onElement (setContainer []) pg in
  let el := element pg in
  let useGrid :=
    bool_decide (variant el = "grid"%string)
    || prefersReducedMotion env
    || negb (isWebGLAvailable env) in
  if useGrid
  then renderGrid env (negb (isWebGLAvailable env)
                       && negb (bool_decide (variant el = "grid"%string))) pg
  else renderConstellation env pg.

(** [load], up to the first [await]: the page is left with a notice and no
    request, or with the poster or the loading indicator and one more
    request in flight. *)
Definition updateAccentColor (pg : Page) : Page :=
  onElement (λ el, setStyleAccent (accent el) el) pg.

Definition noDataNotice : string := "No data-json attribute provided.".
Definition failedNotice : string := "Failed to load portfolio data.".

Definition load (pg : Page) : Page :=
  let pg := onElement (setContainer []) pg in
  let pg := updateAccentColor pg in
  match truthy (attr_data_json (element pg)) with
  | None => onElement (setContainer [FallbackNotice noDataNotice]) pg
  | Some jsonUrl =>
      let waiting :=
        match truthy (posterUrl (element pg)) with
        | Some src => Poster src
        | None => Loading
        end in
      let pg := onElement (setContainer [waiting]) pg in
      setFetches (fetches pg ++ [(nextFetch pg, jsonUrl)]) (S (nextFetch pg)) pg
  end.

(** How a [fetch] of [load] settles: the promise rejects, or it resolves to
    a response whose body parses as JSON or does not. *)
Inductive Body :=
| Malformed
| Parsed (data : PortfolioData).

Inductive FetchResult :=
| NetworkError
| Response (ok : bool) (status : nat) (body : Body).

Inductive Error :=
| FetchFailed
| HttpError (status : nat)
| JsonSyntaxError.

(** How a piece of code ends: normally, or by a throw that nothing in it
    caught. *)
Inductive Outcome :=
| Done (pg : Page)
| Threw (err : Error) (pg : Page).

(** The [try] block of [load]. *)
Definition loadTry (r : FetchResult) (pg : Page) : Outcome :=
  match r with
  | NetworkError => Threw FetchFailed pg
  | Response ok status body =>
      if negb ok then Threw (HttpError status) pg
      else match body with
           | Malformed => Threw JsonSyntaxError pg
           | Parsed data =>
               Done (onElement (setItems (default [] (data_items data))) pg)
           end
  end.

(** [load] from the first [await] on: the [try] block, its [catch] clause,
    which returns, and [render]. Between [await fetch] and
    [await resp.json()] the function writes nothing, so the two are one
    step here. *)
Definition loadResume (r : FetchResult) (env : Env) (pg : Page) : Outcome :=
  match loadTry r pg with
  | Threw err pg => Done (onElement (setContainer [FallbackNotice failedNotice]) pg)
  | Done pg => Done (render env pg)
  end.

Definition stateOf (o : Outcome) : Page :=
  match o with
  | Done pg => pg
  | Threw _ pg => pg
  end.

(** The request [id] settles and the [load] that issued it resumes. *)
Definition fetchSettled (id : nat) (r : FetchResult) (env : Env) (pg : Page) : Page :=
  if decide (id ∈ (fetches pg).*1)
  then stateOf (loadResume r env
                  (setFetches (filter (λ f, f.1 ≠ id) (fetches pg)) (nextFetch pg) pg))
  else pg.

(** [this.scene?.destroy(); this.scene = null]. *)
Definition dropScene (pg : Page) : Page :=
  match scene (element pg) with
  | Some s =>
      let '(p, _) := Scene.destroy (platform pg, s) in
      onElement (setScene None) (setPlatform p pg)
  | None => onElement (setScene None) pg
  end.

Definition connectedCallback (pg : Page) : Page :=
  load (onElement (setConnected true) pg).

Definition disconnectedCallback (pg : Page) : Page :=
  dropScene (onElement (setConnected false) pg).

Definition attributeChangedCallback (pg : Page) : Page :=
  if isConnected (element pg) then load (dropScene pg) else pg.

(** The observed attributes. *)
Inductive Attr := DataJson | Variant | PosterAttr | Accent.

Definition setAttribute (a : Attr) (v : option string) (el : SolarPortfolio)
    : SolarPortfolio :=
  match a with
  | DataJson =>
      mkElement (container el) (items el) (scene el) (activeIndex el) v
                (attr_variant el) (attr_poster el) (attr_accent el) (style_accent el)
                (isConnected el)
  | Variant =>
      mkElement (container el) (items el) (scene el) (activeIndex el) (attr_data_json el)
                v (attr_poster el) (attr_accent el) (style_accent el) (isConnected el)
  | PosterAttr =>
      mkElement (container el) (items el) (scene el) (activeIndex el) (attr_data_json el)
                (attr_variant el) v (attr_accent el) (style_accent el) (isConnected el)
  | Accent =>
      mkElement (container el) (items el) (scene el) (activeIndex el) (attr_data_json el)
                (attr_variant el) (attr_poster el) v (style_accent el) (isConnected el)
  end.

(** The cards of the grid that is in the document, if any. *)
Fixpoint getGrid (c : list Child) : list Card :=
  match c with
  | [] => []
  | GridWrap _ g _ :: _ => g
  | _ :: c' => getGrid c'
  end.

(** Is the constellation markup (canvas and label layer) in the document? *)
Definition hasConstellation (c : list Child) : bool :=
  existsb (λ x, match x with ConstellationWrap _ => true | _ => false end) c.

(** What the user, the network and the browser can do to the page. *)
Inductive Event :=
| Connect
| Disconnect
| SetAttribute (a : Attr) (v : option string)
| FetchSettled (id : nat) (r : FetchResult) (env : Env)
| CardClick (k : nat)
| CardKeydown (k : nat) (key : string)
| LabelClick (k : nat)
| CanvasClick (hits : list nat)
| CloseClick
| PrevClick
| NextClick
| BackdropClick
| Keydown (key : string)
| SceneEvent (e : Scene.Event).

(** The listeners of the overlay's children: present only while
    [showCard]'s markup is. *)
Definition shownCard (pg : Page) : option CardView :=
  getOverlay (container (element pg)) ≫= ov_content.

(** The listeners each event reaches, in the order the browser calls them. *)
Definition step (e : Event) (pg : Page) : Page :=
  match e with
  | Connect => connectedCallback pg
  | Disconnect => disconnectedCallback pg
  | SetAttribute a v => attributeChangedCallback (onElement (setAttribute a v) pg)
  | FetchSettled id r env => fetchSettled id r env pg
  | CardClick k =>
      match getGrid (container (element pg)) !! k with
      | Some c => showCard (Z.of_nat (card_index c)) pg
      | None => pg
      end
  | CardKeydown k key =>
      match getGrid (container (element pg)) !! k with
      | Some c =>
          let pg := if bool_decide (key = "Enter"%string) || bool_decide (key = " "%string)
                    then showCard (Z.of_nat (card_index c)) pg else pg in
          documentKeydown key pg
      | None => pg
      end
  | LabelClick k =>
      match scene (element pg) with
      | Some s =>
          if hasConstellation (container (element pg)) then
            match Scene.labelClicked k s with
            | Some i => showCard (Z.of_nat i) pg
            | None => pg
            end
          else pg
      | None => pg
      end
  | CanvasClick hits =>
      match scene (element pg) with
      | Some s =>
          if hasConstellation (container (element pg))
             && bool_decide (Scene.handleCanvasClick s ∈ Scene.canvasClick s) then
            match Scene.canvasClicked (omap (λ k, Scene.thumbnailMeshes s !! k) hits) with
            | Some i => showCard (Z.of_nat i) pg
            | None => pg
            end
          else pg
      | None => pg
      end
  | CloseClick =>
      match shownCard pg with
      | Some _ => hideCard pg
      | None => pg
      end
  | PrevClick =>
      match shownCard pg with
      | Some cv => if cv_prev cv then showCard (cv_index cv - 1) pg else pg
      | None => pg
      end
  | NextClick =>
      match shownCard pg with
      | Some cv => if cv_next cv then showCard (cv_index cv + 1) pg else pg
      | None => pg
      end
  | BackdropClick =>
      match getOverlay (container (element pg)) with
      | Some ov => if ov_active ov then Nat.iter (ov_clicks ov) hideCard pg else pg
      | None => pg
      end
  | Keydown key => documentKeydown key pg
  | SceneEvent e =>
      match scene (element pg) with
      | Some s =>
          let '(p, s) := Scene.step e (platform pg, s) in
          onElement (setScene (Some s)) (setPlatform p pg)
      | None => pg
      end
  end.

Definition run (es : list Event) (pg : Page) : Page :=
  foldl (λ pg e, step e pg) pg es.

(** The events of the element's life cycle and of its loads, as opposed to
    those of the user and of the scene. *)
Definition isLifecycle (e : Event) : bool :=
  match e with
  | Connect | Disconnect | SetAttribute _ _ | FetchSettled _ _ _ => true
  | _ => false
  end.

(** What is rendered. *)
Inductive Mode := Grid | Immersive.

Definition renderedMode (pg : Page) : option Mode :=
  match container (element pg) with
  | [GridWrap _ _ _] => Some Grid
  | [ConstellationWrap _] =>
      match scene (element pg) with
      | Some _ => Some Immersive
      | None => None
      end
  | _ => None
  end.

Fixpoint getNotices (c : list Child) : list string :=
  match c with
  | [] => []
  | FallbackNotice text :: c' => text :: getNotices c'
  | GridWrap ns _ _ :: c' => ns ++ getNotices c'
  | _ :: c' => getNotices c'
  end.







(** Every listener of [document] was made before the next object. *)
Definition freshIds (pg : Page) : Prop :=
  ∀ fh, fh ∈ keydown pg → fh.1 < Scene.nextObject (platform pg).

End Host.

(** ** Sample data *)

Module Examples.

(** The item of the specification's example document. *)
Definition item (t : string) : PortfolioItem :=
  mkItem t t "d" "i.png" ["x"%string] "u".

Definition three : list PortfolioItem := item <$> ["A"; "B"; "C"]%string.

Definition eleven : list PortfolioItem :=
  item <$> ["A"; "B"; "C"; "D"; "E"; "F"; "G"; "H"; "I"; "J"; "K"]%string.

(** An easing that leaves every mesh where it is. *)
Definition still : nat → Scene.Vector3 → Scene.Vector3 → Scene.Vector3 :=
  λ _ _ cur, cur.

(** A browser with WebGL and no reduced-motion preference. *)
Definition capable : Host.Env := Host.mkEnv false true still.

(** A successful response carrying the items [l]. *)
Definition ok (l : list PortfolioItem) : Host.FetchResult :=
  Host.Response true 200 (Host.Parsed (mkData (Some l))).

(** [<solar-portfolio data-json="portfolio.json" variant="grid">], not yet
    connected. *)
Definition gridElement : Host.Page :=
  Host.newPage (Host.newElement (Some "portfolio.json"%string) (Some "grid"%string)
                                None None).

(** The same element after it was connected and its document, the three
    items of [three], has loaded. *)
Definition gridOfThree : Host.Page :=
  Host.run [Host.Connect; Host.FetchSettled 0 (ok three) capable] gridElement.

(** [<solar-portfolio data-json="a.json" variant="grid">] whose
    [data-json] is changed to "b.json" while the first document is still
    being fetched. Request 0 is for "a.json", request 1 for "b.json". *)
Definition twoLoads : Host.Page :=
  Host.run [Host.Connect; Host.SetAttribute Host.DataJson (Some "b.json"%string)]
           (Host.newPage (Host.newElement (Some "a.json"%string) (Some "grid"%string)
                                          None None)).

(** [<solar-portfolio data-json="portfolio.json">], not yet connected, and
    the same element after its document of three items has loaded in a
    capable browser: the constellation. *)
Definition sceneElement : Host.Page :=
  Host.newPage (Host.newElement (Some "portfolio.json"%string) None None None).

Definition sceneOfThree : Host.Page :=
  Host.run [Host.Connect; Host.FetchSettled 0 (ok three) capable] sceneElement.

End Examples.

(** * Properties *)

(** ** The index loop *)

Lemma forEach_from_snoc {A St : Type} (f : A → nat → St → St) l a i s :
  forEach_from f (l ++ [a]) i s = f a (i + length l) (forEach_from f l i s).
Proof.
  revert i s. induction l as [|b l IH]; intros i s; simpl.
  - by rewrite Nat.add_0_r.
  - rewrite IH. f_equal. lia.
Qed.

(** The loop rule: a property that holds before the loop and that every
    pass carries from index [k] to [k + 1] holds at the end. *)
Lemma forEach_invariant {A St : Type} (P : nat → St → Prop)
    (f : A → nat → St → St) (l : list A) (s : St) :
  P 0 s →
  (∀ k a st, l !! k = Some a → P k st → P (S k) (f a k st)) →
  P (length l) (forEach f l s).
Proof.
  unfold forEach. induction l as [|a l IH] using rev_ind; intros H0 Hstep.
  - done.
  - rewrite forEach_from_snoc, length_app. simpl.
    replace (length l + 1) with (S (length l)) by lia.
    apply Hstep.
    + by rewrite lookup_app_r, Nat.sub_diag.
    + apply IH; [done|]. intros k b st Hk. apply Hstep.
      by rewrite lookup_app_l by (by eapply lookup_lt_Some).
Qed.

(** A loop that only pushes builds the indexed map of its input. *)
Lemma forEach_push {A B : Type} (g : nat → A → B) (l : list A) :
  forEach (λ a i acc, acc ++ [g i a]) l [] = imap g l.
Proof.
  induction l as [|a l IH] using rev_ind.
  - done.
  - unfold forEach in *. rewrite forEach_from_snoc, IH, imap_app. simpl.
    by rewrite Nat.add_0_r.
Qed.

(** ** The scene *)

Module SceneFacts.
Import Scene.

Lemma spread_length : length spread = 10.
Proof. reflexivity. Qed.

(** [spread[i % spread.length]] is always an entry of the table. *)
Lemma spread_lookup i : is_Some (spread !! (i `mod` length spread)).
Proof.
  apply lookup_lt_is_Some. rewrite spread_length.
  apply Nat.mod_upper_bound. lia.
Qed.

(** *** [createThumbnails] *)

(** One pass of the loop, spelled out. *)
Lemma createThumbnail_eq item i p s :
  ∃ basePos,
    spread !! (i `mod` length spread) = Some basePos ∧
    createThumbnail item i (p, s) =
      ((setImageLoads
          (imageLoads p ++
             [mkImageLoad (renderer s) (item_image item) (S (nextObject p)) i])
          (create (create p).2).2),
       pushThumbnail basePos
         (mkMesh basePos (mkUserData (Some i)) (nextObject p)
                 (mkMaterial (S (nextObject p)) None (Hex 0xffffff))) s).
Proof.
  destruct (spread_lookup i) as [basePos Hb]. exists basePos. split; [done|].
  unfold createThumbnail. by rewrite Hb.
Qed.

(** What the loop has built after [length l] passes over a scene whose
    arrays were empty. *)
Lemma createThumbnails_spec (l : list PortfolioItem) p0 s0 :
  thumbnailMeshes s0 = [] → basePositions s0 = [] →
  let st := forEach createThumbnail l (p0, s0) in
  items st.2 = items s0 ∧ renderer st.2 = renderer s0 ∧
  labelElements st.2 = labelElements s0 ∧
  pendingFrames st.1 = pendingFrames p0 ∧
  length (thumbnailMeshes st.2) = length l ∧
  length (basePositions st.2) = length l ∧
  (∀ j m, thumbnailMeshes st.2 !! j = Some m → index (userData m) = Some j) ∧
  (∀ j, j < length l → basePositions st.2 !! j = spread !! (j `mod` length spread)) ∧
  (∀ j item, l !! j = Some item →
     ∃ m, thumbnailMeshes st.2 !! j = Some m ∧
          mkImageLoad (renderer s0) (item_image item) (mat_id (material m)) j
            ∈ imageLoads st.1).
Proof.
  intros Hm Hb. unfold forEach.
  induction l as [|a l IH] using rev_ind; simpl.
  - rewrite Hm, Hb. repeat split; try done; try (intros; lia).
  - rewrite forEach_from_snoc. simpl.
    destruct (forEach_from createThumbnail l 0 (p0, s0)) as [p s] eqn:E.
    simpl in IH. destruct IH as (Hi & Hr & Hl & Hf & Hlm & Hlb & Hidx & Hbase & Hreq).
    destruct (createThumbnail_eq a (length l) p s) as (basePos & Hsp & ->).
    simpl. rewrite !length_app, Hlm, Hlb. simpl.
    repeat split; try done; try lia.
    + intros j m Hj. destruct (decide (j < length l)) as [Hlt|Hge].
      * rewrite lookup_app_l in Hj by lia. eauto.
      * rewrite lookup_app_r in Hj by lia.
        destruct (j - length (thumbnailMeshes s)) as [|?] eqn:Ej; [|done].
        simpl in Hj. injection Hj as <-. simpl. f_equal. lia.
    + intros j Hj. destruct (decide (j < length l)) as [Hlt|Hge].
      * rewrite lookup_app_l by lia. eauto.
      * assert (j = length l) as -> by lia.
        rewrite lookup_app_r by lia. by rewrite Hlb, Nat.sub_diag.
    + intros j item Hj. destruct (decide (j < length l)) as [Hlt|Hge].
      * rewrite lookup_app_l in Hj by lia.
        destruct (Hreq j item Hj) as (m & Hmj & Hin).
        exists m. split; [by rewrite lookup_app_l by lia|].
        apply elem_of_app. by left.
      * apply lookup_lt_Some in Hj as Hj'. rewrite length_app in Hj'. simpl in Hj'.
        assert (j = length l) as -> by lia.
        rewrite lookup_app_r, Nat.sub_diag in Hj by lia. injection Hj as ->.
        eexists. split.
        { rewrite lookup_app_r by lia. by rewrite Hlm, Nat.sub_diag. }
        simpl. apply elem_of_app. right. rewrite Hr. apply list_elem_of_singleton.
        done.
Qed.

(** *** [createLabels] *)

Lemma createLabels_from l : ∀ i s,
  let s' := forEach_from createLabel l i s in
  labelElements s' =
    labelElements s ++
    imap (λ k item, mkLabel (item_title item) ("View " +:+ item_title item) (i + k)) l ∧
  thumbnailMeshes s' = thumbnailMeshes s ∧ items s' = items s ∧
  basePositions s' = basePositions s ∧ renderer s' = renderer s.
Proof.
  induction l as [|a l IH]; intros i s; simpl.
  - by rewrite app_nil_r.
  - destruct (IH (S i) (createLabel a i s)) as (Hl & Hm & Hi & Hb & Hr).
    rewrite Hl, Hm, Hi, Hb, Hr. simpl. repeat split; try done.
    rewrite <- app_assoc. simpl. rewrite Nat.add_0_r. do 2 f_equal.
    apply imap_ext. intros k x _. simpl. f_equal. lia.
Qed.

Lemma createLabels_spec s :
  labelElements s = [] →
  let s' := createLabels s in
  labelElements s' =
    imap (λ k item, mkLabel (item_title item) ("View " +:+ item_title item) k) (items s) ∧
  thumbnailMeshes s' = thumbnailMeshes s ∧ items s' = items s ∧
  basePositions s' = basePositions s ∧ renderer s' = renderer s.
Proof.
  intros Hl. unfold createLabels, forEach.
  destruct (createLabels_from (items s) 0 s) as (H1 & H2).
  by rewrite H1, Hl.
Qed.

(** *** [animate] and the texture callbacks keep the arrays lined up *)

Lemma moveMesh_loop ease bases curs (ms : list Mesh) :
  let acc := forEach (moveMesh ease bases curs) ms ([], []) in
  length acc.1 = length ms ∧
  ∀ j m', acc.1 !! j = Some m' →
    ∃ m, ms !! j = Some m ∧ userData m' = userData m ∧
         geometry m' = geometry m ∧ material m' = material m.
Proof.
  apply (forEach_invariant
    (λ k (acc : list Mesh * list Vector3),
       length acc.1 = k ∧
       ∀ j m', acc.1 !! j = Some m' →
         ∃ m, ms !! j = Some m ∧ userData m' = userData m ∧
              geometry m' = geometry m ∧ material m' = material m)).
  - split; [done|]. intros j m' Hj. simpl in Hj. by rewrite lookup_nil in Hj.
  - intros k a [acc1 acc2] Hk [Hlen Hacc]. simpl in *.
    assert (∀ x, userData x = userData a → geometry x = geometry a →
                 material x = material a →
      length (acc1 ++ [x]) = S k ∧
      ∀ j m', (acc1 ++ [x]) !! j = Some m' →
        ∃ m, ms !! j = Some m ∧ userData m' = userData m ∧
             geometry m' = geometry m ∧ material m' = material m) as Hpush.
    { intros x Hu Hg Hmat. split; [rewrite length_app; simpl; lia|].
      intros j m' Hj. destruct (decide (j < k)) as [Hlt|Hge].
      - rewrite lookup_app_l in Hj by lia. eauto.
      - rewrite lookup_app_r in Hj by lia.
        destruct (j - length acc1) as [|?] eqn:Ej; [|done].
        simpl in Hj. injection Hj as <-. exists a.
        assert (j = k) as -> by lia. done. }
    unfold moveMesh. simpl.
    destruct (bases !! k), (curs !! k); simpl; by apply Hpush.
Qed.

Lemma animate_spec ease p s :
  let st := animate ease (p, s) in
  items st.2 = items s ∧ labelElements st.2 = labelElements s ∧
  basePositions st.2 = basePositions s ∧ renderer st.2 = renderer s ∧
  textures st.2 = textures s ∧ stars st.2 = stars s ∧
  canvasClick st.2 = canvasClick s ∧ resize st.2 = resize s ∧
  handleCanvasClick st.2 = handleCanvasClick s ∧
  animId st.2 = nextFrame p ∧
  pendingFrames st.1 = {[nextFrame p]} ∪ pendingFrames p ∧
  length (thumbnailMeshes st.2) = length (thumbnailMeshes s) ∧
  imageLoads st.1 = imageLoads p ∧
  ∀ j m', thumbnailMeshes st.2 !! j = Some m' →
    ∃ m, thumbnailMeshes s !! j = Some m ∧ userData m' = userData m ∧
         geometry m' = geometry m ∧ material m' = material m.
Proof.
  unfold animate. simpl.
  pose proof (moveMesh_loop ease (basePositions s) (currentPositions s)
                (thumbnailMeshes s)) as Hloop.
  destruct (forEach _ (thumbnailMeshes s) ([], [])) as [ms cur] eqn:E.
  simpl in *. destruct Hloop as [Hlen Hms]. repeat split; done.
Qed.

Lemma animate_consistent ease its p s :
  consistent its s → consistent its (animate ease (p, s)).2.
Proof.
  intros [Hi Hm Hidx Hl Hlab Hb Hbase].
  destruct (animate_spec ease p s)
    as (Ei & El & Eb & _ & _ & _ & _ & _ & _ & _ & _ & Elen & _ & Ems).
  split.
  - by rewrite Ei.
  - by rewrite Elen.
  - intros j m' Hj. destruct (Ems j m' Hj) as (m & Hmj & -> & _). eauto.
  - by rewrite El.
  - rewrite El. done.
  - by rewrite Eb.
  - rewrite Eb. done.
Qed.

Lemma frame_consistent ease its p s :
  consistent its s → consistent its (frame ease (p, s)).2.
Proof.
  intros H. unfold frame. case_decide; [|done].
  by apply animate_consistent.
Qed.

Lemma setMaterial_userData f mat ms j m' :
  setMaterial f mat ms !! j = Some m' →
  ∃ m, ms !! j = Some m ∧ userData m' = userData m.
Proof.
  unfold setMaterial. rewrite list_lookup_fmap.
  destruct (ms !! j) as [m|] eqn:E; [|done]. simpl. intros [= <-].
  exists m. split; [done|]. by case_decide.
Qed.

Lemma withTextures_consistent its f mat ts s :
  consistent its s →
  consistent its (withTextures (setMaterial f mat (thumbnailMeshes s)) ts s).
Proof.
  intros [Hi Hm Hidx Hl Hlab Hb Hbase]. split; simpl; try done.
  - unfold setMaterial. by rewrite length_fmap.
  - intros j m' Hj. destruct (setMaterial_userData _ _ _ _ _ Hj) as (m & Hmj & ->).
    eauto.
Qed.

Lemma settle_consistent ok k its p s :
  consistent its s → consistent its (settle ok k (p, s)).2.
Proof.
  intros H. unfold settle. destruct (imageLoads p !! k) as [r|]; [|done].
  case_decide; [|done]. destruct ok; simpl; by apply withTextures_consistent.
Qed.

Lemma step_consistent e its st :
  consistent its st.2 → consistent its (step e st).2.
Proof.
  destruct st as [p s]. destruct e; unfold step.
  - apply frame_consistent.
  - apply settle_consistent.
  - apply settle_consistent.
Qed.

Lemma run_consistent es its st :
  consistent its st.2 → consistent its (run es st).2.
Proof.
  unfold run. revert st. induction es as [|e es IH]; intros st H; simpl.
  - done.
  - apply IH. by apply step_consistent.
Qed.

(** *** The constructor *)

(** The scene as the constructor leaves it just before the first
    [animate] pass, and the image loads it has issued. *)
Lemma construct_built ease its accent p0 :
  ∃ p s,
    construct ease its accent p0 = animate ease (p, s) ∧
    items s = its ∧
    renderer s = S (S (nextObject p0)) ∧
    pendingFrames p = pendingFrames p0 ∧
    length (thumbnailMeshes s) = length its ∧
    length (basePositions s) = length its ∧
    (∀ j m, thumbnailMeshes s !! j = Some m → index (userData m) = Some j) ∧
    (∀ j, j < length its → basePositions s !! j = spread !! (j `mod` length spread)) ∧
    (∀ j item, its !! j = Some item →
       ∃ m, thumbnailMeshes s !! j = Some m ∧
            mkImageLoad (renderer s) (item_image item) (mat_id (material m)) j
              ∈ imageLoads p) ∧
    labelElements s =
      imap (λ k item, mkLabel (item_title item) ("View " +:+ item_title item) k) its.
Proof.
  unfold construct. cbn [closure create fst snd createStars].
  match goal with
  | |- context [createThumbnails (?p, ?s)] => set (p1 := p); set (s0 := s)
  end.
  unfold createThumbnails. change (items (p1, s0).2) with its.
  pose proof (createThumbnails_spec its p1 s0 eq_refl eq_refl) as Hspec.
  cbv zeta in Hspec.
  destruct (forEach createThumbnail its (p1, s0)) as [p s] eqn:E.
  cbn [fst snd] in Hspec.
  destruct Hspec as (Hi & Hr & Hl & Hf & Hlm & Hlb & Hidx & Hbase & Hreq).
  destruct (createLabels_spec s Hl) as (L1 & L2 & L3 & L4 & L5).
  eexists _, _. split; [reflexivity|].
  cbn [withCanvasClick items renderer thumbnailMeshes basePositions labelElements
       setWindowResize pendingFrames imageLoads].
  rewrite L1, L2, L3, L4, L5, Hi, Hr.
  repeat split; done.
Qed.

Lemma construct_consistent ease its accent p0 :
  consistent its (construct ease its accent p0).2.
Proof.
  destruct (construct_built ease its accent p0)
    as (p & s & -> & Hi & _ & _ & Hlm & Hlb & Hidx & Hbase & _ & Hlab).
  apply animate_consistent. split; try done.
  - by rewrite Hlab, length_imap.
  - intros j b. rewrite Hlab, list_lookup_imap.
    destruct (its !! j) as [item|] eqn:E; [|done]. simpl. intros [= <-]. simpl.
    split; [done|]. by exists item.
Qed.

Lemma reachable_consistent ease its accent p0 es :
  consistent its (run es (construct ease its accent p0)).2.
Proof. apply run_consistent, construct_consistent. Qed.

(** *** [destroy] *)

Lemma removeEventListener_not_elem fn ls : fn ∉ removeEventListener fn ls.
Proof. unfold removeEventListener. rewrite list_elem_of_filter. naive_solver. Qed.

Lemma removeEventListener_idemp fn ls :
  removeEventListener fn (removeEventListener fn ls) = removeEventListener fn ls.
Proof.
  unfold removeEventListener. induction ls as [|g ls IH]; [done|].
  rewrite filter_cons. case_decide.
  - rewrite filter_cons. case_decide; [|done]. by rewrite IH.
  - done.
Qed.

Lemma forEach_disposeMesh ms i p :
  forEach_from disposeMesh ms i p =
    mkPlatform (nextObject p) (undisposed p ∖ list_to_set (meshHandles ms))
               (nextFrame p) (pendingFrames p) (windowResize p) (imageLoads p).
Proof.
  revert i p. induction ms as [|m ms IH]; intros i p; simpl.
  - destruct p; simpl. f_equal. set_solver.
  - rewrite IH. unfold disposeMesh, dispose. simpl. f_equal. set_solver.
Qed.

Lemma forEach_disposeTexture ts i p :
  forEach_from disposeTexture ts i p =
    mkPlatform (nextObject p) (undisposed p ∖ list_to_set (textureHandles ts))
               (nextFrame p) (pendingFrames p) (windowResize p) (imageLoads p).
Proof.
  revert i p. induction ts as [|t ts IH]; intros i p; simpl.
  - destruct p; simpl. f_equal. set_solver.
  - rewrite IH. destruct t as [tex|]; simpl; f_equal; set_solver.
Qed.

(** The whole effect of [destroy] at once. *)
Lemma destroy_eq p s :
  destroy (p, s) =
    (mkPlatform (nextObject p) (undisposed p ∖ list_to_set (owned s))
                (nextFrame p) (pendingFrames p ∖ {[animId s]})
                (removeEventListener (resize s) (windowResize p)) (imageLoads p),
     withCanvasClick (removeEventListener (handleCanvasClick s) (canvasClick s)) s).
Proof.
  unfold destroy, forEach. rewrite forEach_disposeMesh, forEach_disposeTexture.
  simpl. unfold owned.
  destruct (stars s) as [pts|]; unfold dispose; simpl; f_equal; f_equal; set_solver.
Qed.

Lemma destroy_idemp st : destroy (destroy st) = destroy st.
Proof.
  destruct st as [p s]. rewrite !destroy_eq. simpl.
  rewrite !removeEventListener_idemp. f_equal. f_equal; set_solver.
Qed.

Lemma elem_of_meshHandles (ms : list Mesh) m :
  m ∈ ms → geometry m ∈ meshHandles ms ∧ mat_id (material m) ∈ meshHandles ms.
Proof.
  intros Hm. unfold meshHandles.
  split; apply list_elem_of_bind; exists m; (split; [|done]); set_solver.
Qed.

Lemma elem_of_textureHandles (ts : list (option nat)) tex :
  Some tex ∈ ts → tex ∈ textureHandles ts.
Proof.
  intros Ht. unfold textureHandles. apply list_elem_of_bind.
  exists (Some tex). split; [|done]. set_solver.
Qed.

(** *** Frame requests and the star field along a run *)

Lemma settle_frames ok k p s :
  pendingFrames (settle ok k (p, s)).1 = pendingFrames p ∧
  animId (settle ok k (p, s)).2 = animId s ∧
  stars (settle ok k (p, s)).2 = stars s.
Proof.
  unfold settle. destruct (imageLoads p !! k) as [r|]; [|done].
  case_decide; [|done]. by destruct ok.
Qed.

Lemma step_frames e (F : gset nat) st :
  pendingFrames st.1 ⊆ F ∪ {[animId st.2]} →
  pendingFrames (step e st).1 ⊆ F ∪ {[animId (step e st).2]}.
Proof.
  destruct st as [p s]. intros H. simpl in H.
  destruct e as [ease|k|k]; unfold step.
  - unfold frame. case_decide; [|done].
    destruct (animate_spec ease (cancelAnimationFrame (animId s) p) s)
      as (_ & _ & _ & _ & _ & _ & _ & _ & _ & -> & -> & _).
    simpl. set_solver.
  - destruct (settle_frames true k p s) as (-> & -> & _). done.
  - destruct (settle_frames false k p s) as (-> & -> & _). done.
Qed.

Lemma step_stars e st : is_Some (stars st.2) → is_Some (stars (step e st).2).
Proof.
  destruct st as [p s]. simpl.
  destruct e as [ease|k|k]; unfold step.
  - unfold frame. case_decide; [|done].
    destruct (animate_spec ease (cancelAnimationFrame (animId s) p) s)
      as (_ & _ & _ & _ & _ & -> & _). done.
  - destruct (settle_frames true k p s) as (_ & _ & ->). done.
  - destruct (settle_frames false k p s) as (_ & _ & ->). done.
Qed.

Lemma run_frames es (F : gset nat) st :
  pendingFrames st.1 ⊆ F ∪ {[animId st.2]} →
  pendingFrames (run es st).1 ⊆ F ∪ {[animId (run es st).2]}.
Proof.
  unfold run. revert st. induction es as [|e es IH]; intros st H; simpl.
  - done.
  - apply IH. by apply step_frames.
Qed.

Lemma run_stars es st : is_Some (stars st.2) → is_Some (stars (run es st).2).
Proof.
  unfold run. revert st. induction es as [|e es IH]; intros st H; simpl.
  - done.
  - apply IH. by apply step_stars.
Qed.

Lemma construct_frames ease its accent p0 :
  let st := construct ease its accent p0 in
  pendingFrames st.1 ⊆ pendingFrames p0 ∪ {[animId st.2]} ∧ is_Some (stars st.2).
Proof.
  unfold construct. cbn [closure create fst snd createStars].
  match goal with
  | |- context [createThumbnails (?p, ?s)] => set (p1 := p); set (s0 := s)
  end.
  unfold createThumbnails. change (items (p1, s0).2) with its.
  pose proof (createThumbnails_spec its p1 s0 eq_refl eq_refl) as Hspec.
  cbv zeta in Hspec.
  assert (stars (forEach createThumbnail its (p1, s0)).2 = stars s0) as Hst.
  { apply (forEach_invariant (λ _ (st : Platform * ConstellationScene),
                                stars st.2 = stars s0)); [done|].
    intros k a [p s] _ Hs.
    destruct (createThumbnail_eq a k p s) as (b & _ & ->). done. }
  destruct (forEach createThumbnail its (p1, s0)) as [p s] eqn:E.
  cbn [fst snd] in Hspec, Hst.
  destruct Hspec as (_ & _ & Hl & Hf & _).
  match goal with |- context [animate ease (?p', ?s')] =>
    destruct (animate_spec ease p' s')
      as (_ & _ & _ & _ & _ & Es & _ & _ & _ & Ea & Ep & _)
  end.
  cbv zeta. rewrite Ea, Ep, Es.
  cbn [setWindowResize pendingFrames nextFrame withCanvasClick stars].
  rewrite Hf. split; [set_solver|].
  unfold createLabels, forEach.
  assert (∀ l i x, stars (forEach_from createLabel l i x) = stars x) as Hlab.
  { induction l as [|a l IH]; intros i x; simpl; [done|]. by rewrite IH. }
  rewrite Hlab, Hst. done.
Qed.

(** *** Claims about the scene *)

(** C9. Cyclic base layout: in a scene built from any item list, at any
    later time, the base position of the item at index [i] is entry
    [i mod 10] of the ten-entry table [spread]; it is the same for every
    other item list that has an index [i], whatever the items are. *)
Theorem base_position_cyclic ease its accent p0 es i :
  i < length its →
  let s := (run es (construct ease its accent p0)).2 in
  ∃ v, basePositions s !! i = Some v ∧
       spread !! (i `mod` 10) = Some v ∧ length spread = 10 ∧
       ∀ ease' its' accent' p0' es',
         i < length its' →
         basePositions (run es' (construct ease' its' accent' p0')).2 !! i = Some v.
Proof.
  intros Hi s.
  destruct (spread_lookup i) as [v Hv]. rewrite spread_length in Hv.
  exists v. repeat split; try done.
  - subst s. rewrite (cons_base _ _ (reachable_consistent ease its accent p0 es) i Hi).
    by rewrite spread_length.
  - intros ease' its' accent' p0' es' Hi'.
    rewrite (cons_base _ _ (reachable_consistent ease' its' accent' p0' es') i Hi').
    by rewrite spread_length.
Qed.

(** C9 at index 10 of eleven items, after a frame and a loaded texture:
    the position is entry 0 of the table again. *)
Lemma base_position_cyclic_witness :
  10 < length Examples.eleven ∧
  ∃ v, basePositions
         (run [Frame Examples.still; TextureLoaded 0]
              (construct Examples.still Examples.eleven "#8C52FF" emptyPlatform)).2
         !! 10 = Some v ∧
       spread !! (10 `mod` 10) = Some v ∧ length spread = 10 ∧
       ∀ ease' its' accent' p0' es',
         10 < length its' →
         basePositions (run es' (construct ease' its' accent' p0')).2 !! 10 = Some v.
Proof.
  split.
  - simpl. lia.
  - apply (base_position_cyclic Examples.still Examples.eleven "#8C52FF"
             emptyPlatform [Frame Examples.still; TextureLoaded 0] 10).
    simpl. lia.
Defined.

(** C10. Every index the scene hands to [onItemClick] is a valid index
    into its item list. At any time after construction the mesh at
    position [j] stores index [j] and the label at position [j] is bound to
    [j]; so a canvas click, whatever meshes of the scene the ray hits,
    and a click on any label deliver an index below the number of items. *)
Theorem selection_index_valid ease its accent p0 es :
  let s := (run es (construct ease its accent p0)).2 in
  items s = its ∧
  (∀ j m, thumbnailMeshes s !! j = Some m → index (userData m) = Some j) ∧
  (∀ j b, labelElements s !! j = Some b → clickIndex b = j) ∧
  (∀ hits i, (∀ h, h ∈ hits → h ∈ thumbnailMeshes s) →
             canvasClicked hits = Some i → i < length its) ∧
  (∀ k i, labelClicked k s = Some i → i < length its).
Proof.
  intros s.
  destruct (reachable_consistent ease its accent p0 es)
    as [Hi Hm Hidx Hl Hlab Hb Hbase].
  fold s in Hi, Hm, Hidx, Hl, Hlab, Hb, Hbase.
  split; [done|]. split; [done|]. split; [|split].
  - intros j b Hj. by destruct (Hlab j b Hj).
  - intros hits i Hsub Hc. destruct hits as [|hit hits]; [done|]. simpl in Hc.
    assert (hit ∈ thumbnailMeshes s) as Hin by (apply Hsub; left).
    apply list_elem_of_lookup in Hin as [j Hj].
    rewrite (Hidx j hit Hj) in Hc. injection Hc as <-.
    apply lookup_lt_Some in Hj. lia.
  - intros k i Hk. unfold labelClicked in Hk.
    destruct (labelElements s !! k) as [b|] eqn:E; [|done].
    simpl in Hk. injection Hk as <-.
    destruct (Hlab k b E) as [-> _]. apply lookup_lt_Some in E. lia.
Qed.

(** Teardown of a scene at any time after its construction: [destroy]
    cancels the frame request of the animation loop, so that no further
    pass runs and no request of this scene stays pending; removes the
    resize listener from the window and the click listener from the canvas;
    disposes the renderer, the geometry and the material of every mesh (one
    per item), every texture that has loaded, and the geometry and material
    of the star field. A second [destroy] changes nothing. *)
Lemma destroy_after_run ease its accent p0 es :
  let st := run es (construct ease its accent p0) in
  let st' := destroy st in
  ((animId st.2 ∉ pendingFrames st'.1) ∧
   pendingFrames st'.1 ⊆ pendingFrames p0 ∧
   ∀ ease', frame ease' st' = st') ∧
  ((resize st.2 ∉ windowResize st'.1) ∧
   (handleCanvasClick st.2 ∉ canvasClick st'.2)) ∧
  ((renderer st.2 ∉ undisposed st'.1) ∧
   length (thumbnailMeshes st.2) = length its ∧
   (∀ m, m ∈ thumbnailMeshes st.2 →
      (geometry m ∉ undisposed st'.1) ∧ (mat_id (material m) ∉ undisposed st'.1)) ∧
   (∀ tex, Some tex ∈ textures st.2 → tex ∉ undisposed st'.1) ∧
   (∃ pts, stars st.2 = Some pts ∧
      (points_geometry pts ∉ undisposed st'.1) ∧
      (points_material pts ∉ undisposed st'.1))) ∧
  destroy st' = st'.
Proof.
  intros st st'.
  pose proof (reachable_consistent ease its accent p0 es) as Hcons. fold st in Hcons.
  destruct (construct_frames ease its accent p0) as [Hf0 Hs0].
  pose proof (run_frames es _ _ Hf0) as Hf. fold st in Hf.
  pose proof (run_stars es _ Hs0) as [pts Hpts]. fold st in Hpts.
  split; [|split; [|split; [|apply destroy_idemp]]];
    subst st'; destruct st as [p s]; rewrite destroy_eq; simpl in *.
  - split; [set_solver|]. split; [set_solver|].
    intros ease'. unfold frame. simpl. case_decide; [set_solver|done].
  - split; apply removeEventListener_not_elem.
  - split; [unfold owned; set_solver|].
    split; [apply (cons_meshes _ _ Hcons)|].
    split; [|split].
    + intros m Hm. destruct (elem_of_meshHandles _ _ Hm) as [Hg Hmat].
      unfold owned. set_solver.
    + intros tex Ht. apply elem_of_textureHandles in Ht.
      unfold owned. set_solver.
    + exists pts. split; [done|]. unfold owned. rewrite Hpts. simpl. set_solver.
Qed.

(** The scene next to its items: one mesh and one label per item, at the
    item's position; at construction the texture of mesh [j] is requested
    from the image of item [j]. *)
Lemma construct_per_item ease its accent p0 es :
  let st := construct ease its accent p0 in
  let s := (run es st).2 in
  length (thumbnailMeshes s) = length its ∧
  length (labelElements s) = length its ∧
  (∀ j item, its !! j = Some item →
     ∃ m b, thumbnailMeshes s !! j = Some m ∧ index (userData m) = Some j ∧
            labelElements s !! j = Some b ∧
            textContent b = item_title item ∧ clickIndex b = j) ∧
  (∀ j item, its !! j = Some item →
     ∃ m, thumbnailMeshes st.2 !! j = Some m ∧
          mkImageLoad (renderer st.2) (item_image item) (mat_id (material m)) j
            ∈ imageLoads st.1).
Proof.
  intros st s.
  destruct (reachable_consistent ease its accent p0 es)
    as [Hi Hm Hidx Hl Hlab Hb Hbase].
  fold st in Hi, Hm, Hidx, Hl, Hlab, Hb, Hbase.
  fold s in Hi, Hm, Hidx, Hl, Hlab, Hb, Hbase.
  split; [done|]. split; [done|]. split.
  - intros j item Hj. apply lookup_lt_Some in Hj as Hlt.
    destruct (lookup_lt_is_Some_2 (thumbnailMeshes s) j) as [m Hmj]; [lia|].
    destruct (lookup_lt_is_Some_2 (labelElements s) j) as [b Hbj]; [lia|].
    exists m, b. destruct (Hlab j b Hbj) as (Hc & item' & Hj' & Ht).
    rewrite Hj in Hj'. injection Hj' as <-. eauto 10.
  - intros j item Hj. subst st.
    destruct (construct_built ease its accent p0)
      as (p & s1 & -> & _ & _ & _ & Hlm & _ & _ & _ & Hreq & _).
    destruct (animate_spec ease p s1)
      as (_ & _ & _ & -> & _ & _ & _ & _ & _ & _ & _ & Elen & -> & Ems).
    destruct (Hreq j item Hj) as (m & Hmj & Hin).
    apply lookup_lt_Some in Hmj as Hlt.
    destruct (lookup_lt_is_Some_2 (thumbnailMeshes (animate ease (p, s1)).2) j)
      as [m' Hm']; [lia|].
    exists m'. split; [done|].
    destruct (Ems j m' Hm') as (m0 & Hm0 & _ & _ & ->).
    rewrite Hmj in Hm0. by injection Hm0 as <-.
Qed.

(** *** The loops and [animate] in closed form *)

Lemma createLabels_closed l : ∀ i s,
  forEach_from createLabel l i s =
    mkScene (renderer s) (canvasClick s) (thumbnailMeshes s) (textures s) (items s)
            (animId s)
            (labelElements s ++
             imap (λ k item, mkLabel (item_title item) ("View " +:+ item_title item)
                                     (i + k)) l)
            (accentColor s) (stars s) (basePositions s) (currentPositions s)
            (resize s) (handleCanvasClick s).
Proof.
  induction l as [|a l IH]; intros i s; simpl.
  - rewrite app_nil_r. by destruct s.
  - rewrite IH. simpl. f_equal. rewrite <- app_assoc. simpl.
    rewrite Nat.add_0_r. do 2 f_equal.
    apply imap_ext. intros k x _. simpl. f_equal. lia.
Qed.

Lemma animate_eq ease p s :
  ∃ ms cur,
    animate ease (p, s) =
      ((requestAnimationFrame p).2, withMotion ms cur (withAnimId (nextFrame p) s)) ∧
    length ms = length (thumbnailMeshes s) ∧
    ∀ j m', ms !! j = Some m' →
      ∃ m, thumbnailMeshes s !! j = Some m ∧ userData m' = userData m ∧
           geometry m' = geometry m ∧ material m' = material m.
Proof.
  unfold animate. simpl.
  pose proof (moveMesh_loop ease (basePositions s) (currentPositions s)
                (thumbnailMeshes s)) as Hloop.
  destruct (forEach _ (thumbnailMeshes s) ([], [])) as [ms cur] eqn:E.
  simpl in Hloop. destruct Hloop as [Hlen Hms].
  by exists ms, cur.
Qed.

(** Meshes that agree on geometry and material hold the same objects. *)
Lemma meshHandles_pointwise (ms : list Mesh) : ∀ ms' : list Mesh,
  length ms' = length ms →
  (∀ j m', ms' !! j = Some m' →
     ∃ m, ms !! j = Some m ∧ geometry m' = geometry m ∧
          mat_id (material m') = mat_id (material m)) →
  meshHandles ms' = meshHandles ms.
Proof.
  induction ms as [|m ms IH]; intros [|m' ms'] Hlen Hpt; try done.
  unfold meshHandles in *. simpl.
  destruct (Hpt 0 m' eq_refl) as (m0 & [= <-] & -> & ->).
  f_equal. f_equal. apply IH; [simpl in Hlen; lia|].
  intros j x Hj. apply (Hpt (S j) x Hj).
Qed.

Lemma meshHandles_snoc (ms : list Mesh) m :
  meshHandles (ms ++ [m]) = meshHandles ms ++ [geometry m; mat_id (material m)].
Proof. unfold meshHandles. by rewrite bind_app. Qed.

Lemma meshHandles_setMaterial f mat ms :
  (∀ m, mat_id (f m) = mat_id m) →
  meshHandles (setMaterial f mat ms) = meshHandles ms.
Proof.
  intros Hf. apply meshHandles_pointwise.
  - unfold setMaterial. by rewrite length_fmap.
  - intros j m'. unfold setMaterial. rewrite list_lookup_fmap.
    destruct (ms !! j) as [m|]; [|done]. simpl. intros [= <-].
    exists m. split; [done|]. case_decide; simpl; [|done]. by rewrite Hf.
Qed.

(** *** What [createThumbnails] leaves alone, allocates and requests *)

Lemma createThumbnails_frame l p1 s0 :
  thumbnailMeshes s0 = [] → textures s0 = [] →
  let st := forEach createThumbnail l (p1, s0) in
  (renderer st.2 = renderer s0 ∧ stars st.2 = stars s0 ∧
   canvasClick st.2 = canvasClick s0 ∧ resize st.2 = resize s0 ∧
   handleCanvasClick st.2 = handleCanvasClick s0 ∧ animId st.2 = animId s0 ∧
   accentColor st.2 = accentColor s0) ∧
  (nextFrame st.1 = nextFrame p1 ∧ pendingFrames st.1 = pendingFrames p1 ∧
   windowResize st.1 = windowResize p1) ∧
  length (thumbnailMeshes st.2) = length l ∧
  textures st.2 = replicate (length l) None ∧
  (∀ i m, thumbnailMeshes st.2 !! i = Some m → mat_map (material m) = None).
Proof.
  intros Hm Ht.
  apply (forEach_invariant
    (λ k (st : Platform * ConstellationScene),
       (renderer st.2 = renderer s0 ∧ stars st.2 = stars s0 ∧
        canvasClick st.2 = canvasClick s0 ∧ resize st.2 = resize s0 ∧
        handleCanvasClick st.2 = handleCanvasClick s0 ∧ animId st.2 = animId s0 ∧
        accentColor st.2 = accentColor s0) ∧
       (nextFrame st.1 = nextFrame p1 ∧ pendingFrames st.1 = pendingFrames p1 ∧
        windowResize st.1 = windowResize p1) ∧
       length (thumbnailMeshes st.2) = k ∧
       textures st.2 = replicate k None ∧
       (∀ i m, thumbnailMeshes st.2 !! i = Some m → mat_map (material m) = None))).
  - simpl. rewrite Hm, Ht. repeat split; try done.
  - intros k a [p s] _ Hinv.
    destruct (createThumbnail_eq a k p s) as (b & _ & ->).
    simpl in *. destruct Hinv as (Hs & Hp & Hlen & Htex & Hmap).
    split; [done|]. split; [done|]. split; [rewrite length_app; simpl; lia|].
    split; [by rewrite Htex, <- replicate_S_end|].
    intros i m Hi. apply lookup_app_Some in Hi as [Hi|[_ Hi]]; [by eapply Hmap|].
    destruct (i - length (thumbnailMeshes s)) as [|?]; [|done].
    simpl in Hi. by injection Hi as <-.
Qed.

Lemma createThumbnails_resources l p1 s0 :
  thumbnailMeshes s0 = [] →
  let st := forEach createThumbnail l (p1, s0) in
  nextObject p1 ≤ nextObject st.1 ∧
  undisposed st.1 = undisposed p1 ∪ list_to_set (meshHandles (thumbnailMeshes st.2)) ∧
  (∀ h, h ∈ meshHandles (thumbnailMeshes st.2) → nextObject p1 ≤ h < nextObject st.1) ∧
  (∀ j1 j2 m1 m2,
     thumbnailMeshes st.2 !! j1 = Some m1 → thumbnailMeshes st.2 !! j2 = Some m2 →
     mat_id (material m1) = mat_id (material m2) → j1 = j2).
Proof.
  intros Hm.
  apply (forEach_invariant
    (λ (k : nat) (st : Platform * ConstellationScene),
       nextObject p1 ≤ nextObject st.1 ∧
       undisposed st.1
         = undisposed p1 ∪ list_to_set (meshHandles (thumbnailMeshes st.2)) ∧
       (∀ h, h ∈ meshHandles (thumbnailMeshes st.2) →
             nextObject p1 ≤ h < nextObject st.1) ∧
       (∀ j1 j2 m1 m2,
          thumbnailMeshes st.2 !! j1 = Some m1 → thumbnailMeshes st.2 !! j2 = Some m2 →
          mat_id (material m1) = mat_id (material m2) → j1 = j2))).
  - simpl. rewrite Hm. split; [done|]. split; [set_solver|].
    split; [by intros h Hh; apply elem_of_nil in Hh|]. by intros j1 j2 m1 m2 H.
  - intros k a [p s] _ Hinv.
    destruct (createThumbnail_eq a k p s) as (b & _ & ->).
    simpl in *. destruct Hinv as (Hn & Hu & Hr & Hd).
    rewrite meshHandles_snoc. simpl.
    split; [lia|]. split; [rewrite Hu; set_solver|]. split.
    + intros h [Hh|Hh]%elem_of_app.
      * specialize (Hr h Hh). lia.
      * apply elem_of_cons in Hh as [->|Hh]; [lia|].
        apply list_elem_of_singleton in Hh as ->. lia.
    + assert (∀ j m, thumbnailMeshes s !! j = Some m →
                     mat_id (material m) < nextObject p) as Hold.
      { intros j m Hj. apply list_elem_of_lookup_2 in Hj.
        destruct (elem_of_meshHandles _ _ Hj) as [_ Hmat]. by apply Hr. }
      intros j1 j2 m1 m2 H1 H2 Heq.
      apply lookup_app_Some in H1 as [H1|[Hge1 H1]];
        apply lookup_app_Some in H2 as [H2|[Hge2 H2]].
      * by eapply Hd.
      * destruct (j2 - length (thumbnailMeshes s)) as [|?]; [|done].
        simpl in H2. injection H2 as <-. simpl in Heq.
        specialize (Hold _ _ H1). lia.
      * destruct (j1 - length (thumbnailMeshes s)) as [|?]; [|done].
        simpl in H1. injection H1 as <-. simpl in Heq.
        specialize (Hold _ _ H2). lia.
      * destruct (j1 - length (thumbnailMeshes s)) as [|?] eqn:E1; [|done].
        destruct (j2 - length (thumbnailMeshes s)) as [|?] eqn:E2; [|done].
        lia.
Qed.

Lemma createThumbnails_loads l p1 s0 :
  thumbnailMeshes s0 = [] →
  let st := forEach createThumbnail l (p1, s0) in
  ∃ news,
    imageLoads st.1 = imageLoads p1 ++ news ∧
    (∀ r, r ∈ news →
       il_owner r = renderer s0 ∧
       (∃ m, thumbnailMeshes st.2 !! il_index r = Some m ∧
             mat_id (material m) = il_mat r) ∧
       (∃ item, l !! il_index r = Some item ∧ il_src r = item_image item)) ∧
    NoDup (il_index <$> news).
Proof.
  intros Hm.
  enough (renderer (forEach createThumbnail l (p1, s0)).2 = renderer s0 ∧
          length (thumbnailMeshes (forEach createThumbnail l (p1, s0)).2) = length l ∧
          ∃ news,
            imageLoads (forEach createThumbnail l (p1, s0)).1 = imageLoads p1 ++ news ∧
            (∀ r, r ∈ news →
               il_owner r = renderer s0 ∧ il_index r < length l ∧
               (∃ m, thumbnailMeshes (forEach createThumbnail l (p1, s0)).2
                       !! il_index r = Some m ∧
                     mat_id (material m) = il_mat r) ∧
               (∃ item, l !! il_index r = Some item ∧ il_src r = item_image item)) ∧
            NoDup (il_index <$> news)) as (_ & _ & news & H1 & H2 & H3).
  { exists news. split; [done|]. split; [|done].
    intros r Hr. destruct (H2 r Hr) as (? & _ & ? & ?). done. }
  apply (forEach_invariant
    (λ (k : nat) (st : Platform * ConstellationScene),
       renderer st.2 = renderer s0 ∧
       length (thumbnailMeshes st.2) = k ∧
       ∃ news,
         imageLoads st.1 = imageLoads p1 ++ news ∧
         (∀ r, r ∈ news →
            il_owner r = renderer s0 ∧ il_index r < k ∧
            (∃ m, thumbnailMeshes st.2 !! il_index r = Some m ∧
                  mat_id (material m) = il_mat r) ∧
            (∃ item, l !! il_index r = Some item ∧ il_src r = item_image item)) ∧
         NoDup (il_index <$> news))).
  - simpl. rewrite Hm. split; [done|]. split; [done|]. exists [].
    rewrite app_nil_r. split; [done|]. split; [|constructor].
    by intros r Hr; apply elem_of_nil in Hr.
  - intros k a [p s] Hka Hinv.
    destruct (createThumbnail_eq a k p s) as (b & _ & ->).
    simpl in *. destruct Hinv as (Hr & Hlen & news & Hl & Hnews & Hnd).
    split; [done|]. split; [rewrite length_app; simpl; lia|].
    exists (news ++ [mkImageLoad (renderer s) (item_image a) (S (nextObject p)) k]).
    split; [by rewrite Hl, app_assoc|]. split.
    + intros r [Hin|Hin]%elem_of_app.
      * destruct (Hnews r Hin) as (Ho & Hlt & (m & Hmi & Hmat) & Hsrc).
        split; [done|]. split; [lia|]. split; [|done]. exists m. split; [|done].
        by apply lookup_app_l_Some.
      * apply list_elem_of_singleton in Hin as ->. simpl.
        split; [done|]. split; [lia|]. split; [|by exists a].
        eexists. split.
        { rewrite lookup_app_r by lia. by rewrite Hlen, Nat.sub_diag. }
        done.
    + rewrite fmap_app. apply NoDup_app. split; [done|]. split; [|apply NoDup_singleton].
      intros i [r [-> Hin]]%list_elem_of_fmap. simpl.
      destruct (Hnews r Hin) as (_ & Hlt & _). rewrite list_elem_of_singleton. lia.
Qed.

(** *** The books of a scene *)

(** Taking one load out of the list of those in flight. *)
Lemma ownLoads_delete p s k r :
  imageLoads p !! k = Some r →
  ∃ l1 l2,
    filter (λ r, il_owner r = renderer s) (delete k (imageLoads p)) = l1 ++ l2 ∧
    ownLoads p s = l1 ++ (if decide (il_owner r = renderer s) then [r] else []) ++ l2.
Proof.
  intros Hk. unfold ownLoads.
  exists (filter (λ r, il_owner r = renderer s) (take k (imageLoads p))),
         (filter (λ r, il_owner r = renderer s) (drop (S k) (imageLoads p))).
  split; [by rewrite delete_take_drop, filter_app|].
  transitivity (filter (λ r, il_owner r = renderer s)
                  (take k (imageLoads p) ++ r :: drop (S k) (imageLoads p)));
    [by rewrite take_drop_middle|].
  rewrite filter_app, filter_cons. by case_decide.
Qed.

Lemma NoDup_fmap_middle {A B : Type} (f : A → B) l1 (x : A) l2 :
  NoDup (f <$> (l1 ++ [x] ++ l2)) →
  NoDup (f <$> (l1 ++ l2)) ∧ ∀ y, y ∈ l1 ++ l2 → f y ≠ f x.
Proof.
  rewrite !fmap_app. simpl. rewrite !NoDup_app, NoDup_cons.
  intros (H1 & H12 & Hx & H2). split.
  - split; [done|]. split; [|done].
    intros z Hz Hz2. apply (H12 z Hz). by right.
  - intros y [Hy|Hy]%elem_of_app Heq.
    + apply (H12 (f y)); [by apply list_elem_of_fmap_2|]. rewrite Heq. by left.
    + apply Hx. rewrite <- Heq. by apply list_elem_of_fmap_2.
Qed.

Lemma textureHandles_insert (ts : list (option nat)) i tex :
  ts !! i = Some None →
  list_to_set (textureHandles (<[i := Some tex]> ts))
    =@{gset nat} {[tex]} ∪ list_to_set (textureHandles ts).
Proof.
  revert i. induction ts as [|t ts IH]; intros [|i] Hi; try done; simpl in *.
  - injection Hi as ->. unfold textureHandles. simpl. set_solver.
  - unfold textureHandles in *. simpl. rewrite !list_to_set_app_L, (IH i Hi).
    set_solver.
Qed.

Lemma owned_in_range p0 st :
  wired p0 st → nextObject p0 ≤ nextObject st.1.
Proof.
  intros Hw. pose proof (wired_new _ _ Hw (renderer st.2)) as H.
  unfold owned in H. specialize (H ltac:(left)). lia.
Qed.

Lemma wired_animate p0 ease p s :
  wired p0 (p, s) → wired p0 (animate ease (p, s)).
Proof.
  intros [Hu Hn Hm Hmap Hl Hd Hsrc].
  destruct (animate_eq ease p s) as (ms & cur & -> & Hlen & Hpt). simpl in *.
  assert (meshHandles ms = meshHandles (thumbnailMeshes s)) as Hh.
  { apply meshHandles_pointwise; [done|]. intros j m' Hj.
    destruct (Hpt j m' Hj) as (m & ? & _ & ? & ->). eauto. }
  split; simpl; unfold owned, ownLoads in *; simpl; rewrite ?Hh; try done.
  - intros j1 j2 m1 m2 H1 H2.
    destruct (Hpt j1 m1 H1) as (n1 & Hn1 & _ & _ & ->).
    destruct (Hpt j2 m2 H2) as (n2 & Hn2 & _ & _ & ->). by eapply Hm.
  - intros i m' Hi. destruct (Hpt i m' Hi) as (m & Hmi & _ & _ & ->). by apply Hmap.
  - intros r Hr. destruct (Hl r Hr) as (m & Hmi & Hmat & Hnone).
    destruct (lookup_lt_is_Some_2 ms (il_index r)) as [m' Hm'].
    { rewrite Hlen. by eapply lookup_lt_Some. }
    exists m'. split; [done|].
    destruct (Hpt _ m' Hm') as (m0 & Hm0 & _ & _ & ->).
    rewrite Hmi in Hm0. by injection Hm0 as <-.
Qed.

Lemma setMaterial_lookup f mat ms j :
  setMaterial f mat ms !! j =
    (λ m, if decide (mat_id (material m) = mat)
          then mkMesh (position m) (userData m) (geometry m) (f (material m))
          else m) <$> ms !! j.
Proof. unfold setMaterial. apply list_lookup_fmap. Qed.

Lemma setMaterial_inv f mat ms j m' :
  (∀ m, mat_id (f m) = mat_id m) →
  setMaterial f mat ms !! j = Some m' →
  ∃ m, ms !! j = Some m ∧ mat_id (material m') = mat_id (material m) ∧
       geometry m' = geometry m ∧ userData m' = userData m ∧
       position m' = position m ∧
       material m' = if decide (mat_id (material m) = mat)
                     then f (material m) else material m.
Proof.
  intros Hf. rewrite setMaterial_lookup.
  destruct (ms !! j) as [m|]; [|done]. simpl. intros [= <-].
  exists m. split; [done|]. case_decide; simpl; by rewrite ?Hf.
Qed.

Lemma wired_onLoad p0 p s r :
  wired p0 (p, s) → r ∈ ownLoads p s →
  ∀ p', nextObject p' = nextObject p → undisposed p' = undisposed p →
        (∀ r', r' ∈ ownLoads p' s → r' ∈ ownLoads p s ∧ il_index r' ≠ il_index r) →
        NoDup (il_index <$> ownLoads p' s) →
        wired p0 (onLoad (il_mat r) (il_index r) (p', s)).
Proof.
  intros Hw Hr p' Hno Hun Hsub Hnd.
  pose proof (owned_in_range _ _ Hw) as Hge.
  destruct Hw as [Hu Hn Hm Hmap Hl Hd Hsrc]. simpl in *.
  destruct (Hl r Hr) as (m & Hmi & Hmat & Hnone).
  pose proof (Hmap _ _ Hmi) as Hslot. rewrite Hnone in Hslot.
  unfold onLoad. cbn [create fst snd].
  set (f := λ m0, mkMaterial (mat_id m0) (Some (nextObject p')) (mat_color m0)).
  assert (∀ m0, mat_id (f m0) = mat_id m0) as Hf by done.
  match goal with |- wired _ (?P, ?S) => set (s' := S); set (p'' := P) end.
  assert (list_to_set (owned s') =@{gset nat} {[nextObject p']} ∪ list_to_set (owned s))
    as Hos.
  { unfold owned. subst s'. simpl. rewrite (meshHandles_setMaterial f) by done.
    rewrite !list_to_set_app_L, (textureHandles_insert _ _ _ Hslot).
    set_solver. }
  split; cbn [fst snd].
  - rewrite Hos. subst p''. simpl. rewrite Hun, Hu. set_solver.
  - intros h Hh. apply (elem_of_list_to_set (C := gset nat)) in Hh.
    rewrite Hos in Hh. subst p''. simpl. apply elem_of_union in Hh as [Hh|Hh].
    + apply elem_of_singleton in Hh as ->. lia.
    + apply elem_of_list_to_set in Hh. specialize (Hn h Hh). lia.
  - subst s'. simpl. intros j1 j2 m1 m2 H1 H2 Heq.
    destruct (setMaterial_inv f _ _ _ _ Hf H1) as (n1 & Hn1 & E1 & _).
    destruct (setMaterial_inv f _ _ _ _ Hf H2) as (n2 & Hn2 & E2 & _).
    apply (Hm j1 j2 n1 n2 Hn1 Hn2). congruence.
  - subst s'. simpl. intros i m' Hi.
    destruct (setMaterial_inv f _ _ _ _ Hf Hi) as (m0 & Hm0 & _ & _ & _ & _ & Emat).
    rewrite Emat. case_decide as Hdec.
    + assert (i = il_index r) as -> by (apply (Hm _ _ _ _ Hm0 Hmi); congruence).
      rewrite list_lookup_insert_eq by (by eapply lookup_lt_Some). done.
    + rewrite list_lookup_insert_ne; [by apply Hmap|].
      intros <-. rewrite Hmi in Hm0. injection Hm0 as <-. done.
  - intros r' Hr'. destruct (Hsub r' Hr') as [Hin Hne].
    destruct (Hl r' Hin) as (m1 & Hm1 & Hmat1 & Hnone1).
    subst s'. simpl. rewrite setMaterial_lookup, Hm1. simpl.
    rewrite decide_False.
    { by exists m1. }
    intros Heq. apply Hne. apply (Hm _ _ _ _ Hm1 Hmi). congruence.
  - done.
  - intros r' Hr'. apply Hsrc. by apply Hsub.
Qed.

Lemma wired_onError p0 p s mat :
  wired p0 (p, s) →
  ∀ p', nextObject p' = nextObject p → undisposed p' = undisposed p →
        (∀ r', r' ∈ ownLoads p' s → r' ∈ ownLoads p s) →
        NoDup (il_index <$> ownLoads p' s) →
        wired p0 (onError mat (p', s)).
Proof.
  intros Hw p' Hno Hun Hsub Hnd.
  destruct Hw as [Hu Hn Hm Hmap Hl Hd Hsrc]. simpl in *.
  unfold onError.
  set (f := λ m0, mkMaterial (mat_id m0) (mat_map m0)
                             (ColorSet (accentColor s) (mat_color m0))).
  assert (∀ m0, mat_id (f m0) = mat_id m0) as Hf by done.
  assert (∀ j m', setMaterial f mat (thumbnailMeshes s) !! j = Some m' →
            ∃ m, thumbnailMeshes s !! j = Some m ∧
                 mat_id (material m') = mat_id (material m) ∧
                 mat_map (material m') = mat_map (material m)) as Hinv.
  { intros j m' Hj.
    destruct (setMaterial_inv f _ _ _ _ Hf Hj) as (m & ? & ? & _ & _ & _ & Emat).
    exists m. split; [done|]. split; [done|]. rewrite Emat. by case_decide. }
  split; simpl; unfold owned; simpl; rewrite ?(meshHandles_setMaterial f) by done.
  - by rewrite Hun.
  - intros h Hh. rewrite Hno. by apply Hn.
  - intros j1 j2 m1 m2 H1 H2 Heq.
    destruct (Hinv _ _ H1) as (n1 & Hn1 & E1 & _).
    destruct (Hinv _ _ H2) as (n2 & Hn2 & E2 & _).
    apply (Hm j1 j2 n1 n2 Hn1 Hn2). congruence.
  - intros i m' Hi. destruct (Hinv _ _ Hi) as (m & Hmi & _ & ->). by apply Hmap.
  - intros r' Hr'. destruct (Hl r' (Hsub r' Hr')) as (m1 & Hm1 & Hmat1 & Hnone1).
    destruct (lookup_lt_is_Some_2 (setMaterial f mat (thumbnailMeshes s)) (il_index r'))
      as [m' Hm'].
    { unfold setMaterial. rewrite length_fmap. by eapply lookup_lt_Some. }
    destruct (Hinv _ _ Hm') as (m0 & Hm0 & E1 & E2).
    rewrite Hm1 in Hm0. injection Hm0 as <-.
    exists m'. split; [done|]. split; congruence.
  - done.
  - intros r' Hr'. apply Hsrc. by apply Hsub.
Qed.

Lemma wired_settle p0 ok k p s :
  wired p0 (p, s) → wired p0 (settle ok k (p, s)).
Proof.
  intros Hw. unfold settle.
  destruct (imageLoads p !! k) as [r|] eqn:Ek; [|done].
  destruct (ownLoads_delete p s k r Ek) as (l1 & l2 & Hdel & Hown).
  pose proof (wired_distinct _ _ Hw) as Hd. simpl in Hd.
  case_decide as Ho.
  - rewrite Hown in Hd.
    destruct (NoDup_fmap_middle _ _ _ _ Hd) as [Hd' Hne].
    assert (r ∈ ownLoads p s) as Hr by (rewrite Hown; set_solver).
    destruct ok.
    + apply (wired_onLoad p0 p s r Hw Hr); try done.
      * intros r'. unfold ownLoads at 1. simpl. rewrite Hdel. intros Hr'.
        split; [rewrite Hown; set_solver|]. by apply Hne.
      * unfold ownLoads. simpl. by rewrite Hdel.
    + apply (wired_onError p0 p s (il_mat r) Hw); try done.
      * intros r'. unfold ownLoads at 1. simpl. rewrite Hdel. intros Hr'.
        rewrite Hown. set_solver.
      * unfold ownLoads. simpl. by rewrite Hdel.
  - simpl in Hown.
    destruct Hw as [Hu Hn Hm Hmap Hl Hd0 Hsrc]. simpl in *.
    split; simpl; try done; unfold ownLoads; simpl; rewrite Hdel, <- Hown; done.
Qed.

Lemma filter_all {A : Type} (P : A → Prop) `{!∀ x, Decision (P x)} (l : list A) :
  (∀ x, x ∈ l → P x) → filter P l = l.
Proof.
  induction l as [|x l IH]; intros Hall; [done|].
  rewrite filter_cons_True by (apply Hall; left). f_equal. apply IH.
  intros y Hy. apply Hall. by right.
Qed.

Lemma filter_none {A : Type} (P : A → Prop) `{!∀ x, Decision (P x)} (l : list A) :
  (∀ x, x ∈ l → ¬ P x) → filter P l = [].
Proof.
  induction l as [|x l IH]; intros Hall; [done|].
  rewrite filter_cons_False by (apply Hall; left). apply IH.
  intros y Hy. apply Hall. by right.
Qed.

Lemma textureHandles_replicate n : textureHandles (replicate n None) = [].
Proof. unfold textureHandles. induction n as [|n IH]; [done|]. simpl. exact IH. Qed.

(** The constructor opens the books. *)
Lemma construct_wired ease its accent p0 :
  wfPlatform p0 → wired p0 (construct ease its accent p0).
Proof.
  intros [Hwo Hwf Hwl].
  unfold construct. cbn [closure create fst snd createStars].
  match goal with
  | |- context [createThumbnails (?p, ?s)] => set (p1 := p); set (s0 := s)
  end.
  unfold createThumbnails. change (items (p1, s0).2) with its.
  pose proof (createThumbnails_frame its p1 s0 eq_refl eq_refl) as HA.
  pose proof (createThumbnails_resources its p1 s0 eq_refl) as HB.
  pose proof (createThumbnails_loads its p1 s0 eq_refl) as HC.
  pose proof (createThumbnails_spec its p1 s0 eq_refl eq_refl) as HD.
  cbv zeta in HA, HB, HC, HD.
  destruct (forEach createThumbnail its (p1, s0)) as [p s] eqn:E.
  cbn [fst snd] in HA, HB, HC, HD. destruct HD as (Hits & _).
  destruct HA as ((Hr & Hst & Hcc & Hrs & Hhc & Hai & Hac) & (Hnf & Hpf & Hwr)
                  & Hlen & Htex & Hnone).
  destruct HB as (Hge & Hun & Hrange & Hdist).
  destruct HC as (news & Hloads & Hnews & Hnd).
  unfold createLabels, forEach. rewrite createLabels_closed.
  apply wired_animate.
  assert (filter (λ r, il_owner r = renderer s) (imageLoads p) = news) as Hown.
  { rewrite Hloads, filter_app, filter_none, filter_all; [done| |].
    - intros r Hin. destruct (Hnews r Hin) as [-> _]. by rewrite Hr.
    - intros r Hin Ho. specialize (Hwl r Hin). rewrite Hr in Ho.
      subst s0. simpl in Ho. lia. }
  split; cbn [fst snd]; unfold owned, ownLoads;
    cbn [withCanvasClick setWindowResize renderer thumbnailMeshes textures stars
         undisposed nextObject imageLoads items].
  - rewrite Hun, Htex, textureHandles_replicate, Hr, Hst. subst p1 s0. simpl.
    set_solver.
  - rewrite Htex, textureHandles_replicate, Hr, Hst. subst p1 s0. simpl in *.
    intros h [->|Hh]%elem_of_cons; [lia|].
    apply elem_of_app in Hh as [Hh|Hh]; [specialize (Hrange h Hh); lia|].
    apply elem_of_cons in Hh as [->|Hh]; [lia|].
    apply list_elem_of_singleton in Hh as ->. lia.
  - done.
  - intros i m Hi. rewrite Htex. rewrite (Hnone i m Hi).
    apply lookup_replicate_2. rewrite <- Hlen. by eapply lookup_lt_Some.
  - rewrite Hown. intros r Hin. destruct (Hnews r Hin) as (_ & (m & Hm & Hmat) & _).
    exists m. split; [done|]. split; [done|]. by eapply Hnone.
  - by rewrite Hown.
  - rewrite Hown, Hits. intros r Hin. by destruct (Hnews r Hin) as (_ & _ & Hsrc).
Qed.

Lemma wired_frame p0 ease p s : wired p0 (p, s) → wired p0 (frame ease (p, s)).
Proof.
  intros Hw. unfold frame. case_decide; [|done].
  apply wired_animate. by destruct Hw.
Qed.

Lemma wired_step p0 e st : wired p0 st → wired p0 (step e st).
Proof.
  destruct st as [p s]. destruct e; unfold step.
  - apply wired_frame.
  - apply wired_settle.
  - apply wired_settle.
Qed.

Lemma wired_run p0 es st : wired p0 st → wired p0 (run es st).
Proof.
  unfold run. revert st. induction es as [|e es IH]; intros st H; simpl; [done|].
  apply IH. by apply wired_step.
Qed.

(** *** The schedule of a scene *)

Lemma addEventListener_elem fn ls : fn ∈ addEventListener fn ls.
Proof. unfold addEventListener. case_decide; [done|]. set_solver. Qed.

Lemma construct_scheduled ease its accent p0 :
  scheduled p0 (construct ease its accent p0).
Proof.
  unfold construct. cbn [closure create fst snd createStars].
  match goal with
  | |- context [createThumbnails (?p, ?s)] => set (p1 := p); set (s0 := s)
  end.
  unfold createThumbnails. change (items (p1, s0).2) with its.
  pose proof (createThumbnails_frame its p1 s0 eq_refl eq_refl) as HA.
  cbv zeta in HA.
  destruct (forEach createThumbnail its (p1, s0)) as [p s] eqn:E.
  cbn [fst snd] in HA.
  destruct HA as ((Hr & Hst & Hcc & Hrs & Hhc & Hai & Hac) & (Hnf & Hpf & Hwr) & _).
  unfold createLabels, forEach. rewrite createLabels_closed.
  match goal with
  | |- scheduled _ (animate _ (?p', ?s')) =>
      destruct (animate_eq ease p' s') as (ms & cur & -> & _)
  end.
  split; cbn [fst snd]; simpl.
  - rewrite Hnf, Hpf. subst p1. simpl. set_solver.
  - rewrite Hnf. subst p1. simpl. lia.
  - rewrite Hrs. by subst s0.
  - rewrite Hwr. by subst p1.
  - by rewrite Hcc, Hhc.
Qed.

Lemma settle_schedule ok k p s :
  let st := settle ok k (p, s) in
  pendingFrames st.1 = pendingFrames p ∧ nextFrame st.1 = nextFrame p ∧
  windowResize st.1 = windowResize p ∧ animId st.2 = animId s ∧
  resize st.2 = resize s ∧ canvasClick st.2 = canvasClick s ∧
  handleCanvasClick st.2 = handleCanvasClick s ∧ nextObject p ≤ nextObject st.1.
Proof.
  unfold settle. destruct (imageLoads p !! k) as [r|]; [|done].
  case_decide; [|done]. destruct ok; simpl; repeat split; try done; lia.
Qed.

Lemma scheduled_step p0 e st :
  wfPlatform p0 → scheduled p0 st → scheduled p0 (step e st).
Proof.
  intros Hwf [Hf Hn Hr Hw Hc]. destruct st as [p s]. simpl in *.
  assert (animId s ∉ pendingFrames p0) as Hnew.
  { intros Hin. apply (wf_frames _ Hwf) in Hin. lia. }
  destruct e as [ease|k|k]; unfold step.
  - unfold frame. rewrite decide_True by (rewrite Hf; set_solver).
    destruct (animate_eq ease (cancelAnimationFrame (animId s) p) s)
      as (ms & cur & -> & _).
    split; simpl; try done; [rewrite Hf; set_solver | lia].
  - destruct (settle_schedule true k p s) as (E1 & E2 & E3 & E4 & E5 & E6 & E7 & _).
    split; rewrite ?E1, ?E2, ?E3, ?E4, ?E5, ?E6, ?E7; done.
  - destruct (settle_schedule false k p s) as (E1 & E2 & E3 & E4 & E5 & E6 & E7 & _).
    split; rewrite ?E1, ?E2, ?E3, ?E4, ?E5, ?E6, ?E7; done.
Qed.

Lemma scheduled_run p0 es st :
  wfPlatform p0 → scheduled p0 st → scheduled p0 (run es st).
Proof.
  intros Hwf. unfold run. revert st.
  induction es as [|e es IH]; intros st H; simpl; [done|].
  apply IH. by apply scheduled_step.
Qed.

Lemma emptyPlatform_wf : wfPlatform emptyPlatform.
Proof. split; simpl; intros x Hx; set_solver. Qed.

(** *** Teardown, the animation loop and the texture callbacks *)

Lemma removeEventListener_added fn ls :
  fn ∉ ls → removeEventListener fn (addEventListener fn ls) = ls.
Proof.
  intros Hn. unfold addEventListener. rewrite decide_False by done.
  unfold removeEventListener. rewrite filter_app. simpl.
  rewrite filter_all by (intros x Hx ->; done).
  rewrite filter_cons_False by (intros H; by apply H). by rewrite app_nil_r.
Qed.

Lemma settle_own ok k p s r :
  imageLoads p !! k = Some r → il_owner r = renderer s →
  settle ok k (p, s) =
    if ok
    then onLoad (il_mat r) (il_index r) (setImageLoads (delete k (imageLoads p)) p, s)
    else onError (il_mat r) (setImageLoads (delete k (imageLoads p)) p, s).
Proof. intros Hk Ho. unfold settle. rewrite Hk. by rewrite decide_True. Qed.

(** With a material of its own for every mesh, [setMaterial] rewrites the
    one mesh that has the material and no other. *)
Lemma setMaterial_only f mat (ms : list Mesh) i m :
  (∀ j1 j2 m1 m2, ms !! j1 = Some m1 → ms !! j2 = Some m2 →
                  mat_id (material m1) = mat_id (material m2) → j1 = j2) →
  ms !! i = Some m → mat_id (material m) = mat →
  setMaterial f mat ms !! i
    = Some (mkMesh (position m) (userData m) (geometry m) (f (material m))) ∧
  ∀ j, j ≠ i → setMaterial f mat ms !! j = ms !! j.
Proof.
  intros Hd Hi Hmat. split.
  - rewrite setMaterial_lookup, Hi. simpl. by rewrite decide_True.
  - intros j Hj. rewrite setMaterial_lookup.
    destruct (ms !! j) as [m0|] eqn:E; [|done]. simpl.
    rewrite decide_False; [done|]. intros Heq. apply Hj.
    apply (Hd _ _ _ _ E Hi). congruence.
Qed.

Lemma step_accent e st : accentColor (step e st).2 = accentColor st.2.
Proof.
  destruct st as [p s]. destruct e as [ease|k|k]; unfold step.
  - unfold frame. case_decide; [|done].
    by destruct (animate_eq ease (cancelAnimationFrame (animId s) p) s)
      as (ms & cur & -> & _).
  - unfold settle. destruct (imageLoads p !! k); [|done]. by case_decide.
  - unfold settle. destruct (imageLoads p !! k); [|done]. by case_decide.
Qed.

Lemma run_accent es st : accentColor (run es st).2 = accentColor st.2.
Proof.
  unfold run. revert st. induction es as [|e es IH]; intros st; simpl; [done|].
  by rewrite IH, step_accent.
Qed.

Lemma construct_accent ease its accent p0 :
  accentColor (construct ease its accent p0).2 = accent.
Proof.
  unfold construct. cbn [closure create fst snd createStars].
  match goal with
  | |- context [createThumbnails (?p, ?s)] => set (p1 := p); set (s0 := s)
  end.
  unfold createThumbnails. change (items (p1, s0).2) with its.
  pose proof (createThumbnails_frame its p1 s0 eq_refl eq_refl) as HA.
  cbv zeta in HA.
  destruct (forEach createThumbnail its (p1, s0)) as [p s] eqn:E.
  cbn [fst snd] in HA.
  destruct HA as ((_ & _ & _ & _ & _ & _ & Hac) & _).
  unfold createLabels, forEach. rewrite createLabels_closed.
  match goal with
  | |- context [animate _ (?p', ?s')] =>
      destruct (animate_eq ease p' s') as (ms & cur & -> & _)
  end.
  simpl. by rewrite Hac.
Qed.

(** Teardown gives the platform back. A scene is built on a platform,
    frames run and images arrive or fail in any order, and the scene is
    destroyed: the objects not disposed, the frame requests pending and
    the resize listeners of the window are exactly those from before the
    construction, and the canvas has no click listener left. In between,
    the objects not disposed are those from before plus those the scene
    holds. *)
Theorem teardown_restores_platform ease its accent p0 es :
  wfPlatform p0 →
  let st := run es (construct ease its accent p0) in
  undisposed st.1 = undisposed p0 ∪ list_to_set (owned st.2) ∧
  undisposed (destroy st).1 = undisposed p0 ∧
  pendingFrames (destroy st).1 = pendingFrames p0 ∧
  windowResize (destroy st).1 = windowResize p0 ∧
  canvasClick (destroy st).2 = [].
Proof.
  intros Hwf st.
  pose proof (wired_run p0 es _ (construct_wired ease its accent p0 Hwf)) as Hw.
  pose proof (scheduled_run p0 es _ Hwf (construct_scheduled ease its accent p0)) as Hs.
  fold st in Hw, Hs. destruct st as [p s].
  destruct Hw as [Hu Hn _ _ _ _ _]. destruct Hs as [Hf Hfn Hr Hwin Hc].
  rewrite destroy_eq. cbn [fst snd undisposed pendingFrames windowResize canvasClick
                           withCanvasClick] in *.
  split; [done|]. split; [|split; [|split]].
  - rewrite Hu. apply set_eq. intros h. rewrite elem_of_difference, elem_of_union.
    split; [naive_solver|]. intros Hh. split; [by left|].
    intros Hin%elem_of_list_to_set. apply Hn in Hin.
    apply (wf_objects _ Hwf) in Hh. lia.
  - rewrite Hf. apply set_eq. intros f.
    rewrite elem_of_difference, elem_of_union, elem_of_singleton.
    split; [naive_solver|]. intros Hin. split; [by left|].
    intros ->. apply (wf_frames _ Hwf) in Hin. lia.
  - rewrite Hwin. apply removeEventListener_added.
    intros Hin. apply (wf_resize _ Hwf) in Hin. lia.
  - rewrite Hc. unfold removeEventListener.
    by rewrite filter_cons_False by (intros H; by apply H).
Qed.

Lemma teardown_restores_platform_witness :
  wfPlatform emptyPlatform ∧
  let st := run [Frame Examples.still; TextureLoaded 1; TextureFailed 0; TextureLoaded 0]
                (construct Examples.still Examples.three "#8C52FF" emptyPlatform) in
  undisposed st.1 = undisposed emptyPlatform ∪ list_to_set (owned st.2) ∧
  undisposed (destroy st).1 = undisposed emptyPlatform ∧
  pendingFrames (destroy st).1 = pendingFrames emptyPlatform ∧
  windowResize (destroy st).1 = windowResize emptyPlatform ∧
  canvasClick (destroy st).2 = [].
Proof.
  split; [exact emptyPlatform_wf|].
  apply (teardown_restores_platform Examples.still Examples.three "#8C52FF"
           emptyPlatform
           [Frame Examples.still; TextureLoaded 1; TextureFailed 0; TextureLoaded 0]).
  exact emptyPlatform_wf.
Defined.

(** The animation loop. At any time between the construction of a scene
    and its teardown exactly one frame request of the scene is pending,
    the one stored in [animId]: a frame that runs is replaced by the next
    one, and nothing else requests or cancels a frame. All along, the
    resize listener is registered with the window and the click listener
    with the canvas. *)
Theorem animation_loop_keeps_one_request ease its accent p0 es :
  wfPlatform p0 →
  let st := run es (construct ease its accent p0) in
  pendingFrames st.1 = pendingFrames p0 ∪ {[animId st.2]} ∧
  (animId st.2 ∉ pendingFrames p0) ∧
  resize st.2 ∈ windowResize st.1 ∧
  handleCanvasClick st.2 ∈ canvasClick st.2 ∧
  ∀ ease',
    pendingFrames (frame ease' st).1 = pendingFrames p0 ∪ {[animId (frame ease' st).2]} ∧
    animId (frame ease' st).2 = nextFrame st.1.
Proof.
  intros Hwf st.
  pose proof (scheduled_run p0 es _ Hwf (construct_scheduled ease its accent p0)) as Hs.
  fold st in Hs.
  assert (∀ st0, scheduled p0 st0 → animId st0.2 ∉ pendingFrames p0) as Hnew.
  { intros st0 [_ Hfn _ _ _] Hin. apply (wf_frames _ Hwf) in Hin. lia. }
  split; [apply (sched_frames _ _ Hs)|]. split; [by apply Hnew|].
  split; [rewrite (sched_window _ _ Hs); apply addEventListener_elem|].
  split; [rewrite (sched_click _ _ Hs); by left|].
  intros ease'.
  pose proof (scheduled_step p0 (Frame ease') st Hwf Hs) as Hs'.
  split; [apply (sched_frames _ _ Hs')|].
  pose proof (sched_frames _ _ Hs) as Hf.
  destruct st as [p s]. cbn [fst snd] in *. unfold frame.
  rewrite decide_True by (rewrite Hf; set_solver).
  by destruct (animate_eq ease' (cancelAnimationFrame (animId s) p) s)
    as (ms & cur & -> & _).
Qed.

Lemma animation_loop_keeps_one_request_witness :
  wfPlatform emptyPlatform ∧
  let st := run [Frame Examples.still; TextureLoaded 0; Frame Examples.still]
                (construct Examples.still Examples.three "#8C52FF" emptyPlatform) in
  pendingFrames st.1 = pendingFrames emptyPlatform ∪ {[animId st.2]} ∧
  (animId st.2 ∉ pendingFrames emptyPlatform) ∧
  resize st.2 ∈ windowResize st.1 ∧
  handleCanvasClick st.2 ∈ canvasClick st.2 ∧
  ∀ ease',
    pendingFrames (frame ease' st).1
      = pendingFrames emptyPlatform ∪ {[animId (frame ease' st).2]} ∧
    animId (frame ease' st).2 = nextFrame st.1.
Proof.
  split; [exact emptyPlatform_wf|].
  apply (animation_loop_keeps_one_request Examples.still Examples.three "#8C52FF"
           emptyPlatform [Frame Examples.still; TextureLoaded 0; Frame Examples.still]).
  exact emptyPlatform_wf.
Defined.

(** What the books say about a load of the scene that is in flight. *)
Lemma own_load p0 st k r :
  wired p0 st → imageLoads st.1 !! k = Some r → il_owner r = renderer st.2 →
  ∃ m, thumbnailMeshes st.2 !! il_index r = Some m ∧
       mat_id (material m) = il_mat r ∧ mat_map (material m) = None ∧
       textures st.2 !! il_index r = Some None ∧
       ∃ item, items st.2 !! il_index r = Some item ∧ il_src r = item_image item.
Proof.
  intros Hw Hk Ho.
  assert (r ∈ ownLoads st.1 st.2) as Hr.
  { unfold ownLoads. apply list_elem_of_filter. split; [done|].
    by eapply list_elem_of_lookup_2. }
  destruct (wired_loads _ _ Hw r Hr) as (m & Hm & Hmat & Hnone).
  exists m. split; [done|]. split; [done|]. split; [done|].
  split; [|by apply (wired_sources _ _ Hw)].
  rewrite (wired_maps _ _ Hw _ _ Hm). by rewrite Hnone.
Qed.

(** A texture that loads. When the image of a load of the scene arrives,
    whatever has happened since the construction: the load was for the
    image of the item at its index; the texture is a new object, now among
    those not disposed; it is stored in the slot of that index in
    [textures] and as the [map] of the material of the mesh at that index,
    which is otherwise as before; every other mesh and slot is as before;
    and the load is no longer in flight. *)
Theorem texture_lands_on_its_mesh ease its accent p0 es k r :
  wfPlatform p0 →
  let st := run es (construct ease its accent p0) in
  imageLoads st.1 !! k = Some r → il_owner r = renderer st.2 →
  let st' := step (TextureLoaded k) st in
  let tex := nextObject st.1 in
  (∃ item, its !! il_index r = Some item ∧ il_src r = item_image item) ∧
  ((tex ∉ undisposed st.1) ∧ undisposed st'.1 = {[tex]} ∪ undisposed st.1) ∧
  textures st'.2 !! il_index r = Some (Some tex) ∧
  (∃ m, thumbnailMeshes st.2 !! il_index r = Some m ∧
        thumbnailMeshes st'.2 !! il_index r =
          Some (mkMesh (position m) (userData m) (geometry m)
                       (mkMaterial (mat_id (material m)) (Some tex)
                                   (mat_color (material m))))) ∧
  (∀ j, j ≠ il_index r →
        thumbnailMeshes st'.2 !! j = thumbnailMeshes st.2 !! j ∧
        textures st'.2 !! j = textures st.2 !! j) ∧
  imageLoads st'.1 = delete k (imageLoads st.1).
Proof.
  intros Hwf st Hk Ho st' tex.
  pose proof (wired_run p0 es _ (construct_wired ease its accent p0 Hwf)) as Hw.
  pose proof (reachable_consistent ease its accent p0 es) as Hc.
  fold st in Hw, Hc.
  destruct (own_load p0 st k r Hw Hk Ho) as (m & Hm & Hmat & Hnone & Hslot & Hsrc).
  rewrite (cons_items _ _ Hc) in Hsrc.
  pose proof (owned_in_range _ _ Hw) as Hge.
  subst st' tex. destruct st as [p s]. cbn [fst snd] in *.
  unfold step. rewrite (settle_own true k p s r Hk Ho).
  unfold onLoad. cbn [create fst snd setImageLoads nextObject undisposed imageLoads
                      withTextures thumbnailMeshes textures].
  destruct (setMaterial_only
              (λ m0, mkMaterial (mat_id m0) (Some (nextObject p)) (mat_color m0))
              (il_mat r) (thumbnailMeshes s) (il_index r) m
              (wired_materials _ _ Hw) Hm Hmat) as [Hset Hother].
  split; [done|]. split; [split; [|done]|].
  { intros Hin. pose proof (wired_undisposed _ _ Hw) as Hu.
    pose proof (wired_new _ _ Hw) as Hn. cbn [fst snd] in Hu, Hn.
    rewrite Hu in Hin. apply elem_of_union in Hin as [Hin|Hin].
    - apply (wf_objects _ Hwf) in Hin. lia.
    - apply elem_of_list_to_set in Hin. apply Hn in Hin. lia. }
  split; [by rewrite list_lookup_insert_eq by (by eapply lookup_lt_Some)|].
  split; [by exists m|]. split; [|done].
  intros j Hj. split; [by apply Hother|]. by rewrite list_lookup_insert_ne.
Qed.

Lemma texture_lands_on_its_mesh_witness :
  wfPlatform emptyPlatform ∧
  let st := run [Frame Examples.still]
                (construct Examples.still Examples.three "#8C52FF" emptyPlatform) in
  let r := mkImageLoad 2 "i.png" 8 1 in
  imageLoads st.1 !! 1 = Some r ∧ il_owner r = renderer st.2 ∧
  let st' := step (TextureLoaded 1) st in
  let tex := nextObject st.1 in
  (∃ item, Examples.three !! il_index r = Some item ∧ il_src r = item_image item) ∧
  ((tex ∉ undisposed st.1) ∧ undisposed st'.1 = {[tex]} ∪ undisposed st.1) ∧
  textures st'.2 !! il_index r = Some (Some tex) ∧
  (∃ m, thumbnailMeshes st.2 !! il_index r = Some m ∧
        thumbnailMeshes st'.2 !! il_index r =
          Some (mkMesh (position m) (userData m) (geometry m)
                       (mkMaterial (mat_id (material m)) (Some tex)
                                   (mat_color (material m))))) ∧
  (∀ j, j ≠ il_index r →
        thumbnailMeshes st'.2 !! j = thumbnailMeshes st.2 !! j ∧
        textures st'.2 !! j = textures st.2 !! j) ∧
  imageLoads st'.1 = delete 1 (imageLoads st.1).
Proof.
  split; [exact emptyPlatform_wf|]. split; [by vm_compute|]. split; [by vm_compute|].
  apply (texture_lands_on_its_mesh Examples.still Examples.three "#8C52FF"
           emptyPlatform [Frame Examples.still] 1 (mkImageLoad 2 "i.png" 8 1)).
  - exact emptyPlatform_wf.
  - by vm_compute.
  - by vm_compute.
Defined.

(** *** The colour of a mesh *)

Lemma createThumbnails_white l p1 s0 :
  thumbnailMeshes s0 = [] →
  ∀ i m, thumbnailMeshes (forEach createThumbnail l (p1, s0)).2 !! i = Some m →
         mat_color (material m) = Hex 0xffffff.
Proof.
  intros Hm.
  apply (forEach_invariant
    (λ (k : nat) (st : Platform * ConstellationScene),
       ∀ i m, thumbnailMeshes st.2 !! i = Some m →
              mat_color (material m) = Hex 0xffffff)).
  - simpl. rewrite Hm. intros i m Hi. by rewrite lookup_nil in Hi.
  - intros k a [p s] _ Hinv.
    destruct (createThumbnail_eq a k p s) as (b & _ & ->).
    simpl in *. intros i m Hi.
    apply lookup_app_Some in Hi as [Hi|[_ Hi]]; [by eapply Hinv|].
    destruct (i - length (thumbnailMeshes s)) as [|?]; [|done].
    simpl in Hi. by injection Hi as <-.
Qed.

Lemma pristine_animate ease p s : pristine (p, s) → pristine (animate ease (p, s)).
Proof.
  intros Hp. destruct (animate_eq ease p s) as (ms & cur & -> & Hlen & Hpt).
  intros r m' Hr Hm'. cbn [fst snd] in *.
  destruct (Hpt _ _ Hm') as (m & Hm & _ & _ & ->).
  by apply (Hp r m).
Qed.

Lemma construct_pristine ease its accent p0 :
  pristine (construct ease its accent p0).
Proof.
  unfold construct. cbn [closure create fst snd createStars].
  match goal with
  | |- context [createThumbnails (?p, ?s)] => set (p1 := p); set (s0 := s)
  end.
  unfold createThumbnails. change (items (p1, s0).2) with its.
  pose proof (createThumbnails_white its p1 s0 eq_refl) as HA.
  destruct (forEach createThumbnail its (p1, s0)) as [p s] eqn:E.
  cbn [fst snd] in HA.
  unfold createLabels, forEach. rewrite createLabels_closed.
  apply pristine_animate. intros r m _ Hm. by apply (HA (il_index r)).
Qed.

Lemma pristine_frame ease p s : pristine (p, s) → pristine (frame ease (p, s)).
Proof.
  intros Hp. unfold frame. case_decide; [|done]. by apply pristine_animate.
Qed.

(** A load that settles leaves the meshes of the other loads of the scene
    as they are: each load has a mesh of its own. *)
Lemma pristine_settle p0 ok k p s :
  wired p0 (p, s) → pristine (p, s) → pristine (settle ok k (p, s)).
Proof.
  intros Hw Hp. unfold settle.
  destruct (imageLoads p !! k) as [r|] eqn:Ek; [|done].
  destruct (ownLoads_delete p s k r Ek) as (l1 & l2 & Hdel & Hown).
  pose proof (wired_distinct _ _ Hw) as Hd. cbn [fst snd] in Hd.
  case_decide as Ho.
  - rewrite Hown in Hd.
    destruct (NoDup_fmap_middle _ _ _ _ Hd) as [_ Hne].
    assert (r ∈ ownLoads p s) as Hr by (rewrite Hown; set_solver).
    destruct (wired_loads _ _ Hw r Hr) as (m0 & Hm0 & Hmat0 & _).
    cbn [fst snd] in Hm0.
    assert (∀ r', r' ∈ l1 ++ l2 → r' ∈ ownLoads p s) as Hsub
      by (intros r' Hr'; rewrite Hown; set_solver).
    destruct ok; unfold onLoad, onError; cbn [create fst snd];
      intros r' m' Hr' Hm'; unfold ownLoads in Hr';
      cbn [fst snd setImageLoads imageLoads withTextures renderer thumbnailMeshes]
        in Hr', Hm';
      rewrite Hdel in Hr'.
    + apply setMaterial_inv in Hm' as (m & Hm & _ & _ & _ & _ & Emat); [|done].
      rewrite Emat. rewrite <- (Hp r' m (Hsub r' Hr') Hm). by case_decide.
    + apply setMaterial_inv in Hm' as (m & Hm & _ & _ & _ & _ & Emat); [|done].
      rewrite Emat. case_decide as Hid; [|by apply (Hp r' m (Hsub r' Hr'))].
      exfalso. apply (Hne r' Hr').
      apply (wired_materials _ _ Hw _ _ m m0); [done|done|congruence].
  - intros r' m' Hr' Hm'. unfold ownLoads in Hr'.
    cbn [fst snd setImageLoads imageLoads] in Hr', Hm'.
    rewrite Hdel in Hr'. apply (Hp r' m'); [|done].
    change (r' ∈ ownLoads p s). rewrite Hown. set_solver.
Qed.

Lemma pristine_step p0 e st : wired p0 st → pristine st → pristine (step e st).
Proof.
  destruct st as [p s]. intros Hw Hp. destruct e as [ease|k|k]; unfold step.
  - by apply pristine_frame.
  - by apply (pristine_settle p0).
  - by apply (pristine_settle p0).
Qed.

Lemma pristine_run p0 es st : wired p0 st → pristine st → pristine (run es st).
Proof.
  unfold run. revert st. induction es as [|e es IH]; intros st Hw Hp; simpl; [done|].
  apply IH; [by apply wired_step|by apply (pristine_step p0)].
Qed.

(** A texture that fails to load. When the image of a load of the scene
    fails, whatever has happened since the construction, [color.set] is
    called with the accent string given to the constructor on the material
    of the mesh at the index of the load, which until then has the colour
    0xffffff it was created with. Whatever the reading three.js gives to
    strings: when it reads the accent string as a colour, the mesh has
    that colour afterwards; when it cannot read it, the mesh stays at
    0xffffff. Nothing else changes: the mesh keeps its place, geometry
    and texture, every other mesh is as before, no slot of [textures] is
    written and no object is made or disposed. The load is no longer in
    flight. *)
Theorem texture_failure_tints_its_mesh ease its accent p0 es k r :
  wfPlatform p0 →
  let st := run es (construct ease its accent p0) in
  imageLoads st.1 !! k = Some r → il_owner r = renderer st.2 →
  let st' := step (TextureFailed k) st in
  (∃ m m', thumbnailMeshes st.2 !! il_index r = Some m ∧
           thumbnailMeshes st'.2 !! il_index r = Some m' ∧
           m' = mkMesh (position m) (userData m) (geometry m)
                       (mkMaterial (mat_id (material m)) (mat_map (material m))
                                   (ColorSet accent (mat_color (material m)))) ∧
           mat_color (material m) = Hex 0xffffff ∧
           (∀ setStyle c, setStyle accent = Some c →
              colorValue setStyle (mat_color (material m')) = c) ∧
           (∀ setStyle, setStyle accent = None →
              colorValue setStyle (mat_color (material m')) = 0xffffff%Z)) ∧
  (∀ j, j ≠ il_index r → thumbnailMeshes st'.2 !! j = thumbnailMeshes st.2 !! j) ∧
  textures st'.2 = textures st.2 ∧
  undisposed st'.1 = undisposed st.1 ∧ nextObject st'.1 = nextObject st.1 ∧
  pendingFrames st'.1 = pendingFrames st.1 ∧
  imageLoads st'.1 = delete k (imageLoads st.1).
Proof.
  intros Hwf st Hk Ho st'.
  pose proof (wired_run p0 es _ (construct_wired ease its accent p0 Hwf)) as Hw.
  pose proof (pristine_run p0 es _ (construct_wired ease its accent p0 Hwf)
                (construct_pristine ease its accent p0)) as Hp.
  assert (accentColor st.2 = accent) as Hacc
    by (subst st; by rewrite run_accent, construct_accent).
  fold st in Hw, Hp.
  destruct (own_load p0 st k r Hw Hk Ho) as (m & Hm & Hmat & _).
  assert (mat_color (material m) = Hex 0xffffff) as Hwhite.
  { apply (Hp r m); [|done]. unfold ownLoads. apply list_elem_of_filter.
    split; [done|]. by eapply list_elem_of_lookup_2. }
  subst st'. destruct st as [p s]. cbn [fst snd] in *.
  unfold step. rewrite (settle_own false k p s r Hk Ho).
  unfold onError. cbn [fst snd setImageLoads nextObject undisposed imageLoads
                       pendingFrames withTextures thumbnailMeshes textures].
  rewrite Hacc.
  destruct (setMaterial_only
              (λ m0, mkMaterial (mat_id m0) (mat_map m0)
                                (ColorSet accent (mat_color m0)))
              (il_mat r) (thumbnailMeshes s) (il_index r) m
              (wired_materials _ _ Hw) Hm Hmat) as [Hset Hother].
  split; [|done].
  eexists m, _. split; [done|]. split; [exact Hset|]. split; [done|].
  split; [done|]. cbn [material mat_color colorValue]. rewrite Hwhite.
  split; [by intros setStyle c ->|by intros setStyle ->].
Qed.

Lemma texture_failure_tints_its_mesh_witness :
  wfPlatform emptyPlatform ∧
  let st := run [TextureLoaded 0]
                (construct Examples.still Examples.three "#8C52FF" emptyPlatform) in
  let r := mkImageLoad 2 "i.png" 10 2 in
  imageLoads st.1 !! 1 = Some r ∧ il_owner r = renderer st.2 ∧
  let st' := step (TextureFailed 1) st in
  (∃ m m', thumbnailMeshes st.2 !! il_index r = Some m ∧
           thumbnailMeshes st'.2 !! il_index r = Some m' ∧
           m' = mkMesh (position m) (userData m) (geometry m)
                       (mkMaterial (mat_id (material m)) (mat_map (material m))
                                   (ColorSet "#8C52FF" (mat_color (material m)))) ∧
           mat_color (material m) = Hex 0xffffff ∧
           (∀ setStyle c, setStyle "#8C52FF"%string = Some c →
              colorValue setStyle (mat_color (material m')) = c) ∧
           (∀ setStyle, setStyle "#8C52FF"%string = None →
              colorValue setStyle (mat_color (material m')) = 0xffffff%Z)) ∧
  (∀ j, j ≠ il_index r → thumbnailMeshes st'.2 !! j = thumbnailMeshes st.2 !! j) ∧
  textures st'.2 = textures st.2 ∧
  undisposed st'.1 = undisposed st.1 ∧ nextObject st'.1 = nextObject st.1 ∧
  pendingFrames st'.1 = pendingFrames st.1 ∧
  imageLoads st'.1 = delete 1 (imageLoads st.1).
Proof.
  split; [exact emptyPlatform_wf|]. split; [by vm_compute|]. split; [by vm_compute|].
  apply (texture_failure_tints_its_mesh Examples.still Examples.three "#8C52FF"
           emptyPlatform [TextureLoaded 0] 1 (mkImageLoad 2 "i.png" 10 2)).
  - exact emptyPlatform_wf.
  - by vm_compute.
  - by vm_compute.
Defined.

(** *** The allocation counter only grows *)

Lemma step_nextObject e st : nextObject st.1 ≤ nextObject (step e st).1.
Proof.
  destruct st as [p s]. destruct e as [ease|k|k]; unfold step.
  - unfold frame. case_decide; [|done].
    by destruct (animate_eq ease (cancelAnimationFrame (animId s) p) s)
      as (ms & cur & -> & _).
  - by destruct (settle_schedule true k p s) as (_ & _ & _ & _ & _ & _ & _ & ?).
  - by destruct (settle_schedule false k p s) as (_ & _ & _ & _ & _ & _ & _ & ?).
Qed.

Lemma construct_nextObject ease its accent p0 :
  nextObject p0 ≤ nextObject (construct ease its accent p0).1.
Proof.
  unfold construct. cbn [closure create fst snd createStars].
  match goal with
  | |- context [createThumbnails (?p, ?s)] => set (p1 := p); set (s0 := s)
  end.
  unfold createThumbnails. change (items (p1, s0).2) with its.
  pose proof (createThumbnails_resources its p1 s0 eq_refl) as HB.
  cbv zeta in HB.
  destruct (forEach createThumbnail its (p1, s0)) as [p s] eqn:E.
  cbn [fst snd] in HB. destruct HB as (Hge & _).
  unfold createLabels, forEach. rewrite createLabels_closed.
  match goal with
  | |- context [animate _ (?p', ?s')] =>
      destruct (animate_eq ease p' s') as (ms & cur & -> & _)
  end.
  subst p1. simpl in *. lia.
Qed.

Lemma run_click es st :
  canvasClick st.2 = [handleCanvasClick st.2] →
  canvasClick (run es st).2 = [handleCanvasClick (run es st).2].
Proof.
  unfold run. revert st. induction es as [|e es IH]; intros st H; simpl; [done|].
  apply IH. destruct st as [p s]. destruct e as [ease|k|k]; unfold step.
  - unfold frame. case_decide; [|done].
    by destruct (animate_eq ease (cancelAnimationFrame (animId s) p) s)
      as (ms & cur & -> & _).
  - by destruct (settle_schedule true k p s) as (_ & _ & _ & _ & _ & -> & -> & _).
  - by destruct (settle_schedule false k p s) as (_ & _ & _ & _ & _ & -> & -> & _).
Qed.

Lemma run_nextObject es st : nextObject st.1 ≤ nextObject (run es st).1.
Proof.
  unfold run. revert st. induction es as [|e es IH]; intros st; simpl; [done|].
  etrans; [apply (step_nextObject e)|apply IH].
Qed.

(** A texture that arrives after the teardown. [destroy] cancels no image
    load. When the image of a load of the scene arrives after [destroy],
    its callback still runs: the texture, a new object, is stored in the
    slot of its index, and it is the one object of the scene that is left
    not disposed, where [destroy] had given back exactly the objects from
    before the construction. A load that fails after [destroy] leaves
    none. *)
Theorem late_texture_outlives_teardown ease its accent p0 es k r :
  wfPlatform p0 →
  let st := run es (construct ease its accent p0) in
  imageLoads st.1 !! k = Some r → il_owner r = renderer st.2 →
  let torn := destroy st in
  let late := step (TextureLoaded k) torn in
  let tex := nextObject st.1 in
  imageLoads torn.1 = imageLoads st.1 ∧
  undisposed torn.1 = undisposed p0 ∧
  textures late.2 !! il_index r = Some (Some tex) ∧
  (tex ∉ undisposed p0) ∧
  undisposed late.1 = {[tex]} ∪ undisposed p0 ∧
  undisposed (step (TextureFailed k) torn).1 = undisposed p0.
Proof.
  intros Hwf st Hk Ho torn late tex.
  pose proof (wired_run p0 es _ (construct_wired ease its accent p0 Hwf)) as Hw.
  fold st in Hw.
  destruct (own_load p0 st k r Hw Hk Ho) as (m & Hm & Hmat & Hnone & Hslot & Hsrc).
  assert (nextObject p0 ≤ nextObject st.1) as Hge.
  { etrans; [apply (construct_nextObject ease its accent)|apply run_nextObject]. }
  assert (undisposed torn.1 = undisposed p0) as Hu0.
  { subst torn. destruct st as [p s]. rewrite destroy_eq.
    destruct Hw as [Hu Hn _ _ _ _ _].
    cbn [fst snd undisposed] in *.
    rewrite Hu. apply set_eq. intros h. rewrite elem_of_difference, elem_of_union.
    split; [naive_solver|]. intros Hh. split; [by left|].
    intros Hin%elem_of_list_to_set. apply Hn in Hin.
    apply (wf_objects _ Hwf) in Hh. lia. }
  split; [subst torn; destruct st as [p s]; by rewrite destroy_eq|].
  split; [done|].
  subst late tex torn. destruct st as [p s]. rewrite destroy_eq in *.
  cbn [fst snd] in *. unfold step.
  rewrite (settle_own true k _ _ r) by done.
  rewrite (settle_own false k _ _ r) by done.
  unfold onLoad, onError.
  cbn [create fst snd setImageLoads nextObject undisposed imageLoads
       withTextures withCanvasClick thumbnailMeshes textures] in *.
  split; [by rewrite list_lookup_insert_eq by (by eapply lookup_lt_Some)|].
  split; [intros Hin; apply (wf_objects _ Hwf) in Hin; lia|].
  by rewrite Hu0.
Qed.

Lemma late_texture_outlives_teardown_witness :
  wfPlatform emptyPlatform ∧
  let st := run [Frame Examples.still; TextureLoaded 0]
                (construct Examples.still Examples.three "#8C52FF" emptyPlatform) in
  let r := mkImageLoad 2 "i.png" 8 1 in
  imageLoads st.1 !! 0 = Some r ∧ il_owner r = renderer st.2 ∧
  let torn := destroy st in
  let late := step (TextureLoaded 0) torn in
  let tex := nextObject st.1 in
  imageLoads torn.1 = imageLoads st.1 ∧
  undisposed torn.1 = undisposed emptyPlatform ∧
  textures late.2 !! il_index r = Some (Some tex) ∧
  (tex ∉ undisposed emptyPlatform) ∧
  undisposed late.1 = {[tex]} ∪ undisposed emptyPlatform ∧
  undisposed (step (TextureFailed 0) torn).1 = undisposed emptyPlatform.
Proof.
  split; [exact emptyPlatform_wf|]. split; [by vm_compute|]. split; [by vm_compute|].
  apply (late_texture_outlives_teardown Examples.still Examples.three "#8C52FF"
           emptyPlatform [Frame Examples.still; TextureLoaded 0] 0
           (mkImageLoad 2 "i.png" 8 1)).
  - exact emptyPlatform_wf.
  - by vm_compute.
  - by vm_compute.
Defined.

End SceneFacts.

(** ** The element *)

Module HostFacts.
Import Host.

(** *** Rendering *)

Lemma renderGrid_container env show pg :
  container (element (renderGrid env show pg)) =
    container (element pg) ++
    [GridWrap
       ((if show then [webglNotice] else []) ++
        (if prefersReducedMotion env
            && negb (bool_decide (variant (element pg) = "grid"%string))
         then [reducedMotionNotice] else []))
       (imap (λ i item, mkCard (item_title item) (item_image item) (item_title item)
                               (item_tags item) i)
             (items (element pg)))
       newOverlay].
Proof.
  unfold renderGrid. simpl. do 3 f_equal.
  apply (forEach_push (λ i item, mkCard (item_title item) (item_image item)
                                        (item_title item) (item_tags item) i)).
Qed.

(** The two ways [render] ends. *)
Lemma render_grid env pg :
  bool_decide (variant (element pg) = "grid"%string)
  || prefersReducedMotion env || negb (isWebGLAvailable env) = true →
  render env pg =
    renderGrid env (negb (isWebGLAvailable env)
                    && negb (bool_decide (variant (element pg) = "grid"%string)))
               (onElement (setContainer []) pg).
Proof. intros H. unfold render. simpl. unfold variant in *. simpl. by rewrite H. Qed.

Lemma render_constellation env pg :
  bool_decide (variant (element pg) = "grid"%string)
  || prefersReducedMotion env || negb (isWebGLAvailable env) = false →
  render env pg = renderConstellation env (onElement (setContainer []) pg).
Proof. intros H. unfold render. simpl. unfold variant in *. simpl. by rewrite H. Qed.

Lemma renderConstellation_spec env pg :
  let pg' := renderConstellation env pg in
  let st := Scene.construct (easing env) (items (element pg)) (accent (element pg))
                            (platform pg) in
  container (element pg') = container (element pg) ++ [ConstellationWrap newOverlay] ∧
  scene (element pg') = Some st.2 ∧ platform pg' = st.1 ∧
  items (element pg') = items (element pg) ∧
  activeIndex (element pg') = activeIndex (element pg) ∧
  keydown pg' = keydown pg ∧ fetches pg' = fetches pg.
Proof.
  unfold renderConstellation. simpl. unfold accent. simpl.
  destruct (Scene.construct _ _ _ _) as [p s]. done.
Qed.

Lemma renderedMode_render env pg :
  renderedMode (render env pg) =
    Some (if bool_decide (variant (element pg) = "grid"%string)
             || prefersReducedMotion env || negb (isWebGLAvailable env)
          then Grid else Immersive).
Proof.
  destruct (_ || _ || _) eqn:E.
  - rewrite (render_grid _ _ E). unfold renderedMode.
    by rewrite renderGrid_container.
  - rewrite (render_constellation _ _ E). unfold renderedMode.
    destruct (renderConstellation_spec env (onElement (setContainer []) pg))
      as (-> & -> & _). done.
Qed.

(** C1. Rendering mode resolution. Whatever the [variant] attribute, the
    reduced-motion preference and the availability of WebGL, [render]
    leaves the grid exactly when reduced motion is preferred, or the
    requested mode is "grid", or WebGL is not available, and the immersive
    scene in every other case; and when WebGL is not available and the
    requested mode is "constellation", the grid carries the notice that
    WebGL is unavailable. *)
Theorem rendering_mode_resolution env pg :
  let pg' := render env pg in
  let requested := variant (element pg) in
  (renderedMode pg' = Some Grid ↔
     prefersReducedMotion env = true ∨ requested = "grid"%string
     ∨ isWebGLAvailable env = false) ∧
  (renderedMode pg' ≠ Some Grid → renderedMode pg' = Some Immersive) ∧
  (isWebGLAvailable env = false → requested = "constellation"%string →
     renderedMode pg' = Some Grid ∧
     webglNotice ∈ getNotices (container (element pg'))).
Proof.
  intros pg' requested. subst pg'. rewrite renderedMode_render.
  split; [|split].
  - destruct (bool_decide (variant (element pg) = "grid"%string)) eqn:Ev;
      [apply bool_decide_eq_true in Ev | apply bool_decide_eq_false in Ev];
      destruct (prefersReducedMotion env), (isWebGLAvailable env); simpl;
      split; intros H; try done; try naive_solver.
  - by destruct (_ || _ || _).
  - intros Hgl Hreq.
    assert (bool_decide (variant (element pg) = "grid"%string) = false) as Ev.
    { apply bool_decide_eq_false. fold requested. by rewrite Hreq. }
    rewrite Ev, Hgl, orb_true_r. split; [done|].
    rewrite render_grid by (by rewrite Ev, Hgl, orb_true_r).
    rewrite renderGrid_container, Ev, Hgl. simpl. constructor.
Qed.

(** *** Loading *)

(** C6. Loader result mapping. When the request fails, the response has
    a non-success status or its body does not parse, the resumed [load]
    ends normally (nothing is thrown to the caller) and leaves the
    failed-to-load notice as the only content: no card, no scene markup.
    When the response is successful and its document has no [items] field,
    [load] also ends normally, with an empty item list, rendered as such:
    no notice of failure and no card. *)
Theorem loader_result_mapping env pg :
  (∀ r,
     r = NetworkError ∨ (∃ status body, r = Response false status body)
     ∨ (∃ status, r = Response true status Malformed) →
     ∃ pg', loadResume r env pg = Done pg' ∧
            container (element pg') = [FallbackNotice failedNotice] ∧
            getGrid (container (element pg')) = [] ∧
            hasConstellation (container (element pg')) = false) ∧
  (∀ status,
     ∃ pg', loadResume (Response true status (Parsed (mkData None))) env pg = Done pg' ∧
            pg' = render env (onElement (setItems []) pg) ∧
            items (element pg') = [] ∧
            (failedNotice ∉ getNotices (container (element pg'))) ∧
            getGrid (container (element pg')) = []).
Proof.
  split.
  - intros r [->|[(status & body & ->)|(status & ->)]];
      eexists; (split; [reflexivity|]); done.
  - intros status. exists (render env (onElement (setItems []) pg)).
    split; [reflexivity|]. split; [done|].
    set (pg0 := onElement (setItems []) pg).
    destruct (bool_decide (variant (element pg0) = "grid"%string)
              || prefersReducedMotion env || negb (isWebGLAvailable env)) eqn:E.
    + rewrite (render_grid _ _ E), renderGrid_container.
      split; [done|]. simpl. split; [|done]. rewrite app_nil_r.
      assert (failedNotice ≠ webglNotice) as H1 by (unfold failedNotice; discriminate).
      assert (failedNotice ≠ reducedMotionNotice) as H2
        by (unfold failedNotice; discriminate).
      destruct (negb (isWebGLAvailable env) && _), (prefersReducedMotion env && _);
        simpl; set_solver.
    + rewrite (render_constellation _ _ E).
      destruct (renderConstellation_spec env (onElement (setContainer []) pg0))
        as (Hc & _ & _ & Hi & _). rewrite Hc, Hi. simpl.
      split; [done|]. split; [|done]. set_solver.
Qed.

(** *** Cards, meshes and labels *)

(** C7. Render cardinality and order. Whatever the element holds,
    [render] leaves one of two things, by the variant and the two
    capability checks. When these ask for the grid, the grid is rendered
    and holds exactly one card per loaded item, in their order: card [i]
    carries the title of item [i] as its label, its markup is the template
    filled with the image, title and tags of item [i], and it opens index
    [i]. Otherwise the scene is rendered; it is the one constructed from
    the loaded items, and at any later time it holds one mesh and one label
    per item, in their order: mesh [j] stores index [j] and its texture was
    requested from the image of item [j]; label [j] shows the title of item
    [j] and opens index [j]. *)
Theorem render_cardinality_order env pg es :
  let its := items (element pg) in
  let pg' := render env pg in
  let useGrid := bool_decide (variant (element pg) = "grid"%string)
                 || prefersReducedMotion env || negb (isWebGLAvailable env) in
  (useGrid = true →
     renderedMode pg' = Some Grid ∧
     length (getGrid (container (element pg'))) = length its ∧
     (∀ i item, its !! i = Some item →
        ∃ c, getGrid (container (element pg')) !! i = Some c ∧
             card_ariaLabel c = item_title item ∧
             card_innerHTML c = cardMarkup item ∧
             card_index c = i) ∧
     (∀ i, length its ≤ i → getGrid (container (element pg')) !! i = None)) ∧
  (useGrid = false →
     renderedMode pg' = Some Immersive ∧
     let st := Scene.construct (easing env) its (accent (element pg)) (platform pg) in
     let s := (Scene.run es st).2 in
     scene (element pg') = Some st.2 ∧ platform pg' = st.1 ∧
     length (Scene.thumbnailMeshes s) = length its ∧
     length (Scene.labelElements s) = length its ∧
     (∀ j item, its !! j = Some item →
        ∃ m b, Scene.thumbnailMeshes s !! j = Some m ∧
               Scene.index (Scene.userData m) = Some j ∧
               Scene.labelElements s !! j = Some b ∧
               Scene.textContent b = item_title item ∧ Scene.clickIndex b = j) ∧
     (∀ j item, its !! j = Some item →
        ∃ m, Scene.thumbnailMeshes st.2 !! j = Some m ∧
             Scene.mkImageLoad (Scene.renderer st.2) (item_image item)
                               (Scene.mat_id (Scene.material m)) j
               ∈ Scene.imageLoads st.1)).
Proof.
  intros its pg' useGrid. subst pg' useGrid.
  split; intros E; rewrite renderedMode_render, E; (split; [done|]).
  - rewrite (render_grid _ _ E), renderGrid_container. simpl.
    split; [by rewrite length_imap|]. split.
    + intros i item Hi. eexists. rewrite list_lookup_imap.
      fold its. rewrite Hi. simpl. split; [done|]. done.
    + intros i Hi. apply lookup_ge_None_2. by rewrite length_imap.
  - intros st s. rewrite (render_constellation _ _ E).
    destruct (renderConstellation_spec env (onElement (setContainer []) pg))
      as (_ & Hs & Hp & _).
    split; [exact Hs|]. split; [exact Hp|].
    apply (SceneFacts.construct_per_item (easing env) its (accent (element pg))
             (platform pg) es).
Qed.

Lemma render_cardinality_order_witness :
  let env := Examples.capable in
  let es := [Scene.Frame Examples.still; Scene.TextureLoaded 0] in
  let grid := onElement (setItems Examples.three) Examples.gridElement in
  let immersive := onElement (setItems Examples.three) Examples.sceneElement in
  (bool_decide (variant (element grid) = "grid"%string)
   || prefersReducedMotion env || negb (isWebGLAvailable env) = true ∧
   let its := items (element grid) in
   let pg' := render env grid in
   renderedMode pg' = Some Grid ∧
   length (getGrid (container (element pg'))) = length its ∧
   (∀ i item, its !! i = Some item →
      ∃ c, getGrid (container (element pg')) !! i = Some c ∧
           card_ariaLabel c = item_title item ∧
           card_innerHTML c = cardMarkup item ∧
           card_index c = i) ∧
   (∀ i, length its ≤ i → getGrid (container (element pg')) !! i = None)) ∧
  (bool_decide (variant (element immersive) = "grid"%string)
   || prefersReducedMotion env || negb (isWebGLAvailable env) = false ∧
   let its := items (element immersive) in
   let pg' := render env immersive in
   renderedMode pg' = Some Immersive ∧
   let st := Scene.construct (easing env) its (accent (element immersive))
                             (platform immersive) in
   let s := (Scene.run es st).2 in
   scene (element pg') = Some st.2 ∧ platform pg' = st.1 ∧
   length (Scene.thumbnailMeshes s) = length its ∧
   length (Scene.labelElements s) = length its ∧
   (∀ j item, its !! j = Some item →
      ∃ m b, Scene.thumbnailMeshes s !! j = Some m ∧
             Scene.index (Scene.userData m) = Some j ∧
             Scene.labelElements s !! j = Some b ∧
             Scene.textContent b = item_title item ∧ Scene.clickIndex b = j) ∧
   (∀ j item, its !! j = Some item →
      ∃ m, Scene.thumbnailMeshes st.2 !! j = Some m ∧
           Scene.mkImageLoad (Scene.renderer st.2) (item_image item)
                             (Scene.mat_id (Scene.material m)) j
             ∈ Scene.imageLoads st.1)).
Proof.
  intros env es grid immersive. split.
  - split; [reflexivity|].
    apply (proj1 (render_cardinality_order env grid es)). reflexivity.
  - split; [reflexivity|].
    apply (proj2 (render_cardinality_order env immersive es)). reflexivity.
Defined.

(** *** Teardown *)

Lemma dropScene_idemp pg : dropScene (dropScene pg) = dropScene pg.
Proof.
  unfold dropScene. destruct (scene (element pg)) as [s|] eqn:E.
  - by destruct (Scene.destroy (platform pg, s)) as [p s'].
  - done.
Qed.

(** C8. Scene teardown. For a scene at any time after its construction,
    [destroy] cancels the frame request of the animation loop, so that no
    further pass runs and no request of this scene stays pending; removes
    the resize listener from the window and the click listener from the
    canvas; disposes the renderer, the geometry and the material of every
    mesh (one per item), every texture that has loaded, and the geometry
    and material of the star field. A second [destroy] of the same scene
    changes nothing. [disconnectedCallback] destroys the element's scene
    and forgets it, and calling it again changes nothing either. *)
Theorem scene_teardown ease its accent p0 es pg :
  let st := Scene.run es (Scene.construct ease its accent p0) in
  let st' := Scene.destroy st in
  ((Scene.animId st.2 ∉ Scene.pendingFrames st'.1) ∧
   Scene.pendingFrames st'.1 ⊆ Scene.pendingFrames p0 ∧
   ∀ ease', Scene.frame ease' st' = st') ∧
  ((Scene.resize st.2 ∉ Scene.windowResize st'.1) ∧
   (Scene.handleCanvasClick st.2 ∉ Scene.canvasClick st'.2)) ∧
  ((Scene.renderer st.2 ∉ Scene.undisposed st'.1) ∧
   length (Scene.thumbnailMeshes st.2) = length its ∧
   (∀ m, m ∈ Scene.thumbnailMeshes st.2 →
      (Scene.geometry m ∉ Scene.undisposed st'.1) ∧
      (Scene.mat_id (Scene.material m) ∉ Scene.undisposed st'.1)) ∧
   (∀ tex, Some tex ∈ Scene.textures st.2 → tex ∉ Scene.undisposed st'.1) ∧
   (∃ pts, Scene.stars st.2 = Some pts ∧
      (Scene.points_geometry pts ∉ Scene.undisposed st'.1) ∧
      (Scene.points_material pts ∉ Scene.undisposed st'.1))) ∧
  Scene.destroy st' = st' ∧
  (∀ s, scene (element pg) = Some s →
     platform (disconnectedCallback pg) = (Scene.destroy (platform pg, s)).1 ∧
     scene (element (disconnectedCallback pg)) = None) ∧
  disconnectedCallback (disconnectedCallback pg) = disconnectedCallback pg.
Proof.
  intros st st'.
  destruct (SceneFacts.destroy_after_run ease its accent p0 es) as (H1 & H2 & H3 & H4).
  split; [exact H1|]. split; [exact H2|]. split; [exact H3|]. split; [exact H4|].
  split.
  - intros s Hs. unfold disconnectedCallback, dropScene. simpl. rewrite Hs.
    destruct (Scene.destroy (platform pg, s)) as [p s']. done.
  - unfold disconnectedCallback.
    set (pg1 := onElement (setConnected false) pg).
    assert (onElement (setConnected false) (dropScene pg1) = dropScene pg1) as ->.
    { unfold dropScene. destruct (scene (element pg1)) as [s|].
      - destruct (Scene.destroy (platform pg1, s)) as [p s']. done.
      - done. }
    apply dropScene_idemp.
Qed.

(** *** The keydown listeners of the detail overlay *)

(** C2. The listeners of [document] accumulate. On the grid of three
    items, a click on the first card and then on the next button leaves
    two [keyHandler]s registered, the one of index 0 and the one of index
    1; Escape then removes only the one stored on the overlay, and the
    listener of index 0 stays registered with the overlay closed. *)
Theorem keydown_listeners_accumulate :
  let opened := run [CardClick 0] Examples.gridOfThree in
  let navigated := run [CardClick 0; NextClick] Examples.gridOfThree in
  let dismissed := run [CardClick 0; NextClick; Keydown "Escape"] Examples.gridOfThree in
  keydown opened = [(0, mkKeyHandler 0 false true)] ∧
  keydown navigated = [(0, mkKeyHandler 0 false true); (1, mkKeyHandler 1 true true)] ∧
  (ov_keyHandler <$> getOverlay (container (element navigated))) = Some (Some 1) ∧
  keydown dismissed = [(0, mkKeyHandler 0 false true)] ∧
  shownCard dismissed = None ∧ activeIndex (element dismissed) = None.
Proof. vm_compute. done. Qed.

(** Every [showCard] that finds its item and the overlay adds a listener;
    [hideCard] removes at most the one stored on the overlay. *)
Lemma showCard_adds_listener idx pg :
  is_Some (itemAt (items (element pg)) idx) →
  is_Some (getOverlay (container (element pg))) →
  length (keydown (showCard idx pg)) = S (length (keydown pg)).
Proof.
  intros [item Hi] [ov Ho]. unfold showCard. simpl. rewrite Hi, Ho. simpl.
  rewrite length_app. simpl. lia.
Qed.

(** C5. Arrow keys at a boundary. On the grid of three items the user
    opens the last card, goes to the previous one, closes the overlay and
    opens the first card: the overlay shows index 0 without a previous
    button. The left arrow then moves the selection to index 1. In the
    same way the right arrow pressed at the last index moves the selection
    to index 1. *)
Theorem arrow_at_boundary_moves_selection :
  let atFirst := run [CardClick 2; PrevClick; CloseClick; CardClick 0]
                     Examples.gridOfThree in
  let atLast := run [CardClick 0; NextClick; CloseClick; CardClick 2]
                    Examples.gridOfThree in
  (activeIndex (element atFirst) = Some 0%Z ∧
   (cv_prev <$> shownCard atFirst) = Some false ∧
   activeIndex (element (step (Keydown "ArrowLeft") atFirst)) = Some 1%Z) ∧
  (activeIndex (element atLast) = Some 2%Z ∧
   (cv_next <$> shownCard atLast) = Some false ∧
   activeIndex (element (step (Keydown "ArrowRight") atLast)) = Some 1%Z).
Proof. vm_compute. done. Qed.

(** *** Overlapping loads *)

Lemma render_items env pg : items (element (render env pg)) = items (element pg).
Proof.
  destruct (bool_decide (variant (element pg) = "grid"%string)
            || prefersReducedMotion env || negb (isWebGLAvailable env)) eqn:E.
  - by rewrite (render_grid _ _ E).
  - rewrite (render_constellation _ _ E).
    by destruct (renderConstellation_spec env (onElement (setContainer []) pg))
      as (_ & _ & _ & -> & _).
Qed.

(** C4 does not hold as stated. The response to the request for "a.json"
    arrives after the one for "b.json": the items of "b.json" are replaced
    by those of "a.json", although the element asks for "b.json". *)
Lemma earlier_response_overwrites :
  let later := step (FetchSettled 1 (Examples.ok [Examples.item "B"]) Examples.capable)
                    Examples.twoLoads in
  let earlier := step (FetchSettled 0 (Examples.ok [Examples.item "A"]) Examples.capable)
                      later in
  fetches Examples.twoLoads = [(0, "a.json"); (1, "b.json")]%string ∧
  items (element later) = [Examples.item "B"] ∧
  attr_data_json (element earlier) = Some "b.json"%string ∧
  items (element earlier) = [Examples.item "A"] ∧
  (card_title <$> getGrid (container (element earlier))) = ["A"%string].
Proof. vm_compute. done. Qed.

(** C4, as the code has it. [load] keeps no generation counter and cancels
    nothing: whenever a request that is in flight settles with a
    successful response, whatever loads have started since, the items of
    that response replace the current ones and are rendered. The state is
    that of the response that settles last. *)
Theorem last_settled_response_wins id status data env pg :
  id ∈ (fetches pg).*1 →
  let pg' := fetchSettled id (Response true status (Parsed data)) env pg in
  items (element pg') = default [] (data_items data) ∧
  pg' = render env
          (onElement (setItems (default [] (data_items data)))
             (setFetches (filter (λ f, f.1 ≠ id) (fetches pg)) (nextFetch pg) pg)).
Proof.
  intros Hid pg'. subst pg'. unfold fetchSettled. rewrite decide_True by done.
  simpl. by rewrite render_items.
Qed.

(** C4 as amended, for the earlier of the two requests of [twoLoads]. *)
Lemma last_settled_response_wins_witness :
  0 ∈ (fetches Examples.twoLoads).*1 ∧
  let pg' := fetchSettled 0 (Response true 200 (Parsed (mkData (Some Examples.three))))
                          Examples.capable Examples.twoLoads in
  items (element pg') = default [] (data_items (mkData (Some Examples.three))) ∧
  pg' = render Examples.capable
          (onElement (setItems (default [] (data_items (mkData (Some Examples.three)))))
             (setFetches (filter (λ f, f.1 ≠ 0) (fetches Examples.twoLoads))
                         (nextFetch Examples.twoLoads) Examples.twoLoads)).
Proof.
  split.
  - vm_compute. constructor.
  - apply (last_settled_response_wins 0 200 (mkData (Some Examples.three))
             Examples.capable Examples.twoLoads).
    vm_compute. constructor.
Defined.

(** *** The selection *)

Lemma getGrid_putOverlay ov c : getGrid (putOverlay ov c) = getGrid c.
Proof. induction c as [|[] c IH]; simpl; done. Qed.

Lemma hasConstellation_putOverlay ov c :
  hasConstellation (putOverlay ov c) = hasConstellation c.
Proof.
  unfold hasConstellation. induction c as [|[] c IH]; simpl; try done.
Qed.

Lemma getOverlay_putOverlay ov c :
  is_Some (getOverlay c) → getOverlay (putOverlay ov c) = Some ov.
Proof. induction c as [|[] c IH]; simpl; done. Qed.

(** [showCard] and [hideCard], by cases. *)
Lemma showCard_eq idx pg :
  showCard idx pg =
    match itemAt (items (element pg)) idx, getOverlay (container (element pg)) with
    | Some item, Some ov =>
        let hasPrev := bool_decide (0 < idx)%Z in
        let hasNext := bool_decide (idx < Z.of_nat (length (items (element pg))) - 1)%Z in
        let fn := Scene.nextObject (platform pg) in
        mkPage
          (setContainer
             (putOverlay (mkOverlay true (Some (mkCardView item hasPrev hasNext idx))
                                    (S (ov_clicks ov)) (Some fn))
                         (container (element pg)))
             (setActiveIndex (Some idx) (element pg)))
          (keydown pg ++ [(fn, mkKeyHandler idx hasPrev hasNext)])
          (Scene.closure (platform pg)).2 (fetches pg) (nextFetch pg)
    | _, _ => onElement (setActiveIndex (Some idx)) pg
    end.
Proof.
  unfold showCard. simpl.
  destruct (itemAt (items (element pg)) idx); [|done].
  destruct (getOverlay (container (element pg))); done.
Qed.

Lemma hideCard_eq pg :
  hideCard pg =
    match getOverlay (container (element pg)) with
    | Some ov =>
        mkPage
          (setContainer
             (putOverlay (mkOverlay false None (ov_clicks ov) None)
                         (container (element pg)))
             (setActiveIndex None (element pg)))
          (match ov_keyHandler ov with
           | Some f => filter (λ l, l.1 ≠ f) (keydown pg)
           | None => keydown pg
           end)
          (platform pg) (fetches pg) (nextFetch pg)
    | None => onElement (setActiveIndex None) pg
    end.
Proof.
  unfold hideCard. simpl.
  destruct (getOverlay (container (element pg))) as [ov|]; [|done].
  destruct (ov_keyHandler ov); done.
Qed.


Lemma hideCard_frame pg :
  items (element (hideCard pg)) = items (element pg) ∧
  scene (element (hideCard pg)) = scene (element pg) ∧
  getGrid (container (element (hideCard pg))) = getGrid (container (element pg)) ∧
  hasConstellation (container (element (hideCard pg)))
    = hasConstellation (container (element pg)) ∧
  activeIndex (element (hideCard pg)) = None.
Proof.
  rewrite hideCard_eq.
  destruct (getOverlay (container (element pg))); simpl;
    rewrite ?getGrid_putOverlay, ?hasConstellation_putOverlay; done.
Qed.









(** What a load leaves alone: the listeners of [document] and the
    selection. *)
Lemma render_keeps env pg :
  keydown (render env pg) = keydown pg ∧
  activeIndex (element (render env pg)) = activeIndex (element pg).
Proof.
  destruct (bool_decide (variant (element pg) = "grid"%string)
            || prefersReducedMotion env || negb (isWebGLAvailable env)) eqn:E.
  - by rewrite (render_grid _ _ E).
  - rewrite (render_constellation _ _ E).
    by destruct (renderConstellation_spec env (onElement (setContainer []) pg))
      as (_ & _ & _ & _ & -> & -> & _).
Qed.

Lemma load_keeps pg :
  keydown (load pg) = keydown pg ∧
  activeIndex (element (load pg)) = activeIndex (element pg) ∧
  items (element (load pg)) = items (element pg) ∧
  scene (element (load pg)) = scene (element pg) ∧
  getOverlay (container (element (load pg))) = None ∧
  getGrid (container (element (load pg))) = [] ∧
  hasConstellation (container (element (load pg))) = false.
Proof.
  unfold load, posterUrl. simpl.
  destruct (truthy (attr_data_json (element pg))); simpl; [|done].
  by destruct (truthy (attr_poster (element pg))).
Qed.

Lemma dropScene_keeps pg :
  keydown (dropScene pg) = keydown pg ∧
  activeIndex (element (dropScene pg)) = activeIndex (element pg) ∧
  items (element (dropScene pg)) = items (element pg) ∧
  container (element (dropScene pg)) = container (element pg) ∧
  scene (element (dropScene pg)) = None.
Proof.
  unfold dropScene. destruct (scene (element pg)) as [s|]; [|done].
  by destruct (Scene.destroy (platform pg, s)).
Qed.

Lemma loadResume_keeps r env pg :
  keydown (stateOf (loadResume r env pg)) = keydown pg ∧
  activeIndex (element (stateOf (loadResume r env pg))) = activeIndex (element pg).
Proof.
  unfold loadResume, loadTry. destruct r as [|[] status [|data]]; simpl; try done.
  by destruct (render_keeps env
                 (onElement (setItems (default [] (data_items data))) pg)) as [-> ->].
Qed.

(** A load, a connection, a disconnection and an attribute change leave
    the selection as it is. *)
Lemma lifecycle_keeps_selection e pg :
  isLifecycle e = true →
  activeIndex (element (step e pg)) = activeIndex (element pg) ∧
  keydown (step e pg) = keydown pg.
Proof.
  intros He. destruct e; try done; simpl.
  - unfold connectedCallback.
    by destruct (load_keeps (onElement (setConnected true) pg)) as (-> & -> & _).
  - unfold disconnectedCallback.
    by destruct (dropScene_keeps (onElement (setConnected false) pg)) as (-> & -> & _).
  - unfold attributeChangedCallback.
    destruct (isConnected _); [|by destruct a].
    destruct (load_keeps (dropScene (onElement (setAttribute a v) pg))) as (-> & -> & _).
    destruct (dropScene_keeps (onElement (setAttribute a v) pg)) as (-> & -> & _).
    by destruct a.
  - unfold fetchSettled. case_decide; [|done].
    by destruct (loadResume_keeps r env
                   (setFetches (filter (λ f, f.1 ≠ id) (fetches pg)) (nextFetch pg) pg))
      as (-> & ->).
Qed.









(** *** What does hold at the boundaries *)

(** The buttons of the overlay: [showCard] renders the previous button
    exactly for an index above 0 and the next button exactly for an index
    below the last one. *)
Theorem boundary_controls idx pg item :
  itemAt (items (element pg)) idx = Some item →
  is_Some (getOverlay (container (element pg))) →
  ∃ cv, shownCard (showCard idx pg) = Some cv ∧
        cv_item cv = item ∧ cv_index cv = idx ∧
        (cv_prev cv = true ↔ (0 < idx)%Z) ∧
        (cv_next cv = true ↔ (idx < Z.of_nat (length (items (element pg))) - 1)%Z).
Proof.
  intros Hi [ov Ho]. unfold shownCard. rewrite showCard_eq, Hi, Ho. simpl.
  rewrite getOverlay_putOverlay by (by rewrite Ho). simpl.
  eexists. split; [done|]. simpl.
  split; [done|]. split; [done|]. by rewrite !bool_decide_eq_true.
Qed.

(** The first card of the grid of three items. *)
Lemma boundary_controls_witness :
  itemAt (items (element Examples.gridOfThree)) 0 = Some (Examples.item "A") ∧
  is_Some (getOverlay (container (element Examples.gridOfThree))) ∧
  ∃ cv, shownCard (showCard 0 Examples.gridOfThree) = Some cv ∧
        cv_item cv = Examples.item "A" ∧ cv_index cv = 0%Z ∧
        (cv_prev cv = true ↔ (0 < 0)%Z) ∧
        (cv_next cv = true ↔
           (0 < Z.of_nat (length (items (element Examples.gridOfThree))) - 1)%Z).
Proof.
  split; [reflexivity|]. split; [by vm_compute; eexists|].
  apply (boundary_controls 0 Examples.gridOfThree (Examples.item "A")).
  - reflexivity.
  - by vm_compute; eexists.
Defined.

(** The arrow keys on a page that has no listener left over: after
    [showCard] at index 0 the left arrow, and after [showCard] at the last
    index the right arrow, leave the selection where it is. *)
Theorem arrow_at_boundary_without_stale_listeners idx pg :
  keydown pg = [] →
  is_Some (itemAt (items (element pg)) idx) →
  is_Some (getOverlay (container (element pg))) →
  (idx = 0%Z →
     activeIndex (element (documentKeydown "ArrowLeft" (showCard idx pg))) = Some idx) ∧
  (idx = (Z.of_nat (length (items (element pg))) - 1)%Z →
     activeIndex (element (documentKeydown "ArrowRight" (showCard idx pg))) = Some idx).
Proof.
  intros Hk [item Hi] [ov Ho].
  unfold documentKeydown. rewrite showCard_eq, Hi, Ho, Hk. simpl.
  split; intros ->; unfold keyHandler; simpl; (case_decide; [|done]).
  - done.
  - by rewrite bool_decide_eq_false_2 by lia.
Qed.

(** The first card of the grid of three items, opened before anything
    else. *)
Lemma arrow_at_boundary_without_stale_listeners_witness :
  keydown Examples.gridOfThree = [] ∧
  is_Some (itemAt (items (element Examples.gridOfThree)) 0) ∧
  is_Some (getOverlay (container (element Examples.gridOfThree))) ∧
  (0%Z = 0%Z →
     activeIndex (element (documentKeydown "ArrowLeft" (showCard 0 Examples.gridOfThree)))
       = Some 0%Z) ∧
  (0%Z = (Z.of_nat (length (items (element Examples.gridOfThree))) - 1)%Z →
     activeIndex (element (documentKeydown "ArrowRight" (showCard 0 Examples.gridOfThree)))
       = Some 0%Z).
Proof.
  split; [reflexivity|]. split; [by vm_compute; eexists|].
  split; [by vm_compute; eexists|].
  apply (arrow_at_boundary_without_stale_listeners 0 Examples.gridOfThree).
  - reflexivity.
  - by vm_compute; eexists.
  - by vm_compute; eexists.
Defined.

(** *** Opening and closing the overlay *)

Lemma putOverlay_putOverlay a b c : putOverlay a (putOverlay b c) = putOverlay a c.
Proof. induction c as [|[] c IH]; simpl; by rewrite ?IH. Qed.

Lemma getOverlay_putOverlay_None ov c :
  getOverlay c = None → putOverlay ov c = c.
Proof. induction c as [|[] c IH]; simpl; intros H; try done; by rewrite IH. Qed.

Lemma hideCard_idemp pg : hideCard (hideCard pg) = hideCard pg.
Proof.
  rewrite (hideCard_eq pg).
  destruct (getOverlay (container (element pg))) as [ov|] eqn:Eo.
  - rewrite hideCard_eq. simpl.
    rewrite getOverlay_putOverlay by (by rewrite Eo). simpl.
    by rewrite putOverlay_putOverlay.
  - rewrite hideCard_eq. simpl. by rewrite Eo.
Qed.

(** What [showCard] leaves behind when it finds its item and the overlay. *)
Lemma showCard_shows idx pg item ov :
  itemAt (items (element pg)) idx = Some item →
  getOverlay (container (element pg)) = Some ov →
  let pg' := showCard idx pg in
  let cv := mkCardView item (bool_decide (0 < idx)%Z)
              (bool_decide (idx < Z.of_nat (length (items (element pg))) - 1)%Z) idx in
  let fn := Scene.nextObject (platform pg) in
  activeIndex (element pg') = Some idx ∧
  getOverlay (container (element pg')) =
    Some (mkOverlay true (Some cv) (S (ov_clicks ov)) (Some fn)) ∧
  shownCard pg' = Some cv ∧
  keydown pg' = keydown pg ++ [(fn, mkKeyHandler idx (cv_prev cv) (cv_next cv))] ∧
  Scene.nextObject (platform pg') = S fn ∧
  items (element pg') = items (element pg).
Proof.
  intros Hi Ho. unfold shownCard. rewrite showCard_eq, Hi, Ho. simpl.
  rewrite getOverlay_putOverlay by (by rewrite Ho). done.
Qed.

Lemma itemAt_Some l i :
  is_Some (itemAt l i) ↔ (0 ≤ i < Z.of_nat (length l))%Z.
Proof.
  unfold itemAt. case_decide.
  - rewrite lookup_lt_is_Some. lia.
  - split; [by intros [? ?]|lia].
Qed.

Lemma itemAt_of_nat (l : list PortfolioItem) k : itemAt l (Z.of_nat k) = l !! k.
Proof. unfold itemAt. rewrite decide_True by lia. by rewrite Nat2Z.id. Qed.

(** The body of a [keyHandler], key by key. *)
Lemma keyHandler_escape h pg : keyHandler h "Escape" pg = hideCard pg.
Proof. done. Qed.

Lemma keyHandler_left h pg :
  keyHandler h "ArrowLeft" pg =
    if kh_hasPrev h then showCard (kh_index h - 1) pg else pg.
Proof. unfold keyHandler. simpl. by destruct (kh_hasPrev h). Qed.

Lemma keyHandler_right h pg :
  keyHandler h "ArrowRight" pg =
    if kh_hasNext h then showCard (kh_index h + 1) pg else pg.
Proof. unfold keyHandler. simpl. by destruct (kh_hasNext h). Qed.

Lemma keyHandler_other h key pg :
  key ≠ "Escape"%string → key ≠ "ArrowLeft"%string → key ≠ "ArrowRight"%string →
  keyHandler h key pg = pg.
Proof.
  intros H1 H2 H3. unfold keyHandler.
  by rewrite !bool_decide_eq_false_2 by done.
Qed.

Lemma dispatchKeydown_fixed snapshot key pg :
  (∀ h, keyHandler h key pg = pg) → dispatchKeydown snapshot key pg = pg.
Proof.
  intros Hfix. induction snapshot as [|[f h] rest IH]; simpl; [done|].
  case_decide; [|done]. by rewrite Hfix.
Qed.

Lemma iter_hideCard n pg : Nat.iter (S n) hideCard pg = hideCard pg.
Proof.
  induction n as [|n IH]; [done|].
  change (Nat.iter (S (S n)) hideCard pg) with (hideCard (Nat.iter (S n) hideCard pg)).
  by rewrite IH, hideCard_idemp.
Qed.

Lemma dispatchKeydown_escape snapshot pg :
  hideCard pg = pg → dispatchKeydown snapshot "Escape" pg = pg.
Proof.
  intros Hfix. apply dispatchKeydown_fixed. intros h. by rewrite keyHandler_escape.
Qed.

Lemma documentKeydown_escape pg :
  keydown pg ≠ [] → documentKeydown "Escape" pg = hideCard pg.
Proof.
  intros Hne. unfold documentKeydown.
  destruct (keydown pg) as [|[f h] rest] eqn:E; [done|]. simpl.
  rewrite decide_True by (rewrite E; simpl; left).
  rewrite keyHandler_escape. apply dispatchKeydown_escape, hideCard_idemp.
Qed.

(** [hideCard]. With the overlay in the document, [hideCard] clears the
    selection, empties and deactivates the overlay, forgets the handler
    stored on it and removes from [document] that handler and no other; the
    click listeners of the overlay element stay. Hiding twice is hiding
    once. *)
Theorem hideCard_dismisses pg ov :
  getOverlay (container (element pg)) = Some ov →
  let pg' := hideCard pg in
  activeIndex (element pg') = None ∧
  getOverlay (container (element pg')) = Some (mkOverlay false None (ov_clicks ov) None) ∧
  keydown pg' = filter (λ fh, Some fh.1 ≠ ov_keyHandler ov) (keydown pg) ∧
  items (element pg') = items (element pg) ∧
  hideCard pg' = pg'.
Proof.
  intros Ho pg'. subst pg'. split; [|split; [|split; [|split]]].
  - by destruct (hideCard_frame pg) as (_ & _ & _ & _ & ->).
  - rewrite hideCard_eq, Ho. simpl. by rewrite getOverlay_putOverlay by (by rewrite Ho).
  - rewrite hideCard_eq, Ho. simpl. destruct (ov_keyHandler ov) as [f|].
    + apply list_filter_iff. intros fh. split; [congruence|].
      intros H Heq. apply H. by rewrite Heq.
    + by rewrite SceneFacts.filter_all by done.
  - by destruct (hideCard_frame pg) as (-> & _).
  - apply hideCard_idemp.
Qed.

Lemma hideCard_dismisses_witness :
  let pg := run [CardClick 0; NextClick] Examples.gridOfThree in
  let ov := mkOverlay true
              (Some (mkCardView (Examples.item "B") true true 1)) 2 (Some 1) in
  getOverlay (container (element pg)) = Some ov ∧
  let pg' := hideCard pg in
  activeIndex (element pg') = None ∧
  getOverlay (container (element pg')) = Some (mkOverlay false None (ov_clicks ov) None) ∧
  keydown pg' = filter (λ fh, Some fh.1 ≠ ov_keyHandler ov) (keydown pg) ∧
  items (element pg') = items (element pg) ∧
  hideCard pg' = pg'.
Proof.
  split; [by vm_compute|].
  apply (hideCard_dismisses (run [CardClick 0; NextClick] Examples.gridOfThree)
           (mkOverlay true (Some (mkCardView (Examples.item "B") true true 1)) 2
                      (Some 1))).
  by vm_compute.
Defined.

(** The three ways to dismiss. After [showCard] has opened the overlay, a
    click on the close button, a click on the backdrop and the Escape key
    all do what one [hideCard] does: the selection is cleared and the
    overlay is closed and empty. *)
Theorem dismissal_paths idx pg :
  is_Some (itemAt (items (element pg)) idx) →
  is_Some (getOverlay (container (element pg))) →
  let opened := showCard idx pg in
  step CloseClick opened = hideCard opened ∧
  step BackdropClick opened = hideCard opened ∧
  step (Keydown "Escape") opened = hideCard opened ∧
  activeIndex (element (hideCard opened)) = None ∧
  shownCard (hideCard opened) = None ∧
  (ov_active <$> getOverlay (container (element (hideCard opened)))) = Some false.
Proof.
  intros [item Hi] [ov Ho] opened.
  destruct (showCard_shows idx pg item ov Hi Ho) as (Ha & Hov & Hcv & Hk & _).
  fold opened in Ha, Hov, Hcv, Hk.
  split; [|split; [|split]].
  - simpl. by rewrite Hcv.
  - simpl. rewrite Hov. simpl. apply (iter_hideCard (ov_clicks ov)).
  - simpl. apply documentKeydown_escape. rewrite Hk. by destruct (keydown pg).
  - destruct (hideCard_frame opened) as (_ & _ & _ & _ & ->). split; [done|].
    unfold shownCard. rewrite hideCard_eq, Hov. simpl.
    rewrite getOverlay_putOverlay by (by rewrite Hov). done.
Qed.

Lemma dismissal_paths_witness :
  is_Some (itemAt (items (element Examples.gridOfThree)) 1) ∧
  is_Some (getOverlay (container (element Examples.gridOfThree))) ∧
  let opened := showCard 1 Examples.gridOfThree in
  step CloseClick opened = hideCard opened ∧
  step BackdropClick opened = hideCard opened ∧
  step (Keydown "Escape") opened = hideCard opened ∧
  activeIndex (element (hideCard opened)) = None ∧
  shownCard (hideCard opened) = None ∧
  (ov_active <$> getOverlay (container (element (hideCard opened)))) = Some false.
Proof.
  split; [by vm_compute; eexists|]. split; [by vm_compute; eexists|].
  apply (dismissal_paths 1 Examples.gridOfThree).
  - by vm_compute; eexists.
  - by vm_compute; eexists.
Defined.

(** Keys the overlay does not know. A key other than Escape, ArrowLeft
    and ArrowRight changes nothing, however many [keyHandler]s are
    registered; pressed on a card of the grid it changes nothing either,
    unless it is Enter or Space. *)
Theorem other_keys_ignored key pg :
  key ≠ "Escape"%string → key ≠ "ArrowLeft"%string → key ≠ "ArrowRight"%string →
  step (Keydown key) pg = pg ∧
  ∀ k, key ≠ "Enter"%string → key ≠ " "%string → step (CardKeydown k key) pg = pg.
Proof.
  intros H1 H2 H3.
  assert (documentKeydown key pg = pg) as Hd.
  { apply dispatchKeydown_fixed. intros h. by apply keyHandler_other. }
  split; [done|]. intros k H4 H5. simpl.
  destruct (getGrid (container (element pg)) !! k); [|done].
  by rewrite !bool_decide_eq_false_2 by done.
Qed.

Lemma other_keys_ignored_witness :
  let pg := run [CardClick 0; NextClick] Examples.gridOfThree in
  "Tab"%string ≠ "Escape"%string ∧ "Tab"%string ≠ "ArrowLeft"%string ∧
  "Tab"%string ≠ "ArrowRight"%string ∧
  step (Keydown "Tab") pg = pg ∧
  ∀ k, "Tab"%string ≠ "Enter"%string → "Tab"%string ≠ " "%string →
       step (CardKeydown k "Tab") pg = pg.
Proof.
  split; [done|]. split; [done|]. split; [done|].
  by apply (other_keys_ignored "Tab"
              (run [CardClick 0; NextClick] Examples.gridOfThree)).
Defined.

(** [showCard] out of range. For an index below 0 or not below the number
    of items, [showCard] records the index as the selection and does
    nothing else: the overlay, the listeners of [document] and the items
    are as before. *)
Theorem showCard_out_of_range idx pg :
  (idx < 0 ∨ Z.of_nat (length (items (element pg))) ≤ idx)%Z →
  showCard idx pg = onElement (setActiveIndex (Some idx)) pg ∧
  activeIndex (element (showCard idx pg)) = Some idx ∧
  container (element (showCard idx pg)) = container (element pg) ∧
  keydown (showCard idx pg) = keydown pg.
Proof.
  intros Hr. assert (itemAt (items (element pg)) idx = None) as Hn.
  { apply eq_None_not_Some. rewrite itemAt_Some. lia. }
  rewrite showCard_eq, Hn. done.
Qed.

Lemma showCard_out_of_range_witness :
  (3 < 0 ∨ Z.of_nat (length (items (element Examples.gridOfThree))) ≤ 3)%Z ∧
  showCard 3 Examples.gridOfThree
    = onElement (setActiveIndex (Some 3%Z)) Examples.gridOfThree ∧
  activeIndex (element (showCard 3 Examples.gridOfThree)) = Some 3%Z ∧
  container (element (showCard 3 Examples.gridOfThree))
    = container (element Examples.gridOfThree) ∧
  keydown (showCard 3 Examples.gridOfThree) = keydown Examples.gridOfThree.
Proof.
  split; [right; by vm_compute|].
  apply (showCard_out_of_range 3 Examples.gridOfThree). right. by vm_compute.
Defined.

(** *** Moving between items *)

(** [showCard] on an open overlay shows the other item. *)
Lemma showCard_again idx idx' pg item other :
  itemAt (items (element pg)) idx = Some item →
  itemAt (items (element pg)) idx' = Some other →
  is_Some (getOverlay (container (element pg))) →
  let pg' := showCard idx' (showCard idx pg) in
  activeIndex (element pg') = Some idx' ∧
  (cv_item <$> shownCard pg') = Some other ∧
  (cv_index <$> shownCard pg') = Some idx'.
Proof.
  intros Hi Hi' [ov Ho] pg'.
  destruct (showCard_shows idx pg item ov Hi Ho) as (_ & Hov & _ & _ & _ & Hit).
  rewrite <- Hit in Hi'.
  destruct (showCard_shows idx' (showCard idx pg) other _ Hi' Hov)
    as (Ha & _ & Hcv & _).
  subst pg'. by rewrite Ha, Hcv.
Qed.

Lemma showCard_buttons idx pg item ov :
  itemAt (items (element pg)) idx = Some item →
  getOverlay (container (element pg)) = Some ov →
  (is_Some (itemAt (items (element pg)) (idx + 1)) →
     bool_decide (idx < Z.of_nat (length (items (element pg))) - 1)%Z = true) ∧
  (is_Some (itemAt (items (element pg)) (idx - 1)) →
     bool_decide (0 < idx)%Z = true) ∧
  (itemAt (items (element pg)) (idx + 1) = None →
     bool_decide (idx < Z.of_nat (length (items (element pg))) - 1)%Z = false) ∧
  (itemAt (items (element pg)) (idx - 1) = None →
     bool_decide (0 < idx)%Z = false).
Proof.
  intros Hi Ho.
  assert (is_Some (itemAt (items (element pg)) idx)) as Hv by eauto.
  apply itemAt_Some in Hv.
  repeat split; intros H.
  - apply itemAt_Some in H. apply bool_decide_eq_true. lia.
  - apply itemAt_Some in H. apply bool_decide_eq_true. lia.
  - apply bool_decide_eq_false. intros Hlt.
    assert (is_Some (itemAt (items (element pg)) (idx + 1))) as [? ?]
      by (apply itemAt_Some; lia). congruence.
  - apply bool_decide_eq_false. intros Hlt.
    assert (is_Some (itemAt (items (element pg)) (idx - 1))) as [? ?]
      by (apply itemAt_Some; lia). congruence.
Qed.

(** The navigation buttons. With the overlay open at an index, a click
    on the next button shows the item at the index above and selects it,
    and a click on the previous button shows the item at the index below
    and selects it; each does what [showCard] does for the neighbouring
    index. *)
Theorem navigation_buttons idx pg item :
  itemAt (items (element pg)) idx = Some item →
  is_Some (getOverlay (container (element pg))) →
  let opened := showCard idx pg in
  (∀ next, itemAt (items (element pg)) (idx + 1) = Some next →
     step NextClick opened = showCard (idx + 1) opened ∧
     activeIndex (element (step NextClick opened)) = Some (idx + 1)%Z ∧
     (cv_item <$> shownCard (step NextClick opened)) = Some next) ∧
  (∀ prev, itemAt (items (element pg)) (idx - 1) = Some prev →
     step PrevClick opened = showCard (idx - 1) opened ∧
     activeIndex (element (step PrevClick opened)) = Some (idx - 1)%Z ∧
     (cv_item <$> shownCard (step PrevClick opened)) = Some prev).
Proof.
  intros Hi [ov Ho] opened.
  destruct (showCard_shows idx pg item ov Hi Ho) as (_ & _ & Hcv & _).
  fold opened in Hcv.
  destruct (showCard_buttons idx pg item ov Hi Ho) as (Hn & Hp & _).
  split.
  - intros next Hnext.
    assert (step NextClick opened = showCard (idx + 1) opened) as ->.
    { simpl. rewrite Hcv. simpl. by rewrite Hn by eauto. }
    split; [done|].
    destruct (showCard_again idx (idx + 1) pg item next Hi Hnext) as (? & ? & _);
      eauto.
  - intros prev Hprev.
    assert (step PrevClick opened = showCard (idx - 1) opened) as ->.
    { simpl. rewrite Hcv. simpl. by rewrite Hp by eauto. }
    split; [done|].
    destruct (showCard_again idx (idx - 1) pg item prev Hi Hprev) as (? & ? & _);
      eauto.
Qed.

Lemma navigation_buttons_witness :
  itemAt (items (element Examples.gridOfThree)) 1 = Some (Examples.item "B") ∧
  is_Some (getOverlay (container (element Examples.gridOfThree))) ∧
  let opened := showCard 1 Examples.gridOfThree in
  (∀ next, itemAt (items (element Examples.gridOfThree)) (1 + 1) = Some next →
     step NextClick opened = showCard (1 + 1) opened ∧
     activeIndex (element (step NextClick opened)) = Some (1 + 1)%Z ∧
     (cv_item <$> shownCard (step NextClick opened)) = Some next) ∧
  (∀ prev, itemAt (items (element Examples.gridOfThree)) (1 - 1) = Some prev →
     step PrevClick opened = showCard (1 - 1) opened ∧
     activeIndex (element (step PrevClick opened)) = Some (1 - 1)%Z ∧
     (cv_item <$> shownCard (step PrevClick opened)) = Some prev).
Proof.
  split; [reflexivity|]. split; [by vm_compute; eexists|].
  apply (navigation_buttons 1 Examples.gridOfThree (Examples.item "B")).
  - reflexivity.
  - by vm_compute; eexists.
Defined.

(** The arrow keys. On a page with no [keyHandler] left over, with the
    overlay open at an index, the right arrow shows and selects the item at
    the index above, and the left arrow the item at the index below: the
    one handler registered does what [showCard] does for the neighbouring
    index. *)
Theorem arrow_keys_move_to_adjacent idx pg item :
  keydown pg = [] →
  itemAt (items (element pg)) idx = Some item →
  is_Some (getOverlay (container (element pg))) →
  let opened := showCard idx pg in
  (∀ next, itemAt (items (element pg)) (idx + 1) = Some next →
     step (Keydown "ArrowRight") opened = showCard (idx + 1) opened ∧
     activeIndex (element (step (Keydown "ArrowRight") opened)) = Some (idx + 1)%Z ∧
     (cv_item <$> shownCard (step (Keydown "ArrowRight") opened)) = Some next) ∧
  (∀ prev, itemAt (items (element pg)) (idx - 1) = Some prev →
     step (Keydown "ArrowLeft") opened = showCard (idx - 1) opened ∧
     activeIndex (element (step (Keydown "ArrowLeft") opened)) = Some (idx - 1)%Z ∧
     (cv_item <$> shownCard (step (Keydown "ArrowLeft") opened)) = Some prev).
Proof.
  intros Hk Hi [ov Ho] opened.
  destruct (showCard_shows idx pg item ov Hi Ho) as (_ & _ & _ & Hkd & _).
  fold opened in Hkd. rewrite Hk in Hkd. simpl in Hkd.
  destruct (showCard_buttons idx pg item ov Hi Ho) as (Hn & Hp & _).
  split.
  - intros next Hnext.
    assert (step (Keydown "ArrowRight") opened = showCard (idx + 1) opened) as ->.
    { simpl. unfold documentKeydown. rewrite Hkd. simpl.
      rewrite decide_True by (rewrite Hkd; simpl; left).
      rewrite keyHandler_right. simpl. by rewrite Hn by eauto. }
    split; [done|].
    destruct (showCard_again idx (idx + 1) pg item next Hi Hnext) as (? & ? & _);
      eauto.
  - intros prev Hprev.
    assert (step (Keydown "ArrowLeft") opened = showCard (idx - 1) opened) as ->.
    { simpl. unfold documentKeydown. rewrite Hkd. simpl.
      rewrite decide_True by (rewrite Hkd; simpl; left).
      rewrite keyHandler_left. simpl. by rewrite Hp by eauto. }
    split; [done|].
    destruct (showCard_again idx (idx - 1) pg item prev Hi Hprev) as (? & ? & _);
      eauto.
Qed.

Lemma arrow_keys_move_to_adjacent_witness :
  keydown Examples.gridOfThree = [] ∧
  itemAt (items (element Examples.gridOfThree)) 1 = Some (Examples.item "B") ∧
  is_Some (getOverlay (container (element Examples.gridOfThree))) ∧
  let opened := showCard 1 Examples.gridOfThree in
  (∀ next, itemAt (items (element Examples.gridOfThree)) (1 + 1) = Some next →
     step (Keydown "ArrowRight") opened = showCard (1 + 1) opened ∧
     activeIndex (element (step (Keydown "ArrowRight") opened)) = Some (1 + 1)%Z ∧
     (cv_item <$> shownCard (step (Keydown "ArrowRight") opened)) = Some next) ∧
  (∀ prev, itemAt (items (element Examples.gridOfThree)) (1 - 1) = Some prev →
     step (Keydown "ArrowLeft") opened = showCard (1 - 1) opened ∧
     activeIndex (element (step (Keydown "ArrowLeft") opened)) = Some (1 - 1)%Z ∧
     (cv_item <$> shownCard (step (Keydown "ArrowLeft") opened)) = Some prev).
Proof.
  split; [reflexivity|]. split; [reflexivity|]. split; [by vm_compute; eexists|].
  apply (arrow_keys_move_to_adjacent 1 Examples.gridOfThree (Examples.item "B")).
  - reflexivity.
  - reflexivity.
  - by vm_compute; eexists.
Defined.

(** *** Listeners are new objects *)

Lemma showCard_fresh idx pg : freshIds pg → freshIds (showCard idx pg).
Proof.
  intros Hf. unfold freshIds. rewrite showCard_eq.
  destruct (itemAt (items (element pg)) idx), (getOverlay (container (element pg)));
    simpl; try done.
  intros fh [Hin|Hin]%elem_of_app.
  - specialize (Hf fh Hin). lia.
  - apply list_elem_of_singleton in Hin as ->. simpl. lia.
Qed.

Lemma hideCard_fresh pg : freshIds pg → freshIds (hideCard pg).
Proof.
  intros Hf. unfold freshIds. rewrite hideCard_eq.
  destruct (getOverlay (container (element pg))) as [ov|]; simpl; try done.
  destruct (ov_keyHandler ov); [|done].
  intros fh [_ Hin]%list_elem_of_filter. by apply Hf.
Qed.

Lemma keyHandler_fresh h key pg : freshIds pg → freshIds (keyHandler h key pg).
Proof.
  intros Hf. unfold keyHandler.
  repeat match goal with
         | |- context [if ?b then _ else _] => destruct b
         end;
    repeat first [apply showCard_fresh | apply hideCard_fresh]; done.
Qed.

Lemma dispatchKeydown_fresh snapshot key : ∀ pg,
  freshIds pg → freshIds (dispatchKeydown snapshot key pg).
Proof.
  induction snapshot as [|[f h] rest IH]; intros pg Hf; simpl; [done|].
  case_decide; apply IH; [by apply keyHandler_fresh|done].
Qed.

Lemma lifecycle_nextObject e pg :
  isLifecycle e = true →
  Scene.nextObject (platform pg) ≤ Scene.nextObject (platform (step e pg)).
Proof.
  assert (∀ pg0, platform (load pg0) = platform pg0) as Hload.
  { intros pg0. unfold load, posterUrl. simpl.
    destruct (truthy (attr_data_json (element pg0))); [|done].
    by destruct (truthy (attr_poster (element pg0))). }
  assert (∀ pg0, Scene.nextObject (platform (dropScene pg0))
                 = Scene.nextObject (platform pg0)) as Hdrop.
  { intros pg0. unfold dropScene. destruct (scene (element pg0)) as [s|]; [|done].
    rewrite SceneFacts.destroy_eq. done. }
  assert (∀ env pg0, Scene.nextObject (platform pg0)
                     ≤ Scene.nextObject (platform (render env pg0))) as Hrender.
  { intros env pg0.
    destruct (bool_decide (variant (element pg0) = "grid"%string)
              || prefersReducedMotion env || negb (isWebGLAvailable env)) eqn:E.
    - by rewrite (render_grid _ _ E).
    - rewrite (render_constellation _ _ E).
      destruct (renderConstellation_spec env (onElement (setContainer []) pg0))
        as (_ & _ & -> & _). simpl. apply SceneFacts.construct_nextObject. }
  intros He. destruct e; try done; simpl.
  - unfold connectedCallback. by rewrite Hload.
  - unfold disconnectedCallback. by rewrite Hdrop.
  - unfold attributeChangedCallback. destruct (isConnected _); [|done].
    by rewrite Hload, Hdrop.
  - unfold fetchSettled. case_decide; [|done].
    unfold loadResume, loadTry. destruct r as [|[] status [|data]]; simpl; try done.
    apply (Hrender env (onElement (setItems (default [] (data_items data)))
                          (setFetches (filter (λ f, f.1 ≠ id) (fetches pg))
                                      (nextFetch pg) pg))).
Qed.

Lemma step_fresh e pg : freshIds pg → freshIds (step e pg).
Proof.
  intros Hf. destruct (isLifecycle e) eqn:He.
  - intros fh Hin.
    destruct (lifecycle_keeps_selection e pg He) as [_ Hk]. rewrite Hk in Hin.
    pose proof (lifecycle_nextObject e pg He). specialize (Hf fh Hin). lia.
  - destruct e; try done; simpl.
    + destruct (getGrid _ !! k); [by apply showCard_fresh|done].
    + destruct (getGrid _ !! k); [|done]. apply dispatchKeydown_fresh.
      destruct (_ || _); [by apply showCard_fresh|done].
    + destruct (scene (element pg)); [|done]. destruct (hasConstellation _); [|done].
      destruct (Scene.labelClicked _ _); [by apply showCard_fresh|done].
    + destruct (scene (element pg)); [|done]. destruct (_ && _); [|done].
      destruct (Scene.canvasClicked _); [by apply showCard_fresh|done].
    + destruct (shownCard pg); [by apply hideCard_fresh|done].
    + destruct (shownCard pg) as [cv|]; [|done].
      destruct (cv_prev cv); [by apply showCard_fresh|done].
    + destruct (shownCard pg) as [cv|]; [|done].
      destruct (cv_next cv); [by apply showCard_fresh|done].
    + destruct (getOverlay _) as [ov|]; [|done]. destruct (ov_active ov); [|done].
      induction (ov_clicks ov) as [|n IH]; [done|]. simpl. by apply hideCard_fresh.
    + by apply dispatchKeydown_fresh.
    + destruct (scene (element pg)) as [s|]; [|done].
      pose proof (SceneFacts.step_nextObject e (platform pg, s)) as Hn.
      destruct (Scene.step e (platform pg, s)) as [p s']. simpl in *.
      intros fh Hin. specialize (Hf fh Hin). simpl. lia.
Qed.

Lemma run_fresh es pg : freshIds pg → freshIds (run es pg).
Proof.
  unfold run. revert pg. induction es as [|e es IH]; intros pg Hf; simpl; [done|].
  apply IH. by apply step_fresh.
Qed.

(** Opening and closing, all told. At any time in the life of an element,
    whatever has happened to it, a [showCard] that finds its item and the
    overlay adds one listener to [document], and a [hideCard] right after
    it takes that listener away again: the listeners of [document] are
    those from before the opening. A handler that an earlier opening left
    on [document] is still there. *)
Theorem open_close_round_trip json variant poster accent es idx :
  let pg := run es (newPage (newElement json variant poster accent)) in
  is_Some (itemAt (items (element pg)) idx) →
  is_Some (getOverlay (container (element pg))) →
  length (keydown (showCard idx pg)) = S (length (keydown pg)) ∧
  keydown (hideCard (showCard idx pg)) = keydown pg ∧
  activeIndex (element (hideCard (showCard idx pg))) = None ∧
  shownCard (hideCard (showCard idx pg)) = None.
Proof.
  intros pg [item Hi] [ov Ho].
  assert (freshIds pg) as Hf.
  { apply run_fresh. intros fh Hin. by apply elem_of_nil in Hin. }
  destruct (showCard_shows idx pg item ov Hi Ho) as (_ & Hov & _ & Hk & _).
  split; [rewrite Hk, length_app; simpl; lia|].
  split; [|split].
  - rewrite hideCard_eq, Hov. simpl. rewrite Hk, filter_app.
    rewrite filter_cons_False by (simpl; intros H; by apply H).
    rewrite SceneFacts.filter_all; [by rewrite app_nil_r|].
    intros fh Hin Heq. specialize (Hf fh Hin). lia.
  - by destruct (hideCard_frame (showCard idx pg)) as (_ & _ & _ & _ & ->).
  - unfold shownCard. rewrite hideCard_eq, Hov. simpl.
    by rewrite getOverlay_putOverlay by (by rewrite Hov).
Qed.

Lemma open_close_round_trip_witness :
  let pg := run [Connect; FetchSettled 0 (Examples.ok Examples.three) Examples.capable;
                 CardClick 0; NextClick; CloseClick]
                (newPage (newElement (Some "portfolio.json"%string) (Some "grid"%string)
                                     None None)) in
  is_Some (itemAt (items (element pg)) 2) ∧
  is_Some (getOverlay (container (element pg))) ∧
  length (keydown (showCard 2 pg)) = S (length (keydown pg)) ∧
  keydown (hideCard (showCard 2 pg)) = keydown pg ∧
  activeIndex (element (hideCard (showCard 2 pg))) = None ∧
  shownCard (hideCard (showCard 2 pg)) = None.
Proof.
  split; [by vm_compute; eexists|]. split; [by vm_compute; eexists|].
  apply (open_close_round_trip (Some "portfolio.json"%string) (Some "grid"%string)
           None None
           [Connect; FetchSettled 0 (Examples.ok Examples.three) Examples.capable;
            CardClick 0; NextClick; CloseClick] 2).
  - by vm_compute; eexists.
  - by vm_compute; eexists.
Defined.

(** *** Selecting an item *)

Lemma renderedMode_grid env pg :
  renderedMode (render env pg) = Some Grid →
  bool_decide (variant (element pg) = "grid"%string)
  || prefersReducedMotion env || negb (isWebGLAvailable env) = true.
Proof. rewrite renderedMode_render. by destruct (_ || _ || _). Qed.

Lemma renderedMode_immersive env pg :
  renderedMode (render env pg) = Some Immersive →
  bool_decide (variant (element pg) = "grid"%string)
  || prefersReducedMotion env || negb (isWebGLAvailable env) = false.
Proof. rewrite renderedMode_render. by destruct (_ || _ || _). Qed.

(** The events of the scene, seen from the element. *)
Lemma run_sceneEvents es : ∀ pg s,
  scene (element pg) = Some s →
  let st := Scene.run es (platform pg, s) in
  run (SceneEvent <$> es) pg = onElement (setScene (Some st.2)) (setPlatform st.1 pg).
Proof.
  induction es as [|e es IH]; intros pg s Hs; simpl.
  - destruct pg as [el kd p fs n]. destruct el. simpl in *. by rewrite Hs.
  - unfold run, Scene.run in *. simpl. rewrite Hs.
    destruct (Scene.step e (platform pg, s)) as [p' s'] eqn:E.
    rewrite (IH _ s') by done. simpl. done.
Qed.

(** Activating a card. In the grid that [render] has produced, whatever
    is selected or registered at the time, a click on card [k], like Enter
    or Space pressed on it, does what [showCard] does for index [k]: the
    overlay shows item [k], the item whose title the card carries, and
    index [k] is selected. *)
Theorem card_activation env pg k item :
  renderedMode (render env pg) = Some Grid →
  items (element pg) !! k = Some item →
  let rendered := render env pg in
  (card_ariaLabel <$> getGrid (container (element rendered)) !! k)
    = Some (item_title item) ∧
  step (CardClick k) rendered = showCard (Z.of_nat k) rendered ∧
  step (CardKeydown k "Enter") rendered = showCard (Z.of_nat k) rendered ∧
  step (CardKeydown k " ") rendered = showCard (Z.of_nat k) rendered ∧
  activeIndex (element (showCard (Z.of_nat k) rendered)) = Some (Z.of_nat k) ∧
  (cv_item <$> shownCard (showCard (Z.of_nat k) rendered)) = Some item.
Proof.
  intros Hmode Hk rendered. apply renderedMode_grid in Hmode.
  assert (getGrid (container (element rendered)) !! k
          = Some (mkCard (item_title item) (item_image item) (item_title item)
                         (item_tags item) k)) as Hcard.
  { subst rendered. rewrite (render_grid _ _ Hmode), renderGrid_container. simpl.
    by rewrite list_lookup_imap, Hk. }
  assert (getOverlay (container (element rendered)) = Some newOverlay) as Hov.
  { subst rendered. by rewrite (render_grid _ _ Hmode), renderGrid_container. }
  assert (itemAt (items (element rendered)) (Z.of_nat k) = Some item) as Hitem.
  { subst rendered. by rewrite render_items, itemAt_of_nat. }
  destruct (showCard_shows _ _ _ _ Hitem Hov) as (Ha & _ & Hcv & _).
  assert (∀ key pg0, key = "Enter"%string ∨ key = " "%string →
                     documentKeydown key pg0 = pg0) as Hkeys.
  { intros key pg0 Hkey. apply dispatchKeydown_fixed. intros h.
    apply keyHandler_other; by destruct Hkey as [-> | ->]. }
  split; [by rewrite Hcard|]. split; [by simpl; rewrite Hcard|].
  split; [simpl; rewrite Hcard; simpl; apply Hkeys; by left|].
  split; [simpl; rewrite Hcard; simpl; apply Hkeys; by right|].
  by rewrite Ha, Hcv.
Qed.

Lemma card_activation_witness :
  let pg := run [Connect] Examples.gridElement in
  let pg := onElement (setItems Examples.three) pg in
  renderedMode (render Examples.capable pg) = Some Grid ∧
  items (element pg) !! 2 = Some (Examples.item "C") ∧
  let rendered := render Examples.capable pg in
  (card_ariaLabel <$> getGrid (container (element rendered)) !! 2)
    = Some (item_title (Examples.item "C")) ∧
  step (CardClick 2) rendered = showCard (Z.of_nat 2) rendered ∧
  step (CardKeydown 2 "Enter") rendered = showCard (Z.of_nat 2) rendered ∧
  step (CardKeydown 2 " ") rendered = showCard (Z.of_nat 2) rendered ∧
  activeIndex (element (showCard (Z.of_nat 2) rendered)) = Some (Z.of_nat 2) ∧
  (cv_item <$> shownCard (showCard (Z.of_nat 2) rendered)) = Some (Examples.item "C").
Proof.
  split; [by vm_compute|]. split; [reflexivity|].
  apply (card_activation Examples.capable
           (onElement (setItems Examples.three) (run [Connect] Examples.gridElement))
           2 (Examples.item "C")).
  - by vm_compute.
  - reflexivity.
Defined.

(** Selecting in the scene. In the scene that [render] has produced, after
    any number of frames and of textures loaded or failed, a click on label
    [k] and a click on the canvas whose nearest hit is mesh [k] both do
    what [showCard] does for index [k], which shows item [k]; a click on
    the canvas that hits no mesh changes nothing. *)
Theorem scene_selection env pg es k item :
  renderedMode (render env pg) = Some Immersive →
  items (element pg) !! k = Some item →
  let rendered := run (SceneEvent <$> es) (render env pg) in
  step (LabelClick k) rendered = showCard (Z.of_nat k) rendered ∧
  (∀ farther, step (CanvasClick (k :: farther)) rendered
              = showCard (Z.of_nat k) rendered) ∧
  step (CanvasClick []) rendered = rendered ∧
  activeIndex (element (showCard (Z.of_nat k) rendered)) = Some (Z.of_nat k) ∧
  (cv_item <$> shownCard (showCard (Z.of_nat k) rendered)) = Some item.
Proof.
  intros Hmode Hk rendered. apply renderedMode_immersive in Hmode.
  pose proof (render_items env pg) as Hitems.
  destruct (renderConstellation_spec env (onElement (setContainer []) pg))
    as (Hc & Hs & Hp & _).
  rewrite <- (render_constellation _ _ Hmode) in Hc, Hs, Hp. simpl in Hc, Hs, Hp.
  change (accent (setContainer [] (element pg))) with (accent (element pg)) in Hs, Hp.
  set (st0 := Scene.construct (easing env) (items (element pg)) (accent (element pg))
                              (platform pg)) in *.
  pose proof (run_sceneEvents es (render env pg) st0.2 Hs) as Hrun.
  rewrite Hp in Hrun. replace (st0.1, st0.2) with st0 in Hrun by (by destruct st0).
  fold rendered in Hrun. cbv zeta in Hrun.
  set (st := Scene.run es st0) in *.
  pose proof (SceneFacts.reachable_consistent (easing env) (items (element pg))
                (accent (element pg)) (platform pg) es) as Hcons.
  fold st0 in Hcons. fold st in Hcons.
  pose proof (SceneFacts.run_click es st0
                (Scene.sched_click _ _ (SceneFacts.construct_scheduled _ _ _ _)))
    as Hclick.
  fold st in Hclick.
  assert (scene (element rendered) = Some st.2) as Hscene by (rewrite Hrun; by simpl).
  assert (container (element rendered) = [ConstellationWrap newOverlay]) as Hcont
    by (rewrite Hrun; simpl; by rewrite Hc).
  assert (items (element rendered) = items (element pg)) as Hit
    by (rewrite Hrun; simpl; by rewrite Hitems).
  destruct (lookup_lt_is_Some_2 (Scene.labelElements st.2) k) as [b Hb].
  { rewrite (Scene.cons_labels _ _ Hcons). by eapply lookup_lt_Some. }
  destruct (lookup_lt_is_Some_2 (Scene.thumbnailMeshes st.2) k) as [m Hm].
  { rewrite (Scene.cons_meshes _ _ Hcons). by eapply lookup_lt_Some. }
  destruct (Scene.cons_label _ _ Hcons k b Hb) as [Hci _].
  pose proof (Scene.cons_index _ _ Hcons k m Hm) as Hmi.
  assert (itemAt (items (element rendered)) (Z.of_nat k) = Some item) as Hitem
    by (by rewrite Hit, itemAt_of_nat).
  assert (getOverlay (container (element rendered)) = Some newOverlay) as Hov
    by (by rewrite Hcont).
  destruct (showCard_shows _ _ _ _ Hitem Hov) as (Ha & _ & Hcv & _).
  split; [|split; [|split]].
  - simpl. rewrite Hscene, Hcont. simpl. unfold Scene.labelClicked. rewrite Hb. simpl.
    by rewrite Hci.
  - intros farther. simpl. rewrite Hscene, Hcont. simpl.
    rewrite bool_decide_eq_true_2 by (rewrite Hclick; left).
    rewrite Hm. simpl. by rewrite Hmi.
  - simpl. rewrite Hscene, Hcont. simpl. rewrite bool_decide_eq_true_2 by (rewrite Hclick; left). done.
  - by rewrite Ha, Hcv.
Qed.

Lemma scene_selection_witness :
  let pg := onElement (setItems Examples.three) (run [Connect] Examples.sceneElement) in
  let es := [Scene.Frame Examples.still; Scene.TextureLoaded 0; Scene.TextureFailed 0] in
  renderedMode (render Examples.capable pg) = Some Immersive ∧
  items (element pg) !! 1 = Some (Examples.item "B") ∧
  let rendered := run (SceneEvent <$> es) (render Examples.capable pg) in
  step (LabelClick 1) rendered = showCard (Z.of_nat 1) rendered ∧
  (∀ farther, step (CanvasClick (1 :: farther)) rendered
              = showCard (Z.of_nat 1) rendered) ∧
  step (CanvasClick []) rendered = rendered ∧
  activeIndex (element (showCard (Z.of_nat 1) rendered)) = Some (Z.of_nat 1) ∧
  (cv_item <$> shownCard (showCard (Z.of_nat 1) rendered)) = Some (Examples.item "B").
Proof.
  split; [by vm_compute|]. split; [reflexivity|].
  apply (scene_selection Examples.capable
           (onElement (setItems Examples.three) (run [Connect] Examples.sceneElement))
           [Scene.Frame Examples.still; Scene.TextureLoaded 0; Scene.TextureFailed 0]
           1 (Examples.item "B")).
  - by vm_compute.
  - reflexivity.
Defined.

(** *** Loading and reconfiguration *)

Lemma fetchSettled_none id r env pg :
  fetches pg = [] → fetchSettled id r env pg = pg.
Proof.
  intros H. unfold fetchSettled. rewrite H.
  destruct (decide _) as [Hin|]; [|done]. by apply elem_of_nil in Hin.
Qed.

(** No data source. When the [data-json] attribute is missing or empty,
    connecting the element shows the notice that no data source was given
    and issues no request; the items, the scene and the platform stay as
    they are. With no request in flight, nothing that settles later
    changes the page: the element does not render. *)
Theorem load_without_source pg :
  truthy (attr_data_json (element pg)) = None →
  let pg' := step Connect pg in
  container (element pg') = [FallbackNotice noDataNotice] ∧
  fetches pg' = fetches pg ∧
  items (element pg') = items (element pg) ∧
  scene (element pg') = scene (element pg) ∧
  platform pg' = platform pg ∧
  (fetches pg = [] →
   ∀ settles : list (nat * FetchResult * Env),
     run ((λ x, FetchSettled x.1.1 x.1.2 x.2) <$> settles) pg' = pg').
Proof.
  intros Hsrc pg'.
  assert (pg' = onElement (setContainer [FallbackNotice noDataNotice])
                  (updateAccentColor (onElement (setContainer [])
                     (onElement (setConnected true) pg)))) as Hpg'.
  { subst pg'. simpl. unfold connectedCallback, load. simpl. by rewrite Hsrc. }
  rewrite Hpg'. simpl. do 5 (split; [done|]).
  intros Hf settles. induction settles as [|[[id r] env] settles IH]; [done|].
  unfold run in *. simpl. rewrite fetchSettled_none by done. apply IH.
Qed.

Lemma load_without_source_witness :
  let pg := newPage (newElement (Some "") (Some "grid") None None) in
  truthy (attr_data_json (element pg)) = None ∧
  let pg' := step Connect pg in
  container (element pg') = [FallbackNotice noDataNotice] ∧
  fetches pg' = fetches pg ∧
  items (element pg') = items (element pg) ∧
  scene (element pg') = scene (element pg) ∧
  platform pg' = platform pg ∧
  (fetches pg = [] →
   ∀ settles : list (nat * FetchResult * Env),
     run ((λ x, FetchSettled x.1.1 x.1.2 x.2) <$> settles) pg' = pg').
Proof.
  split; [reflexivity|].
  apply (load_without_source (newPage (newElement (Some "") (Some "grid") None None))).
  reflexivity.
Defined.

(** Waiting for the document. When [data-json] names a source, a load
    sets the accent colour from the [accent] attribute, or the default
    when that is missing or empty; shows the poster when the [poster]
    attribute is a non-empty string and the loading indicator otherwise;
    and issues exactly one request, for that source, in addition to those
    in flight. It leaves the items, the scene and the platform of an
    earlier load in place until the response arrives. *)
Theorem load_waits_for_document pg url :
  truthy (attr_data_json (element pg)) = Some url →
  let pg' := load pg in
  style_accent (element pg') = Some (default "#8C52FF"%string (truthy (attr_accent (element pg)))) ∧
  (∀ src, truthy (attr_poster (element pg)) = Some src →
          container (element pg') = [Poster src]) ∧
  (truthy (attr_poster (element pg)) = None → container (element pg') = [Loading]) ∧
  fetches pg' = fetches pg ++ [(nextFetch pg, url)] ∧
  nextFetch pg' = S (nextFetch pg) ∧
  items (element pg') = items (element pg) ∧
  scene (element pg') = scene (element pg) ∧
  platform pg' = platform pg.
Proof.
  intros Hsrc pg'. subst pg'. unfold load. simpl. rewrite Hsrc. simpl.
  unfold posterUrl. simpl.
  split; [done|]. split; [by intros src ->|]. split; [by intros ->|]. done.
Qed.

Lemma load_waits_for_document_witness :
  let pg := newPage (newElement (Some "portfolio.json") None (Some "poster.jpg") (Some "")) in
  truthy (attr_data_json (element pg)) = Some "portfolio.json"%string ∧
  let pg' := load pg in
  style_accent (element pg') = Some (default "#8C52FF"%string (truthy (attr_accent (element pg)))) ∧
  (∀ src, truthy (attr_poster (element pg)) = Some src →
          container (element pg') = [Poster src]) ∧
  (truthy (attr_poster (element pg)) = None → container (element pg') = [Loading]) ∧
  fetches pg' = fetches pg ++ [(nextFetch pg, "portfolio.json"%string)] ∧
  nextFetch pg' = S (nextFetch pg) ∧
  items (element pg') = items (element pg) ∧
  scene (element pg') = scene (element pg) ∧
  platform pg' = platform pg.
Proof.
  split; [reflexivity|].
  apply (load_waits_for_document
           (newPage (newElement (Some "portfolio.json") None (Some "poster.jpg") (Some "")))
           "portfolio.json").
  reflexivity.
Defined.

(** An attribute change. While the element is not connected, changing an
    observed attribute does nothing beyond the change. While it is
    connected, the scene in place is destroyed and forgotten (its frame
    request is cancelled, its resize listener removed from the window,
    and every object it holds disposed) and a load starts, which takes
    the rendering, the overlay with it, out of the document; the items,
    the selection and the keydown listeners of [document] stay as they
    were, also those of a detail overlay that was open. *)
Theorem attribute_change_reloads a v pg :
  let pg' := step (SetAttribute a v) pg in
  (isConnected (element pg) = false → pg' = onElement (setAttribute a v) pg) ∧
  (isConnected (element pg) = true →
     scene (element pg') = None ∧
     (∀ s, scene (element pg) = Some s →
        platform pg' = (Scene.destroy (platform pg, s)).1 ∧
        (Scene.animId s ∉ Scene.pendingFrames (platform pg')) ∧
        (Scene.resize s ∉ Scene.windowResize (platform pg')) ∧
        (∀ h, h ∈ Scene.owned s → h ∉ Scene.undisposed (platform pg'))) ∧
     getOverlay (container (element pg')) = None ∧
     getGrid (container (element pg')) = [] ∧
     hasConstellation (container (element pg')) = false ∧
     items (element pg') = items (element pg) ∧
     activeIndex (element pg') = activeIndex (element pg) ∧
     keydown pg' = keydown pg).
Proof.
  intros pg'. subst pg'.
  change (step (SetAttribute a v) pg)
    with (attributeChangedCallback (onElement (setAttribute a v) pg)).
  unfold attributeChangedCallback.
  set (pg0 := onElement (setAttribute a v) pg).
  assert (isConnected (element pg0) = isConnected (element pg)) as Hcon
    by (by destruct a).
  assert (scene (element pg0) = scene (element pg)) as Hsc by (by destruct a).
  assert (platform pg0 = platform pg) as Hpl by done.
  assert (items (element pg0) = items (element pg)) as Hit by (by destruct a).
  assert (activeIndex (element pg0) = activeIndex (element pg)) as Hact
    by (by destruct a).
  assert (keydown pg0 = keydown pg) as Hkd by done.
  rewrite Hcon. split; intros Hc; rewrite Hc; [done|].
  destruct (load_keeps (dropScene pg0)) as (Hk & Ha & Hi & Hs & Hov & Hg & Hh).
  destruct (dropScene_keeps pg0) as (Hk' & Ha' & Hi' & _ & Hs').
  split; [by rewrite Hs|]. split.
  - intros s Hscene.
    assert (platform (load (dropScene pg0)) = (Scene.destroy (platform pg, s)).1) as ->.
    { unfold dropScene. rewrite Hsc, Hscene, Hpl.
      destruct (Scene.destroy (platform pg, s)) as [p s'] eqn:E.
      unfold load. simpl. by destruct (truthy _). }
    split; [done|]. rewrite SceneFacts.destroy_eq.
    cbn [fst Scene.pendingFrames Scene.windowResize Scene.undisposed].
    split; [set_solver|].
    split; [apply SceneFacts.removeEventListener_not_elem|].
    intros h Hin. rewrite elem_of_difference, elem_of_list_to_set. tauto.
  - rewrite Hov, Hg, Hh, Hi, Hi', Hit, Ha, Ha', Hact, Hk, Hk', Hkd. done.
Qed.

Lemma addEventListener_mono (fn f : nat) ls : f ∈ ls → f ∈ addEventListener fn ls.
Proof. intros H. unfold addEventListener. case_decide; [done|]. set_solver. Qed.

(** A load that completes over a scene. [render] destroys nothing. When a
    response arrives while a scene is in place (loads may overlap) and
    the constellation is rendered, a second scene is built and takes the
    place of the first in the element, which nothing can destroy from
    then on; the frame request of the first scene stays pending beside
    that of the second, and its resize listener stays on the window
    beside that of the second: two animation loops run. *)
Theorem completed_load_keeps_scene_running id status data env pg s :
  scene (element pg) = Some s →
  Scene.animId s ∈ Scene.pendingFrames (platform pg) →
  Scene.animId s < Scene.nextFrame (platform pg) →
  Scene.resize s ∈ Scene.windowResize (platform pg) →
  id ∈ (fetches pg).*1 →
  variant (element pg) ≠ "grid"%string →
  prefersReducedMotion env = false → isWebGLAvailable env = true →
  let pg' := step (FetchSettled id (Response true status (Parsed data)) env) pg in
  ∃ s', scene (element pg') = Some s' ∧
        Scene.animId s' ≠ Scene.animId s ∧
        Scene.animId s ∈ Scene.pendingFrames (platform pg') ∧
        Scene.animId s' ∈ Scene.pendingFrames (platform pg') ∧
        Scene.resize s ∈ Scene.windowResize (platform pg') ∧
        Scene.resize s' ∈ Scene.windowResize (platform pg').
Proof.
  intros Hs Hpend Hlt Hres Hid Hvar Hrm Hgl pg'. subst pg'. simpl.
  unfold fetchSettled. rewrite decide_True by done. simpl.
  set (pg1 := onElement (setItems (default [] (data_items data)))
                (setFetches (filter (λ f, f.1 ≠ id) (fetches pg)) (nextFetch pg) pg)).
  assert (bool_decide (variant (element pg1) = "grid"%string)
          || prefersReducedMotion env || negb (isWebGLAvailable env) = false) as E.
  { rewrite Hrm, Hgl. change (variant (element pg1)) with (variant (element pg)).
    by rewrite bool_decide_eq_false_2. }
  rewrite (render_constellation _ _ E).
  destruct (renderConstellation_spec env (onElement (setContainer []) pg1))
    as (_ & Hsc & Hp & _).
  cbv zeta in Hsc, Hp.
  set (st := Scene.construct (easing env) (items (element (onElement (setContainer []) pg1)))
               (accent (element (onElement (setContainer []) pg1)))
               (platform (onElement (setContainer []) pg1))) in *.
  pose proof (SceneFacts.construct_scheduled (easing env)
                (items (element (onElement (setContainer []) pg1)))
                (accent (element (onElement (setContainer []) pg1)))
                (platform (onElement (setContainer []) pg1))) as Hsched.
  fold st in Hsched. destruct Hsched as [Hf Hn _ Hw _].
  change (platform (onElement (setContainer []) pg1)) with (platform pg) in Hf, Hn, Hw.
  exists st.2. rewrite Hsc, Hp, Hf, Hw. split; [done|].
  split; [lia|]. split; [set_solver|]. split; [set_solver|].
  split; [by apply addEventListener_mono|apply SceneFacts.addEventListener_elem].
Qed.

Lemma completed_load_keeps_scene_running_witness :
  let pg := run [Connect; SetAttribute Accent (Some "#fff"%string);
                 FetchSettled 0 (Examples.ok Examples.three) Examples.capable]
                Examples.sceneElement in
  ∃ s, scene (element pg) = Some s ∧
  Scene.animId s ∈ Scene.pendingFrames (platform pg) ∧
  Scene.animId s < Scene.nextFrame (platform pg) ∧
  Scene.resize s ∈ Scene.windowResize (platform pg) ∧
  1 ∈ (fetches pg).*1 ∧
  variant (element pg) ≠ "grid"%string ∧
  prefersReducedMotion Examples.capable = false ∧
  isWebGLAvailable Examples.capable = true ∧
  let pg' := step (FetchSettled 1 (Response true 200 (Parsed (mkData (Some Examples.three))))
                                Examples.capable) pg in
  ∃ s', scene (element pg') = Some s' ∧
        Scene.animId s' ≠ Scene.animId s ∧
        Scene.animId s ∈ Scene.pendingFrames (platform pg') ∧
        Scene.animId s' ∈ Scene.pendingFrames (platform pg') ∧
        Scene.resize s ∈ Scene.windowResize (platform pg') ∧
        Scene.resize s' ∈ Scene.windowResize (platform pg').
Proof.
  intros pg. eexists.
  split; [by vm_compute|].
  split; [apply (bool_decide_unpack _); by vm_compute|].
  split; [vm_compute; lia|].
  split; [apply (bool_decide_unpack _); by vm_compute|].
  split; [apply (bool_decide_unpack _); by vm_compute|].
  split; [by vm_compute|]. split; [reflexivity|]. split; [reflexivity|].
  apply (completed_load_keeps_scene_running 1 200 (mkData (Some Examples.three))
           Examples.capable pg).
  - by vm_compute.
  - apply (bool_decide_unpack _); by vm_compute.
  - vm_compute; lia.
  - apply (bool_decide_unpack _); by vm_compute.
  - apply (bool_decide_unpack _); by vm_compute.
  - by vm_compute.
  - reflexivity.
  - reflexivity.
Defined.

End HostFacts.
